(** * The MPD enrichment pipeline: extraction, catalog client, orchestrator, driver

    A shallow embedding of
      - [src/dataETL/extractors.py]      (module [Extractors]),
      - [src/dataETL/spotify_client.py]  (module [SpotifyClient]),
      - [scripts/enrich_dataset.py]      (module [EnrichDataset]),
      - [src/utils/logger/logging_manager.py] (module [LoggingManager]),
    followed by the properties of the specification that concern them, and
    by further properties that the code shows.

    Python code runs in a frame whose mutations survive a raised exception
    (a dict updated before a [KeyError] stays updated), so every function is
    a computation [Py F A] over its frame [F]: it yields either a value or a
    raised exception, together with the frame as it was left. *)

From stdpp Require Import gmap strings list fin_maps.
From Stdlib Require Import ZArith QArith Ascii.
Close Scope Q_scope.

(** ** Values exchanged with the outside world *)

(** A scalar JSON value, as [json.load] or the HTTP client delivers it. The
    code only copies such values, it never computes with them. *)
Inductive jval :=
| JNull
| JStr (s : string)
| JInt (z : Z)
| JFloat (mantissa exponent : Z).

(** The text of an HTTP header, classified by what [int(...)] makes of it:
    [Numeral n] is read as [n], on [Text s] the conversion raises
    [ValueError] (for instance the HTTP-date form of Retry-After). *)
Inductive header_text :=
| Numeral (n : Z)
| Text (s : string).

(** [spotipy.exceptions.SpotifyException(http_status, code, msg, reason=None,
    headers=None)]: the attributes the client reads. *)
Record SpotifyException := {
  http_status : Z;
  headers : option (gmap string header_text)
}.

Inductive exn :=
| SpotifyError (e : SpotifyException)
| KeyError
| IndexError
| ValueError
| AttributeError
| ZeroDivisionError
| JSONDecodeError
| OSError
| OtherError.

(** ** Computations that may raise *)

Inductive outcome (A : Type) :=
| Done (a : A)
| Raised (e : exn).
Arguments Done {A} a.
Arguments Raised {A} e.

Definition Py (F A : Type) : Type := F -> outcome A * F.

Definition ret {F A} (a : A) : Py F A := fun s => (Done a, s).

Definition bind {F A B} (m : Py F A) (k : A -> Py F B) : Py F B :=
  fun s =>
    match m s with
    | (Done a, s') => k a s'
    | (Raised e, s') => (Raised e, s')
    end.

#[export] Instance Py_ret F : MRet (Py F) := @ret F.
#[export] Instance Py_bind F : MBind (Py F) := fun A B k m => @bind F A B m k.

Definition raise {F A} (e : exn) : Py F A := fun s => (Raised e, s).
Definition get {F} : Py F F := fun s => (Done s, s).
Definition modify {F} (f : F -> F) : Py F unit := fun s => (Done tt, f s).

(** [try: body except Exception as e: handler e]. Every exception of [exn]
    is a subclass of [Exception]. An exception raised by the handler itself
    leaves the statement. *)
Definition try_except {F A} (body : Py F A) (handler : exn -> Py F A) : Py F A :=
  fun s =>
    match body s with
    | (Done a, s') => (Done a, s')
    | (Raised e, s') => handler e s'
    end.

(** [d[k]] on a dict read from JSON: [KeyError] when the key is missing. *)
Definition subscript {F A} (o : option A) : Py F A :=
  match o with
  | Some a => ret a
  | None => raise KeyError
  end.

(** [for x in xs: body x]; an exception leaves the loop at once. *)
Fixpoint for_each {F A} (body : A -> Py F unit) (xs : list A) : Py F unit :=
  match xs with
  | [] => ret tt
  | x :: xs' => bind (body x) (fun _ => for_each body xs')
  end.

(** Running a callee that only sees the part [W] of the caller's frame. *)
Definition call {F W A} (proj : F -> W) (upd : W -> F -> F) (m : Py W A) : Py F A :=
  fun s => let '(o, w) := m (proj s) in (o, upd w s).

(** Python's [xs[i:j]] for [0 <= i]. *)
Definition slice {A} (i j : Z) (xs : list A) : list A :=
  take (Z.to_nat (j - i)) (drop (Z.to_nat i) xs).

(** Python's [range(0, stop, step)] for [0 <= stop]: for a positive step the
    [ceil(stop / step)] numbers [0, step, 2 * step, ...], for a negative
    step nothing. A zero step raises [ValueError]. *)
Definition py_range {F} (stop step : Z) : Py F (list Z) :=
  if (step =? 0)%Z then raise ValueError
  else if (0 <? step)%Z then
    ret ((fun k => Z.of_nat k * step)%Z <$> seq 0 (Z.to_nat ((stop + step - 1) `div` step)))
  else ret [].

(** Python's [a // b]. *)
Definition floor_div {F} (a b : Z) : Py F Z :=
  if (b =? 0)%Z then raise ZeroDivisionError else ret (a `div` b)%Z.

(** Python's [xs[:k]] for an integer [k]. *)
Definition slice_to {A} (k : Z) (xs : list A) : list A :=
  if (0 <=? k)%Z then take (Z.to_nat k) xs
  else take (length xs - Z.to_nat (- k)) xs.

(** ** Data model *)

(** The record stored per unique identifier (extractors.py, lines 57-65). *)
Record TrackRecord := {
  track_uri : string;
  track_name : jval;
  artist_name : jval;
  artist_uri : jval;
  album_name : jval;
  album_uri : jval;
  duration_ms : jval
}.

(** The record stored per enriched identifier (spotify_client.py, lines
    117-130). *)
Record AudioFeatureRecord := {
  acousticness : jval;
  danceability : jval;
  energy : jval;
  instrumentalness : jval;
  liveness : jval;
  loudness : jval;
  speechiness : jval;
  tempo : jval;
  valence : jval;
  key : jval;
  mode : jval;
  time_signature : jval
}.

(** A dict that keeps insertion order, as Python's does. *)
Definition dict (V : Type) : Type := list (string * V).

Definition dict_keys {V} (d : dict V) : list string := d.*1.

Fixpoint dict_get {V} (k : string) (d : dict V) : option V :=
  match d with
  | [] => None
  | (k', v) :: d' => if decide (k' = k) then Some v else dict_get k d'
  end.

Definition dict_mem {V} (k : string) (d : dict V) : bool :=
  bool_decide (k ∈ dict_keys d).

(** [d[k] = v] for a key that is not in [d]: appended at the end. *)
Definition dict_add {V} (k : string) (v : V) (d : dict V) : dict V := d ++ [(k, v)].

(** ** The observable world: log lines, waits, requests, files written *)

Inductive level := DEBUG | INFO | SUCCESS | WARNING | ERROR.

Inductive document :=
| FeaturesDoc (features : gmap string (option AudioFeatureRecord))
| FailedDoc (failed_tracks : list string)
| TracksDoc (tracks : list TrackRecord) (frequencies : gmap string nat)
            (unique_tracks total_instances : nat).

(** What the program does to the outside: a log line, a wait, a call of
    [get_audio_features_batch] with the list it receives, the two calls to
    the remote service, a JSON document written to a file. *)
Inductive event :=
| Log (lvl : level) (msg : string) (values : list Q)
| Sleep (seconds : Q)
| Lookup (track_uris : list string)
| Search
| Request (track_ids : list string)
| JsonDump (filename : string) (doc : document).

(** [requests] counts the calls made to the remote service so far; the
    service may answer the same request differently each time. *)
Record world := {
  trace : list event;
  requests : nat
}.

Definition emit (ev : event) : Py world unit :=
  modify (fun w => {| trace := trace w ++ [ev]; requests := requests w |}).

(** A log line: the fixed text of the message and the numbers formatted
    into it. *)
Definition logging_with (lvl : level) (msg : string) (values : list Q) : Py world unit :=
  emit (Log lvl msg values).

Definition logging (lvl : level) (msg : string) : Py world unit := logging_with lvl msg [].

(** [time.sleep(secs)] raises [ValueError] on a negative length. *)
Definition time_sleep (secs : Q) : Py world unit :=
  if (Qnum secs <? 0)%Z then raise ValueError else emit (Sleep secs).

(** [os.makedirs(os.path.dirname(filename), exist_ok=True)]. The directory
    part of a name without a slash is the empty string, and [os.makedirs("")]
    raises [FileNotFoundError], an [OSError]. Apart from that the file system
    is taken to be willing: directories are there or are created, and files
    accept what is written to them. *)
Fixpoint has_slash (s : string) : bool :=
  match s with
  | EmptyString => false
  | String c s' => Ascii.eqb c "/"%char || has_slash s'
  end.

Definition makedirs_for (filename : string) : Py world unit :=
  if has_slash filename then ret tt else raise OSError.

(** [with open(filename, "w") as f: json.dump(doc, f, ...)]. *)
Definition json_dump (filename : string) (doc : document) : Py world unit :=
  emit (JsonDump filename doc).

(** * extractors.py *)
Module Extractors.

(** A track entry of a playlist: a dict of which any key may be missing. *)
Record track := {
  get_track_uri : option string;
  get_track_name : option jval;
  get_artist_name : option jval;
  get_artist_uri : option jval;
  get_album_name : option jval;
  get_album_uri : option jval;
  get_duration_ms : option jval
}.

(** A playlist: [playlist["tracks"]]. *)
Record playlist := { get_tracks : option (list track) }.

(** A slice file: [open] or [json.load] raises, or the document is loaded
    and [data["playlists"]] is looked up. *)
Inductive slice_file :=
| Unreadable (e : exn)
| Document (get_playlists : option (list playlist)).

Record frame := {
  unique_tracks : dict TrackRecord;
  track_frequency : gmap string nat;
  total_tracks_processed : nat;
  io : world
}.

Definition set_io (w : world) (s : frame) : frame :=
  {| unique_tracks := unique_tracks s; track_frequency := track_frequency s;
     total_tracks_processed := total_tracks_processed s; io := w |}.

(** What the frame holds apart from the log. *)
Definition data (s : frame) : dict TrackRecord * gmap string nat * nat :=
  (unique_tracks s, track_frequency s, total_tracks_processed s).

Definition same_data (s1 s2 : frame) : Prop := data s1 = data s2.

(** Lines 53-54: [track_frequency[track_uri] += 1; total_tracks_processed += 1]. *)
Definition tally (u : string) (s : frame) : frame :=
  {| unique_tracks := unique_tracks s;
     track_frequency := <[u := S (default 0 (track_frequency s !! u))]> (track_frequency s);
     total_tracks_processed := S (total_tracks_processed s);
     io := io s |}.

(** Line 57: [unique_tracks[track_uri] = {...}]. *)
Definition store (u : string) (r : TrackRecord) (s : frame) : frame :=
  {| unique_tracks := dict_add u r (unique_tracks s);
     track_frequency := track_frequency s;
     total_tracks_processed := total_tracks_processed s;
     io := io s |}.

(** Lines 52-65, the body of the inner loop. The record is built field by
    field, in the order of the dict display. *)
Definition scan_track (t : track) : Py frame unit :=
  u ← subscript (get_track_uri t);
  _ ← modify (tally u);
  s ← get;
  if dict_mem u (unique_tracks s) then mret tt
  else
    name ← subscript (get_track_name t);
    artist ← subscript (get_artist_name t);
    artist_id ← subscript (get_artist_uri t);
    album ← subscript (get_album_name t);
    album_id ← subscript (get_album_uri t);
    duration ← subscript (get_duration_ms t);
    modify (store u {| track_uri := u; track_name := name; artist_name := artist;
                       artist_uri := artist_id; album_name := album;
                       album_uri := album_id; duration_ms := duration |}).

(** Lines 50-51. *)
Definition scan_playlist (p : playlist) : Py frame unit :=
  ts ← subscript (get_tracks p);
  for_each scan_track ts.

(** Lines 47-48. *)
Definition json_load (f : slice_file) : Py frame (option (list playlist)) :=
  match f with
  | Unreadable e => raise e
  | Document ps => mret ps
  end.

(** Lines 47-65, the body of the try statement. *)
Definition scan_document (f : slice_file) : Py frame unit :=
  data ← json_load f;
  ps ← subscript data;
  for_each scan_playlist ps.

(** Lines 46-69, the body of the outer loop. *)
Definition scan_file (f : slice_file) : Py frame unit :=
  try_except (scan_document f)
    (fun e => call io set_io (logging ERROR "Error processing slice file")).

(** [if max_files:] is false for [None] and for [0]. *)
Definition capped (max_files : option Z) : bool :=
  match max_files with
  | Some k => negb (k =? 0)%Z
  | None => false
  end.

(** Lines 35-36: [slice_files = slice_files[:max_files]]. *)
Definition cap_files (max_files : option Z) (slice_files : list slice_file) : list slice_file :=
  if capped max_files then slice_to (default 0%Z max_files) slice_files else slice_files.

Definition init (w : world) : frame :=
  {| unique_tracks := []; track_frequency := ∅; total_tracks_processed := 0; io := w |}.

(** Lines 71-75: the summary lines; the average divides by
    [len(unique_tracks)]. *)
Definition log_summary : Py frame unit :=
  s ← get;
  let total := Z.of_nat (total_tracks_processed s) in
  let unique := Z.of_nat (length (unique_tracks s)) in
  _ ← call io set_io (logging_with INFO "Total track instances" [inject_Z total]);
  _ ← call io set_io (logging_with INFO "Unique tracks" [inject_Z unique]);
  if (unique =? 0)%Z then raise ZeroDivisionError
  else call io set_io (logging_with INFO "Average frequency"
                         [Qdiv (inject_Z total) (inject_Z unique)]).

(** [extract_unique_tracks_from_mpd(data_dir, max_files)], in the frame of
    the call. [data_dir] is the list of the files matching
    [mpd.slice.*.json], in sorted order. *)
Definition run_extraction (data_dir : list slice_file) (max_files : option Z)
  : Py frame (dict TrackRecord * gmap string nat) :=
  _ ← call io set_io (logging INFO "Extracting Track URIs from MPD Dataset");
  let slice_files := cap_files max_files data_dir in
  _ ← call io set_io (logging_with INFO (if capped max_files
                                         then "Processing first files for testing..."
                                         else "Processing all files...")
                        [inject_Z (Z.of_nat (length slice_files))]);
  _ ← for_each scan_file slice_files;
  _ ← log_summary;
  s ← get;
  mret (unique_tracks s, track_frequency s).

Definition extract_unique_tracks_from_mpd (data_dir : list slice_file) (max_files : option Z)
  : Py world (dict TrackRecord * gmap string nat) :=
  fun w => let '(o, s) := run_extraction data_dir max_files (init w) in (o, io s).

(** [sum(track_frequency.values())]. *)
Definition sum_values (frequency : gmap string nat) : nat :=
  map_fold (fun _ n acc => n + acc) 0 frequency.

(** Lines 80-100: [save_track_data]. *)
Definition save_track_data (unique : dict TrackRecord) (frequency : gmap string nat)
    (output_file : string) : Py world unit :=
  _ ← makedirs_for output_file;
  _ ← json_dump output_file
        (TracksDoc unique.*2 frequency (length unique) (sum_values frequency));
  logging_with SUCCESS "Saved unique tracks" [inject_Z (Z.of_nat (length unique))].

End Extractors.

(** * spotify_client.py *)
Module SpotifyClient.

(** What [self.sp.audio_features(track_ids)] does: it returns one slot per
    identifier, a dict of the track's features or [None], or it raises. *)
Inductive response :=
| Answer (features_list : list (option (gmap string jval)))
| Failure (e : exn).

(** What [self.sp.search(q="test", type="track", limit=1)] does:
    [Found b] tells whether [test_results["tracks"]["items"]] is non-empty. *)
Inductive search_response :=
| Found (items : bool)
| SearchFailure (e : exn).

(** The remote service behind [self.sp]; the first argument is the number of
    calls made before this one. *)
Record Spotify := {
  audio_features : nat -> list string -> response;
  search : nat -> search_response
}.

Record SpotifyAudioFeatureCollector := { sp : Spotify }.

Definition count_request (ev : event) (w : world) : world :=
  {| trace := trace w ++ [ev]; requests := S (requests w) |}.

Definition sp_audio_features (self : SpotifyAudioFeatureCollector) (track_ids : list string)
  : Py world (list (option (gmap string jval))) :=
  fun w =>
    match audio_features (sp self) (requests w) track_ids with
    | Answer features_list => (Done features_list, count_request (Request track_ids) w)
    | Failure e => (Raised e, count_request (Request track_ids) w)
    end.

Definition sp_search (self : SpotifyAudioFeatureCollector) : Py world bool :=
  fun w =>
    match search (sp self) (requests w) with
    | Found items => (Done items, count_request Search w)
    | SearchFailure e => (Raised e, count_request Search w)
    end.

(** [if features:] holds for a dict that is not empty. *)
Definition found (features : option (gmap string jval)) : option (gmap string jval) :=
  match features with
  | Some d => if decide (d = ∅) then None else Some d
  | None => None
  end.

(** [if not ok: raise Exception(...)]. *)
Definition check (ok : bool) : Py world unit :=
  if ok then ret tt else raise OtherError.

(** Lines 52-83: [_test_connection]. Both handlers log and re-raise. *)
Definition _test_connection (self : SpotifyAudioFeatureCollector) : Py world unit :=
  try_except
    (items ← sp_search self;
     _ ← check items;
     probe ← sp_audio_features self ["4uLU6hMCjMI75M1A2tKUQC"];
     _ ← check (match probe with
                | first :: _ => bool_decide (is_Some (found first))
                | [] => false
                end);
     logging INFO "API connection and audio features test passed")
    (fun e =>
       _ ← match e with
           | SpotifyError se =>
               if (http_status se =? 401)%Z then
                 logging ERROR "401 Unauthorized: Invalid Client ID or Client Secret"
               else if (http_status se =? 403)%Z then
                 _ ← logging ERROR "403 Forbidden: App may not have proper permissions";
                 logging ERROR "   Check your app settings in Spotify Developer Dashboard"
               else logging ERROR "Spotify API Error"
           | _ => logging ERROR "Connection test failed"
           end;
       raise e).

(** Lines 23-50: [__init__]. [service] is what the client built from the
    credentials reaches. *)
Definition __init__ (service : Spotify) (client_id client_secret : string)
  : Py world SpotifyAudioFeatureCollector :=
  try_except
    (_ ← (if bool_decide (client_id = "") || bool_decide (client_secret = "")
          then raise ValueError else ret tt);
     let self := {| sp := service |} in
     _ ← _test_connection self;
     _ ← logging SUCCESS "Spotify API client initialized successfully";
     mret self)
    (fun e => _ ← logging ERROR "Failed to initialize Spotify client"; raise e).

(** [s.split(":")], never empty. *)
Fixpoint split_colon (s : string) : list string :=
  match s with
  | EmptyString => [EmptyString]
  | String c s' =>
      if Ascii.eqb c ":"%char then EmptyString :: split_colon s'
      else match split_colon s' with
           | seg :: segs => String c seg :: segs
           | [] => [String c EmptyString]
           end
  end.

(** Lines 85-90. *)
Definition extract_track_id_from_uri (track_uri : string) : string :=
  if String.prefix "spotify:track:" track_uri
  then List.last (split_colon track_uri) EmptyString
  else track_uri.

(** Lines 117-130: the record read key by key from the service's dict;
    [None] stands for the [KeyError] of a missing key. *)
Definition translate (features : gmap string jval) : option AudioFeatureRecord :=
  v1 ← features !! "acousticness";
  v2 ← features !! "danceability";
  v3 ← features !! "energy";
  v4 ← features !! "instrumentalness";
  v5 ← features !! "liveness";
  v6 ← features !! "loudness";
  v7 ← features !! "speechiness";
  v8 ← features !! "tempo";
  v9 ← features !! "valence";
  v10 ← features !! "key";
  v11 ← features !! "mode";
  v12 ← features !! "time_signature";
  Some {| acousticness := v1; danceability := v2; energy := v3; instrumentalness := v4;
          liveness := v5; loudness := v6; speechiness := v7; tempo := v8; valence := v9;
          key := v10; mode := v11; time_signature := v12 |}.

(** Lines 112-134: the loop over [enumerate(features_list)], from index [i]
    on. [track_uris[i]] raises [IndexError] past the end of the list. *)
Fixpoint map_back (track_uris : list string) (i : nat)
    (features_list : list (option (gmap string jval)))
    (result : gmap string (option AudioFeatureRecord))
  : outcome (gmap string (option AudioFeatureRecord)) :=
  match features_list with
  | [] => Done result
  | features :: rest =>
      match track_uris !! i with
      | None => Raised IndexError
      | Some track_uri =>
          match found features with
          | Some d =>
              match translate d with
              | Some r => map_back track_uris (S i) rest (<[track_uri := Some r]> result)
              | None => Raised KeyError
              end
          | None => map_back track_uris (S i) rest (<[track_uri := None]> result)
          end
      end
  end.

Definition lift_outcome {F A} (o : outcome A) : Py F A :=
  match o with
  | Done a => ret a
  | Raised e => raise e
  end.

(** Line 138: [int(e.headers.get("Retry-After", 60))]. *)
Definition retry_after_of (e : SpotifyException) : Py world Z :=
  match headers e with
  | None => raise AttributeError
  | Some hs =>
      match default (Numeral 60) (hs !! "Retry-After") with
      | Numeral n => mret n
      | Text _ => raise ValueError
      end
  end.

(** Lines 136-147: the two [except] clauses of [get_audio_features_batch]. *)
Definition on_error (e : exn) : Py world (gmap string (option AudioFeatureRecord)) :=
  match e with
  | SpotifyError se =>
      if (http_status se =? 429)%Z then
        retry_after ← retry_after_of se;
        _ ← logging_with WARNING "Rate limited. Waiting" [inject_Z retry_after];
        _ ← time_sleep (inject_Z retry_after);
        mret ∅
      else
        _ ← logging_with ERROR "Spotify API error" [inject_Z (http_status se)];
        mret ∅
  | _ =>
      _ ← logging ERROR "Unexpected error getting audio features";
      mret ∅
  end.

(** Lines 92-147. The [Lookup] event marks the call itself. *)
Definition get_audio_features_batch (self : SpotifyAudioFeatureCollector)
    (track_uris : list string)
  : Py world (gmap string (option AudioFeatureRecord)) :=
  _ ← emit (Lookup track_uris);
  if decide (track_uris = []) then mret ∅
  else
    let track_uris := if decide (100 < length track_uris) then take 100 track_uris
                      else track_uris in
    let track_ids := extract_track_id_from_uri <$> track_uris in
    try_except
      (features_list ← sp_audio_features self track_ids;
       lift_outcome (map_back track_uris 0 features_list ∅))
      on_error.

(** Lines 230-237: a failed save is logged and otherwise ignored. *)
Definition save_features_to_file (features : gmap string (option AudioFeatureRecord))
    (filename : string) : Py world unit :=
  try_except
    (_ ← makedirs_for filename;
     json_dump filename (FeaturesDoc features))
    (fun e => logging ERROR "Failed to save features").

(** The locals of [collect_all_audio_features] that the loop mutates. *)
Record frame := {
  all_features : gmap string (option AudioFeatureRecord);
  failed_tracks : list string;
  successful_batches : nat;
  io : world
}.

Definition set_io (w : world) (s : frame) : frame :=
  {| all_features := all_features s; failed_tracks := failed_tracks s;
     successful_batches := successful_batches s; io := w |}.

Definition io_call {A} (m : Py world A) : Py frame A := call io set_io m.

Definition init (w : world) : frame :=
  {| all_features := ∅; failed_tracks := []; successful_batches := 0; io := w |}.

(** Lines 179-180: [all_features.update(batch_features); successful_batches += 1]. *)
Definition merge (batch_features : gmap string (option AudioFeatureRecord)) (s : frame) : frame :=
  {| all_features := batch_features ∪ all_features s; failed_tracks := failed_tracks s;
     successful_batches := S (successful_batches s); io := io s |}.

(** Lines 185, 188 and 206: [failed_tracks.append(uri)], [failed_tracks.extend(batch)]. *)
Definition fail (uris : list string) (s : frame) : frame :=
  {| all_features := all_features s; failed_tracks := failed_tracks s ++ uris;
     successful_batches := successful_batches s; io := io s |}.

(** Line 184, negated: [uri in batch_features and batch_features[uri] is not None]. *)
Definition populated (v : option (option AudioFeatureRecord)) : bool :=
  match v with
  | Some (Some _) => true
  | _ => false
  end.

(** Lines 198 and 213: [len([f for f in all_features.values() if f is not None])]. *)
Definition success_count (features : gmap string (option AudioFeatureRecord)) : nat :=
  length (omap id (map_to_list features).*2).

(** Lines 175-202, the body of the try statement of the loop. *)
Definition attempt_batch (self : SpotifyAudioFeatureCollector) (output_file : string)
    (delay : Q) (total_batches : Z) (batch : list string) (batch_num : Z) : Py frame unit :=
  batch_features ← io_call (get_audio_features_batch self batch);
  _ ← (if decide (batch_features ≠ ∅) then
         _ ← modify (merge batch_features);
         for_each (fun uri => if populated (batch_features !! uri) then ret tt
                              else modify (fail [uri])) batch
       else
         _ ← modify (fail batch);
         io_call (logging_with WARNING "Batch failed"
                    [inject_Z batch_num; inject_Z total_batches]));
  _ ← io_call (time_sleep delay);
  if (batch_num `mod` 10 =? 0)%Z then
    s ← get;
    _ ← io_call (save_features_to_file (all_features s) (output_file +:+ ".tmp"));
    io_call (logging_with INFO "Progress: features collected"
               [inject_Z (Z.of_nat (success_count (all_features s)));
                inject_Z batch_num; inject_Z total_batches])
  else ret tt.

(** Lines 204-207, its handler. *)
Definition abandon_batch (batch : list string) (batch_num : Z) (e : exn) : Py frame unit :=
  _ ← io_call (logging_with ERROR "Error processing batch" [inject_Z batch_num]);
  _ ← modify (fail batch);
  io_call (time_sleep (inject_Z 5)).

(** Lines 171-207, the body of the loop. *)
Definition process_batch (self : SpotifyAudioFeatureCollector) (track_uris : list string)
    (output_file : string) (batch_size : Z) (delay : Q) (total_batches : Z) (i : Z)
  : Py frame unit :=
  let batch := slice i (i + batch_size) track_uris in
  let batch_num := (i `div` batch_size + 1)%Z in
  try_except (attempt_batch self output_file delay total_batches batch batch_num)
             (abandon_batch batch batch_num).

(** Lines 209-228: the final save, the summary, the list of failures. *)
Definition finish_collection (track_uris : list string) (output_file : string)
    (total_batches : Z) : Py frame (gmap string (option AudioFeatureRecord)) :=
  let n := Z.of_nat (length track_uris) in
  s ← get;
  _ ← io_call (save_features_to_file (all_features s) output_file);
  let collected := Z.of_nat (success_count (all_features s)) in
  _ ← io_call (logging INFO "Final Collection Summary:");
  _ ← io_call (logging_with INFO "Total tracks requested" [inject_Z n]);
  _ ← io_call (logging_with INFO "Features collected" [inject_Z collected]);
  _ ← io_call (logging_with INFO "Failed/Missing"
                 [inject_Z (Z.of_nat (length (failed_tracks s)))]);
  _ ← (if (n =? 0)%Z then raise ZeroDivisionError
       else io_call (logging_with INFO "Success rate"
                       [Qmult (Qdiv (inject_Z collected) (inject_Z n)) (inject_Z 100)]));
  _ ← io_call (logging_with INFO "Successful batches"
                 [inject_Z (Z.of_nat (successful_batches s)); inject_Z total_batches]);
  _ ← (if decide (failed_tracks s = []) then ret tt
       else
         _ ← io_call (json_dump (output_file +:+ ".failed") (FailedDoc (failed_tracks s)));
         io_call (logging INFO "Failed tracks saved"));
  mret (all_features s).

(** Lines 158-228, in the frame of the call. *)
Definition run_collection (self : SpotifyAudioFeatureCollector) (track_uris : list string)
    (output_file : string) (batch_size : Z) (delay : Q)
  : Py frame (gmap string (option AudioFeatureRecord)) :=
  let n := Z.of_nat (length track_uris) in
  _ ← io_call (logging_with INFO "Collecting audio features for tracks" [inject_Z n]);
  _ ← io_call (logging_with INFO "Using batch size, delay" [inject_Z batch_size; delay]);
  total_batches ← floor_div (n + batch_size - 1) batch_size;
  starts ← py_range n batch_size;
  _ ← for_each (process_batch self track_uris output_file batch_size delay total_batches) starts;
  finish_collection track_uris output_file total_batches.

(** [collect_all_audio_features(self, track_uris, output_file, batch_size, delay)]. *)
Definition collect_all_audio_features (self : SpotifyAudioFeatureCollector)
    (track_uris : list string) (output_file : string) (batch_size : Z) (delay : Q)
  : Py world (gmap string (option AudioFeatureRecord)) :=
  fun w =>
    let '(o, s) := run_collection self track_uris output_file batch_size delay (init w) in
    (o, io s).

End SpotifyClient.

(** * enrich_dataset.py *)
Module EnrichDataset.

(** The process environment after [load_dotenv()]. *)
Record environ := {
  SPOTIFY_CLIENT_ID : option string;
  SPOTIFY_CLIENT_SECRET : option string
}.

(** The truth value of [os.getenv(...)]: set, and not the empty string. *)
Definition truthy (v : option string) : bool :=
  match v with
  | Some s => negb (bool_decide (s = ""))
  | None => false
  end.

Definition MAX_FILES : option Z := Some 5%Z.
Definition INTERIM_DIR : string := "data/interim".

(** Lines 53-64, the body of the try statement: the client is built and the
    collection run over all extracted identifiers. *)
Definition enrichment_stage (service : SpotifyClient.Spotify) (client_id client_secret : string)
    (unique_tracks : dict TrackRecord) : Py world unit :=
  collector ← SpotifyClient.__init__ service client_id client_secret;
  let track_uris := dict_keys unique_tracks in
  audio_features ← SpotifyClient.collect_all_audio_features collector track_uris
                     (INTERIM_DIR +:+ "/audio_features.json") 100 (1 # 10);
  _ ← logging_with DEBUG "Collected audio features for tracks"
        [inject_Z (Z.of_nat (size audio_features))];
  logging SUCCESS "Audio feature collection complete!".

(** Lines 42-72: [if client_id and client_secret:] with its try statement,
    and the branch that skips the stage. *)
Definition enrich (env : environ) (service : SpotifyClient.Spotify)
    (unique_tracks : dict TrackRecord) : Py world unit :=
  let client_id := SPOTIFY_CLIENT_ID env in
  let client_secret := SPOTIFY_CLIENT_SECRET env in
  if truthy client_id && truthy client_secret then
    _ ← logging INFO "Step 2: Collecting audio features from Spotify...";
    try_except
      (enrichment_stage service (default "" client_id) (default "" client_secret)
         unique_tracks)
      (fun e => logging ERROR "Audio feature collection failed")
  else
    _ ← logging WARNING "Spotify credentials not found.";
    _ ← logging INFO "Set SPOTIFY_CLIENT_ID and SPOTIFY_CLIENT_SECRET in .env file";
    logging INFO "Audio feature collection skipped.".

(** [main()]. [data_raw] is the content of [data/raw]; [os.makedirs] of
    [data/interim] is taken to succeed. *)
Definition main (data_raw : list Extractors.slice_file) (env : environ)
    (service : SpotifyClient.Spotify) : Py world unit :=
  _ ← logging INFO "Starting MPD Dataset Enrichment Pipeline";
  _ ← logging INFO "============================================================";
  _ ← logging INFO "Step 1: Extracting unique tracks from MPD...";
  extracted ← Extractors.extract_unique_tracks_from_mpd data_raw MAX_FILES;
  let '(unique_tracks, track_frequency) := extracted in
  _ ← Extractors.save_track_data unique_tracks track_frequency
        (INTERIM_DIR +:+ "/unique_tracks.json");
  _ ← logging DEBUG "Client ID loaded";
  _ ← logging DEBUG "Client Secret loaded";
  _ ← enrich env service unique_tracks;
  logging SUCCESS "Dataset enrichment pipeline complete!".

End EnrichDataset.

(** * logging_manager.py *)
Module LoggingManager.

(** loguru's severity numbers of the levels in use. *)
Definition severity (lvl : level) : Z :=
  match lvl with
  | DEBUG => 10
  | INFO => 20
  | SUCCESS => 25
  | WARNING => 30
  | ERROR => 40
  end.

Inductive sink :=
| Stderr
| LogFile (path : string).

(** [logger.add(sink, level=...)]: a handler takes the records at or above
    its level. *)
Record handler := {
  target : sink;
  minimum : level
}.

(** A record as a sink receives it. *)
Record line := {
  receiver : sink;
  line_level : level;
  message : string
}.

(** What the module reads and writes of the interpreter: the handlers of
    loguru's logger (one list, shared by [logger] and the loggers bound from
    it), the records the sinks have received, the class attributes
    [_instance] and [_initialized], the attributes [file_logger] and
    [log_file] of the one instance. *)
Record runtime := {
  handlers : list handler;
  received : list line;
  _instance : bool;
  _initialized : bool;
  file_logger : bool;
  log_file : option string
}.

(** What a construction finds outside: whether [logs/general] can be made,
    whether the log file can be opened, and the time stamp and process id
    that go into its name. *)
Record process := {
  makedirs_ok : bool;
  open_ok : bool;
  stamp : string
}.

Definition set_handlers (hs : list handler) (r : runtime) : runtime :=
  {| handlers := hs; received := received r; _instance := _instance r;
     _initialized := _initialized r; file_logger := file_logger r; log_file := log_file r |}.

Definition set_received (ls : list line) (r : runtime) : runtime :=
  {| handlers := handlers r; received := ls; _instance := _instance r;
     _initialized := _initialized r; file_logger := file_logger r; log_file := log_file r |}.

Definition set_instance (r : runtime) : runtime :=
  {| handlers := handlers r; received := received r; _instance := true;
     _initialized := _initialized r; file_logger := file_logger r; log_file := log_file r |}.

Definition set_initialized (r : runtime) : runtime :=
  {| handlers := handlers r; received := received r; _instance := _instance r;
     _initialized := true; file_logger := file_logger r; log_file := log_file r |}.

Definition set_file_logger (r : runtime) : runtime :=
  {| handlers := handlers r; received := received r; _instance := _instance r;
     _initialized := _initialized r; file_logger := true; log_file := log_file r |}.

Definition set_log_file (f : string) (r : runtime) : runtime :=
  {| handlers := handlers r; received := received r; _instance := _instance r;
     _initialized := _initialized r; file_logger := file_logger r; log_file := Some f |}.

(** [logger.remove()]: all handlers go. *)
Definition logger_remove : Py runtime unit := modify (set_handlers []).

(** [logger.add(...)]. *)
Definition logger_add (h : handler) : Py runtime unit :=
  modify (fun r => set_handlers (handlers r ++ [h]) r).

(** A record is handed to every handler whose level it reaches. *)
Definition takes (lvl : level) (h : handler) : bool :=
  (severity (minimum h) <=? severity lvl)%Z.

Definition emit_record (lvl : level) (msg : string) : Py runtime unit :=
  modify (fun r =>
    set_received (received r ++
                  ((fun h => {| receiver := target h; line_level := lvl; message := msg |})
                   <$> filter (fun h => takes lvl h = true) (handlers r))) r).

(** [self.file_logger.<level>(msg)]: the attribute must be there. *)
Definition file_logger_log (lvl : level) (msg : string) : Py runtime unit :=
  r ← get;
  if file_logger r then emit_record lvl msg else raise AttributeError.

(** Lines 15-19: [__new__]. *)
Definition __new__ : Py runtime unit := modify set_instance.

(** Lines 36-45: the name of the log file. *)
Definition log_filename (p : process) : string :=
  "logs/general/general_" +:+ stamp p +:+ ".log".

(** Lines 21-69: [__init__]. *)
Definition __init__ (p : process) : Py runtime unit :=
  r ← get;
  if _initialized r then ret tt
  else
    _ ← logger_remove;
    _ ← logger_add {| target := Stderr; minimum := INFO |};
    _ ← (if makedirs_ok p then ret tt else raise OSError);
    _ ← modify set_file_logger;
    _ ← (if open_ok p
         then logger_add {| target := LogFile (log_filename p); minimum := DEBUG |}
         else raise OSError);
    _ ← modify (set_log_file (log_filename p));
    _ ← file_logger_log INFO "General logger initialized";
    _ ← file_logger_log INFO ("Logging to file: " +:+ log_filename p);
    modify set_initialized.

(** [GeneralLogger()]: [__new__], then [__init__] on what it returns. *)
Definition GeneralLogger (p : process) : Py runtime unit :=
  _ ← __new__;
  __init__ p.

(** Lines 119-121: [get_logger()], the value bound to [logger] in
    [logging.py]; it reads the attribute [file_logger] of the instance. *)
Definition get_logger : Py runtime unit :=
  r ← get;
  if file_logger r then ret tt else raise AttributeError.

Definition newline : string := String (ascii_of_nat 10) EmptyString.

(** [c * n]. *)
Fixpoint times (c : ascii) (n : nat) : string :=
  match n with
  | 0 => EmptyString
  | S n' => String c (times c n')
  end.

Section Structured.
(** The objects handed to [json.dumps], their truth value, and what
    [json.dumps(x, indent=2)] makes of them: a text, or an exception. *)
Context {Any : Type} (bool_of : Any -> bool) (json_dumps : Any -> outcome string).

Definition dumps (x : Any) : Py runtime string :=
  fun r => (json_dumps x, r).

Definition header (title : string) : string :=
  newline +:+ times "=" 80 +:+ newline +:+ title +:+ newline +:+ times "=" 80 +:+ newline.

(** Lines 71-104: [log_structured_data]. The text of the exception, which
    [exn] does not carry, is left out of the message of the handler. *)
Definition log_structured_data (title : string) (data : Any) (metadata : option Any)
  : Py runtime unit :=
  try_except
    (let output_str := header title in
     output_str ← match metadata with
                  | Some m =>
                      if bool_of m then
                        text ← dumps m;
                        ret (output_str +:+ "Metadata:" +:+ newline +:+ text +:+ newline
                             +:+ times "-" 80 +:+ newline)
                      else ret output_str
                  | None => ret output_str
                  end;
     text ← dumps data;
     file_logger_log DEBUG (output_str +:+ "Data:" +:+ newline +:+ text +:+ newline
                            +:+ times "=" 80 +:+ newline))
    (fun e => _ ← file_logger_log ERROR "Failed to log structured data"; raise e).

(** Lines 125-127: [log_data(data, title, metadata)]. *)
Definition log_data (data : Any) (title : string) (metadata : option Any) : Py runtime unit :=
  log_structured_data title data metadata.

End Structured.

(** The interpreter before the module is imported: loguru's own handler on
    the console, at its default level. *)
Definition fresh : runtime :=
  {| handlers := [{| target := Stderr; minimum := DEBUG |}]; received := [];
     _instance := false; _initialized := false; file_logger := false; log_file := None |}.

End LoggingManager.

(** * The corpus as the specification sees it *)
Module Corpus.
Import Extractors.

(** The record that lines 57-65 build from an entry, when every key is
    there. *)
Definition record_of (t : track) : option TrackRecord :=
  u ← get_track_uri t;
  name ← get_track_name t;
  artist ← get_artist_name t;
  artist_id ← get_artist_uri t;
  album ← get_album_name t;
  album_id ← get_album_uri t;
  duration ← get_duration_ms t;
  Some {| track_uri := u; track_name := name; artist_name := artist;
          artist_uri := artist_id; album_name := album;
          album_uri := album_id; duration_ms := duration |}.

(** A track entry that exposes all seven fields. *)
Definition complete (t : track) : bool := bool_decide (is_Some (record_of t)).

(** Every track entry of a file, in document order. *)
Definition entries (f : slice_file) : list track :=
  match f with
  | Document (Some ps) => concat (omap get_tracks ps)
  | _ => []
  end.

(** The identifier values of a list of entries. *)
Definition identifiers (ts : list track) : list string := omap get_track_uri ts.

(** A well-formed file: a document with a list of playlists, each with a
    list of complete track entries. *)
Definition well_formed (f : slice_file) : bool :=
  match f with
  | Document (Some ps) =>
      forallb (fun p => match get_tracks p with
                        | Some ts => forallb complete ts
                        | None => false
                        end) ps
  | _ => false
  end.

(** The playlists fault before a single track entry has been tallied: ahead
    of every entry with an identifier there is a playlist without tracks or
    an entry without identifier. *)
Fixpoint faults_untallied (ps : list playlist) : bool :=
  match ps with
  | [] => false
  | p :: ps' =>
      match get_tracks p with
      | None => true
      | Some [] => faults_untallied ps'
      | Some (t :: _) => bool_decide (get_track_uri t = None)
      end
  end.

(** A file that fails before any of its entries is tallied: it cannot be
    read or decoded, it has no list of playlists, or its playlists fault
    at once. *)
Definition fails_untallied (f : slice_file) : bool :=
  match f with
  | Unreadable _ => true
  | Document None => true
  | Document (Some ps) => faults_untallied ps
  end.

(** The entries of the well-formed files among [fs]. *)
Definition parsed_entries (fs : list slice_file) : list track :=
  concat (entries <$> filter (fun f => well_formed f = true) fs).

(** The first entry that carries the identifier [u]. *)
Fixpoint first_occurrence (u : string) (ts : list track) : option track :=
  match ts with
  | [] => None
  | t :: ts' => if decide (get_track_uri t = Some u) then Some t else first_occurrence u ts'
  end.

(** How many entries carry the identifier [u]. *)
Definition occurrences (u : string) (ts : list track) : nat :=
  length (filter (fun t => get_track_uri t = Some u) ts).

(** The frame holds exactly what the complete entries [ts] contribute: one
    record per identifier, taken from its first occurrence, and one count
    per occurrence. *)
Record mirrors (ts : list track) (s : frame) : Prop := {
  mirrors_complete : Forall (fun t => complete t = true) ts;
  mirrors_keys : NoDup (dict_keys (unique_tracks s));
  mirrors_record : forall u,
    dict_get u (unique_tracks s) = first_occurrence u ts ≫= record_of;
  mirrors_count : forall u, default 0 (track_frequency s !! u) = occurrences u ts;
  mirrors_sum : sum_values (track_frequency s) = length ts;
  mirrors_total : total_tracks_processed s = length ts
}.

(** Lines 71-77 as a function of the frame the loop leaves: the average
    raises on an empty mapping, otherwise the pair is returned. *)
Definition result_of (s : frame) : outcome (dict TrackRecord * gmap string nat) :=
  if decide (length (unique_tracks s) = 0) then Raised ZeroDivisionError
  else Done (unique_tracks s, track_frequency s).

End Corpus.

(** * What a run shows to the outside *)
Module Observed.
Import SpotifyClient.

(** The calls of [get_audio_features_batch], with the list each received. *)
Definition lookups (tr : list event) : list (list string) :=
  omap (fun ev => match ev with Lookup uris => Some uris | _ => None end) tr.

(** The requests sent to the service, with the identifiers of each. *)
Definition requested (tr : list event) : list (list string) :=
  omap (fun ev => match ev with Request ids => Some ids | _ => None end) tr.

(** The waits, in seconds. *)
Definition sleeps (tr : list event) : list Q :=
  omap (fun ev => match ev with Sleep secs => Some secs | _ => None end) tr.

(** The JSON documents written, with their file names. *)
Definition dumps (tr : list event) : list (string * document) :=
  omap (fun ev => match ev with JsonDump f d => Some (f, d) | _ => None end) tr.

(** The events of the enrichment stage: lookups, calls to the service,
    waits, feature maps and failure lists written. *)
Definition is_enrichment (ev : event) : bool :=
  match ev with
  | Log _ _ _ => false
  | JsonDump _ (TracksDoc _ _ _ _) => false
  | _ => true
  end.

Definition enrichment_events (tr : list event) : list event :=
  filter (fun ev => is_enrichment ev = true) tr.

Definition extend (evs : list event) (w : world) : world :=
  {| trace := trace w ++ evs; requests := requests w |}.

(** What [save_features_to_file] leaves in the trace. *)
Definition save_event (features : gmap string (option AudioFeatureRecord))
    (filename : string) : event :=
  if has_slash filename then JsonDump filename (FeaturesDoc features)
  else Log ERROR "Failed to save features" [].

(** The feature file that a save leaves behind, if any. *)
Definition saved (features : gmap string (option AudioFeatureRecord))
    (filename : string) : list (string * document) :=
  if has_slash filename then [(filename, FeaturesDoc features)] else [].

(** Events that are neither a lookup, nor a request, nor a file written:
    what the error handlers emit. *)
Definition quiet (evs : list event) : Prop :=
  lookups evs = [] /\ requested evs = [] /\ dumps evs = [].

(** The [k]-th contiguous slice of [b] elements. *)
Definition chunk {A} (b : nat) (xs : list A) (k : nat) : list A := take b (drop (k * b) xs).

(** The first [n] start indices of [range(0, len(track_uris), b)]. *)
Definition starts (b n : nat) : list Z :=
  (fun k => Z.of_nat k * Z.of_nat b)%Z <$> seq 0 n.

(** [ceil(n / b)]. *)
Definition ceil_div (n b : nat) : nat := (n + b - 1) / b.



(** No colon in the text. *)
Fixpoint colon_free (s : string) : bool :=
  match s with
  | EmptyString => true
  | String c s' => negb (Ascii.eqb c ":"%char) && colon_free s'
  end.


(** A slot the translation accepts: no features, or all twelve fields. *)
Definition slot_ok (features : option (gmap string jval)) : bool :=
  match found features with
  | Some d => bool_decide (is_Some (translate d))
  | None => true
  end.

(** The locals of the orchestrator: feature map, failure list, count of
    successful batches. *)
Definition locals (s : frame)
  : gmap string (option AudioFeatureRecord) * list string * nat :=
  (all_features s, failed_tracks s, successful_batches s).

(** What one iteration does to the locals, given how the lookup of the
    batch ended and whether the pacing delay is negative. *)
Definition step_locals (o : outcome (gmap string (option AudioFeatureRecord)))
    (negative_delay : bool) (batch : list string)
    (l : gmap string (option AudioFeatureRecord) * list string * nat)
  : gmap string (option AudioFeatureRecord) * list string * nat :=
  let '(features, failed, successful) := l in
  let again := if negative_delay then batch else [] in
  match o with
  | Done batch_features =>
      if decide (batch_features ≠ ∅) then
        (batch_features ∪ features,
         (failed ++ filter (fun uri => populated (batch_features !! uri) = false) batch) ++ again,
         S successful)
      else (features, (failed ++ batch) ++ again, successful)
  | Raised _ => (features, failed ++ batch, successful)
  end.



End Observed.

(** * Sample inputs *)
Module Samples.
Import Extractors.

Definition w0 : world := {| trace := []; requests := 0 |}.

(** A complete track entry. *)
Definition entry (u name : string) : track :=
  {| get_track_uri := Some u; get_track_name := Some (JStr name);
     get_artist_name := Some (JStr "Artist"); get_artist_uri := Some (JStr "spotify:artist:1");
     get_album_name := Some (JStr "Album"); get_album_uri := Some (JStr "spotify:album:1");
     get_duration_ms := Some (JInt 200000) |}.

(** A track entry without its display name. *)
Definition nameless (u : string) : track :=
  {| get_track_uri := Some u; get_track_name := None;
     get_artist_name := Some (JStr "Artist"); get_artist_uri := Some (JStr "spotify:artist:1");
     get_album_name := Some (JStr "Album"); get_album_uri := Some (JStr "spotify:album:1");
     get_duration_ms := Some (JInt 200000) |}.

Definition tracks (ts : list track) : playlist := {| get_tracks := Some ts |}.

(** Two good files around one that cannot be decoded. *)
Definition mixed_dir : list slice_file :=
  [ Document (Some [tracks [entry "A" "first"; entry "B" "b"]; tracks [entry "A" "again"]]);
    Unreadable JSONDecodeError;
    Document (Some [tracks [entry "C" "c"; entry "A" "last"]]) ].

(** A file whose second entry lacks its display name. *)
Definition broken_file : slice_file :=
  Document (Some [tracks [entry "A" "a"; nameless "B"; entry "C" "c"]]).

Definition good_file : slice_file := Document (Some [tracks [entry "D" "d"]]).

(** The identifier [A] occurs first without a display name, then with one. *)
Definition late_dir : list slice_file :=
  [ Document (Some [tracks [nameless "A"]]);
    Document (Some [tracks [entry "A" "second"]]) ].

(** The feature object of the service for one track. *)
Definition sample_features : gmap string jval :=
  list_to_map
    [ ("acousticness", JFloat 11 (-2)); ("danceability", JFloat 7 (-1));
      ("energy", JFloat 8 (-1)); ("instrumentalness", JInt 0);
      ("liveness", JFloat 1 (-1)); ("loudness", JFloat (-55) (-1));
      ("speechiness", JFloat 4 (-2)); ("tempo", JFloat 1200 (-1));
      ("valence", JFloat 9 (-1)); ("key", JInt 5); ("mode", JInt 1);
      ("time_signature", JInt 4); ("type", JStr "audio_features") ].

(** A service that knows every track but the one called [unknown]. *)
Definition catalog : SpotifyClient.Spotify :=
  {| SpotifyClient.audio_features := fun _ ids =>
       SpotifyClient.Answer
         ((fun id => if bool_decide (id = "unknown") then None else Some sample_features) <$> ids);
     SpotifyClient.search := fun _ => SpotifyClient.Found true |}.


(** A service that answers 429 with [Retry-After: 7]. *)
Definition busy : SpotifyClient.Spotify :=
  {| SpotifyClient.audio_features := fun _ _ =>
       SpotifyClient.Failure
         (SpotifyError {| http_status := 429;
                          headers := Some {[ "Retry-After" := Numeral 7 ]} |});
     SpotifyClient.search := fun _ => SpotifyClient.Found true |}.

(** A service that answers 429 with the date form of Retry-After. *)
Definition dated : SpotifyClient.Spotify :=
  {| SpotifyClient.audio_features := fun _ _ =>
       SpotifyClient.Failure
         (SpotifyError {| http_status := 429;
                          headers := Some {[ "Retry-After" :=
                                               Text "Wed, 21 Oct 2015 07:28:00 GMT" ]} |});
     SpotifyClient.search := fun _ => SpotifyClient.Found true |}.

(** A service that serves its first request and is rate limited afterwards. *)
Definition flaky : SpotifyClient.Spotify :=
  {| SpotifyClient.audio_features := fun n ids =>
       match n with
       | 0 => SpotifyClient.Answer ((fun _ => Some sample_features) <$> ids)
       | _ => SpotifyClient.Failure
                (SpotifyError {| http_status := 429;
                                 headers := Some {[ "Retry-After" := Numeral 1 ]} |})
       end;
     SpotifyClient.search := fun _ => SpotifyClient.Found true |}.

(** The credentials, present and absent. *)
Definition with_credentials : EnrichDataset.environ :=
  {| EnrichDataset.SPOTIFY_CLIENT_ID := Some "id";
     EnrichDataset.SPOTIFY_CLIENT_SECRET := Some "secret" |}.

Definition without_secret : EnrichDataset.environ :=
  {| EnrichDataset.SPOTIFY_CLIENT_ID := Some "id";
     EnrichDataset.SPOTIFY_CLIENT_SECRET := None |}.

(** A service that refuses the credentials. *)
Definition unauthorized : SpotifyClient.Spotify :=
  {| SpotifyClient.audio_features := fun _ _ =>
       SpotifyClient.Failure (SpotifyError {| http_status := 401; headers := Some ∅ |});
     SpotifyClient.search := fun _ =>
       SpotifyClient.SearchFailure (SpotifyError {| http_status := 401; headers := Some ∅ |}) |}.

End Samples.

(** * What the further properties speak of *)

Module Ledger.
Import Extractors Corpus.

(** What the three accumulators of the scan satisfy at every point of every
    scan, whatever the files hold. *)
Record consistent (s : frame) : Prop := {
  consistent_keys : NoDup (dict_keys (unique_tracks s));
  consistent_uri : forall u r, dict_get u (unique_tracks s) = Some r -> track_uri r = u;
  consistent_counted : forall u, u ∈ dict_keys (unique_tracks s) ->
                                 is_Some (track_frequency s !! u);
  consistent_positive : forall u n, track_frequency s !! u = Some n -> 0 < n;
  consistent_sum : sum_values (track_frequency s) = total_tracks_processed s
}.

(** The distinct values of a list, each at the place of its first occurrence. *)
Fixpoint first_seen (us : list string) : list string :=
  match us with
  | [] => []
  | u :: us' => u :: filter (fun v => v ≠ u) (first_seen us')
  end.

(** The identifier has a record. *)
Definition recorded (u : string) (s : frame) : Prop := is_Some (dict_get u (unique_tracks s)).

(** The keys in the order of insertion follow the order in which the
    identifiers are first met. *)
Definition in_order (ts : list track) (s : frame) : Prop :=
  dict_keys (unique_tracks s) = first_seen (identifiers ts).

End Ledger.

Module Logs.

(** A log line, as opposed to a wait, a request or a file written. *)
Definition is_log (ev : event) : bool :=
  match ev with
  | Log _ _ _ => true
  | _ => false
  end.

End Logs.

Module Probe.
Import SpotifyClient.

(** The track that [_test_connection] asks about (line 62). *)
Definition test_track_id : string := "4uLU6hMCjMI75M1A2tKUQC".

(** The service passes the connection test made as its [n]-th and
    [n+1]-st call: the search finds an item, and the features of the test
    track come back as a dict that is not empty. *)
Definition passes (service : Spotify) (n : nat) : bool :=
  match search service n with
  | Found true =>
      match audio_features service (S n) [test_track_id] with
      | Answer (first :: _) => bool_decide (is_Some (found first))
      | _ => false
      end
  | _ => false
  end.

End Probe.

Module Accounting.
Import SpotifyClient.

(** An identifier is accounted for: it has a populated record, or it is on
    the failure list. *)
Definition accounted (features : gmap string (option AudioFeatureRecord))
    (failed : list string) (uri : string) : Prop :=
  populated (features !! uri) = true \/ uri ∈ failed.

(** Nothing but the identifiers processed so far is in the feature map or
    on the failure list, and each of them is accounted for. *)
Definition covered (processed : list string)
    (l : gmap string (option AudioFeatureRecord) * list string * nat) : Prop :=
  (forall u, is_Some (l.1.1 !! u) -> u ∈ processed) /\
  (forall u, u ∈ l.1.2 -> u ∈ processed) /\
  (forall u, u ∈ processed -> accounted l.1.1 l.1.2 u).

(** A checkpoint: the feature map written to the temporary file. *)
Definition checkpoint (out : string) (d : string * document) : Prop :=
  exists features, d = (out +:+ ".tmp", FeaturesDoc features).

End Accounting.

Module LoggerShape.
Import LoggingManager.

(** The two handlers that lines 28-60 install. *)
Definition console : handler := {| target := Stderr; minimum := INFO |}.
Definition logfile (p : process) : handler :=
  {| target := LogFile (log_filename p); minimum := DEBUG |}.

(** The records of a message at a level, as the two handlers of a
    constructed logger pass them on. *)
Definition routed (p : process) (lvl : level) (msg : string) : list line :=
  (if (severity INFO <=? severity lvl)%Z
   then [{| receiver := Stderr; line_level := lvl; message := msg |}] else [])
  ++ [{| receiver := LogFile (log_filename p); line_level := lvl; message := msg |}].

(** The runtime a first construction leaves. *)
Definition constructed (p : process) (r0 : runtime) : runtime :=
  {| handlers := [console; logfile p];
     received := received r0 ++ routed p INFO "General logger initialized"
                 ++ routed p INFO ("Logging to file: " +:+ log_filename p);
     _instance := true; _initialized := true; file_logger := true;
     log_file := Some (log_filename p) |}.

End LoggerShape.

(** * Further sample inputs *)

Module MoreSamples.

(** The record stored for [Samples.entry u name]. *)
Definition stored (u name : string) : TrackRecord :=
  {| track_uri := u; track_name := JStr name; artist_name := JStr "Artist";
     artist_uri := JStr "spotify:artist:1"; album_name := JStr "Album";
     album_uri := JStr "spotify:album:1"; duration_ms := JInt 200000 |}.

(** A service whose answer has a complete feature object for the first
    track and one with a single field for the others. *)
Definition partial : SpotifyClient.Spotify :=
  {| SpotifyClient.audio_features := fun _ ids =>
       SpotifyClient.Answer
         (match ids with
          | [] => []
          | _ :: rest => Some Samples.sample_features
                         :: ((fun _ => Some {[ "tempo" := JInt 120 ]}) <$> rest)
          end);
     SpotifyClient.search := fun _ => SpotifyClient.Found true |}.

End MoreSamples.

Module LoggerSamples.
Import LoggingManager.

(** A process that can make its directory and open its file. *)
Definition willing : process :=
  {| makedirs_ok := true; open_ok := true; stamp := "20240101_120000_4242" |}.

(** One under which the directory cannot be made. *)
Definition read_only : process :=
  {| makedirs_ok := false; open_ok := true; stamp := "20240101_120001_4242" |}.

(** Two objects to log: a text, and a list that holds itself, on which
    [json.dumps] raises [ValueError] (circular reference). *)
Inductive pyobject :=
| PyStr (s : string)
| PyCycle.

Definition truth (x : pyobject) : bool :=
  match x with
  | PyStr s => negb (bool_decide (s = ""))
  | PyCycle => true
  end.

Definition double_quote : string := String (ascii_of_nat 34) EmptyString.

(** [json.dumps] on them (a text without characters to escape). *)
Definition render (x : pyobject) : outcome string :=
  match x with
  | PyStr s => Done (double_quote +:+ s +:+ double_quote)
  | PyCycle => Raised ValueError
  end.

End LoggerSamples.

(** * Properties *)

(** ** Loops and frames *)

Section Loops.
Context {F A : Type}.
Implicit Types (body : A -> Py F unit) (xs : list A) (s : F).

Lemma run_bind {B C} (m : Py F B) (k : B -> Py F C) s :
  (m ≫= k) s =
  match m s with
  | (Done a, s') => k a s'
  | (Raised e, s') => (Raised e, s')
  end.
Proof. reflexivity. Qed.

Lemma for_each_cons body x xs s :
  for_each body (x :: xs) s =
  match body x s with
  | (Done _, s') => for_each body xs s'
  | (Raised e, s') => (Raised e, s')
  end.
Proof. reflexivity. Qed.

Lemma for_each_app body xs ys s :
  for_each body (xs ++ ys) s =
  match for_each body xs s with
  | (Done _, s') => for_each body ys s'
  | (Raised e, s') => (Raised e, s')
  end.
Proof.
  revert s. induction xs as [|x xs IH]; intros s; [done|].
  rewrite <- app_comm_cons, !for_each_cons.
  destruct (body x s) as [[[]|e] s']; [apply IH | done].
Qed.

(** A property of the frame that every iteration keeps is kept by the
    loop, however it ends. *)
Lemma for_each_preserves (P : F -> Prop) body xs s :
  (forall x s, P s -> P (body x s).2) -> P s -> P (for_each body xs s).2.
Proof.
  intros Hbody. revert s. induction xs as [|x xs IH]; intros s Hs; [done|].
  rewrite for_each_cons. specialize (Hbody x s Hs).
  destruct (body x s) as [[[]|e] s']; [by apply IH | done].
Qed.

(** Two runs of a loop from related frames end alike when every
    iteration does. *)
Lemma for_each_related (R : F -> F -> Prop) body xs s1 s2 :
  (forall x s1 s2, R s1 s2 ->
     (body x s1).1 = (body x s2).1 /\ R (body x s1).2 (body x s2).2) ->
  R s1 s2 ->
  (for_each body xs s1).1 = (for_each body xs s2).1 /\
  R (for_each body xs s1).2 (for_each body xs s2).2.
Proof.
  intros Hbody. revert s1 s2. induction xs as [|x xs IH]; intros s1 s2 HR; [done|].
  rewrite !for_each_cons. destruct (Hbody x s1 s2 HR) as [Ho HR'].
  destruct (body x s1) as [[[]|e1] s1'], (body x s2) as [[[]|e2] s2'];
    simpl in *; try discriminate; [by apply IH | by split].
Qed.

(** A loop whose iterations never raise runs to its end. *)
Lemma for_each_total body xs s :
  (forall x s, (body x s).1 = Done tt) -> (for_each body xs s).1 = Done tt.
Proof.
  intros Hbody. revert s. induction xs as [|x xs IH]; intros s; [done|].
  rewrite for_each_cons. specialize (Hbody x s).
  destruct (body x s) as [[[]|e] s']; [apply IH | done].
Qed.
End Loops.

(** ** Insertion-ordered dicts *)

Section Dicts.
Context {V : Type}.
Implicit Types (d : dict V) (k : string) (v : V).

Lemma dict_get_app k d1 d2 :
  dict_get k (d1 ++ d2) =
  match dict_get k d1 with Some v => Some v | None => dict_get k d2 end.
Proof.
  induction d1 as [|[k' v'] d1 IH]; simpl; [done|]. by case_decide.
Qed.

Lemma dict_get_None k d : dict_get k d = None <-> k ∉ dict_keys d.
Proof.
  unfold dict_keys. induction d as [|[k' v'] d IH]; simpl.
  - split; [intros _; apply not_elem_of_nil | done].
  - rewrite not_elem_of_cons. case_decide as Hk; subst.
    + split; [done | by intros [? _]].
    + rewrite IH. split; [by intros ?; split; [congruence|] | by intros [_ ?]].
Qed.

Lemma dict_mem_get k d : dict_mem k d = bool_decide (is_Some (dict_get k d)).
Proof.
  unfold dict_mem. apply bool_decide_ext.
  destruct (dict_get k d) as [v|] eqn:E.
  - split; [eauto|]. intros _. destruct (decide (k ∈ dict_keys d)) as [|Hn]; [done|].
    apply dict_get_None in Hn. congruence.
  - apply dict_get_None in E. split; [done|]. by intros [? [=]].
Qed.

Lemma dict_get_add k k' v d :
  dict_get k (dict_add k' v d) =
  match dict_get k d with
  | Some v' => Some v'
  | None => if decide (k' = k) then Some v else None
  end.
Proof. unfold dict_add. rewrite dict_get_app. simpl. by destruct (dict_get k d). Qed.

Lemma dict_keys_add k v d : dict_keys (dict_add k v d) = dict_keys d ++ [k].
Proof. unfold dict_keys, dict_add. by rewrite fmap_app. Qed.

Lemma dict_keys_length d : length (dict_keys d) = length d.
Proof. unfold dict_keys. by rewrite length_fmap. Qed.
End Dicts.

(** ** extractors.py: one entry, one playlist, one file *)

Module ExtractorsFacts.
Import Extractors Corpus.

(** The body of the inner loop in closed form. *)
Lemma scan_track_unfold (t : track) (s : frame) :
  scan_track t s =
  match get_track_uri t with
  | None => (Raised KeyError, s)
  | Some u =>
      if dict_mem u (unique_tracks s) then (Done tt, tally u s)
      else match record_of t with
           | Some r => (Done tt, store u r (tally u s))
           | None => (Raised KeyError, tally u s)
           end
  end.
Proof.
  unfold scan_track, record_of.
  destruct t as [[u|] name artist artist_id album album_id duration]; simpl; [|done].
  unfold mbind, Py_bind, bind, modify, get; simpl.
  destruct (dict_mem u (unique_tracks s)); [done|].
  destruct name, artist, artist_id, album, album_id, duration; done.
Qed.

Lemma same_data_set_io w s : same_data s (set_io w s).
Proof. done. Qed.

Lemma same_data_tally u s1 s2 : same_data s1 s2 -> same_data (tally u s1) (tally u s2).
Proof. unfold same_data, data. simpl. intros [= -> -> ->]. done. Qed.

Lemma same_data_store u r s1 s2 : same_data s1 s2 -> same_data (store u r s1) (store u r s2).
Proof. unfold same_data, data. simpl. intros [= -> -> ->]. done. Qed.

Lemma scan_track_same_data t s1 s2 :
  same_data s1 s2 ->
  (scan_track t s1).1 = (scan_track t s2).1 /\
  same_data (scan_track t s1).2 (scan_track t s2).2.
Proof.
  intros H. rewrite !scan_track_unfold.
  destruct (get_track_uri t) as [u|]; [|done].
  assert (unique_tracks s1 = unique_tracks s2) as -> by (by injection H).
  destruct (dict_mem u (unique_tracks s2)); simpl; [by auto using same_data_tally|].
  destruct (record_of t); simpl; auto using same_data_tally, same_data_store.
Qed.

Lemma scan_playlist_same_data p s1 s2 :
  same_data s1 s2 ->
  (scan_playlist p s1).1 = (scan_playlist p s2).1 /\
  same_data (scan_playlist p s1).2 (scan_playlist p s2).2.
Proof.
  intros H. unfold scan_playlist. destruct (get_tracks p) as [ts|]; simpl; [|done].
  apply (for_each_related same_data); [apply scan_track_same_data | done].
Qed.

Lemma scan_document_same_data f s1 s2 :
  same_data s1 s2 ->
  (scan_document f s1).1 = (scan_document f s2).1 /\
  same_data (scan_document f s1).2 (scan_document f s2).2.
Proof.
  intros H. unfold scan_document. destruct f as [e|[ps|]]; simpl; [done| |done].
  apply (for_each_related same_data); [apply scan_playlist_same_data | done].
Qed.

Lemma scan_file_unfold f s :
  scan_file f s =
  match scan_document f s with
  | (Done _, s') => (Done tt, s')
  | (Raised e, s') =>
      (Done tt, set_io {| trace := trace (io s') ++ [Log ERROR "Error processing slice file" []];
                          requests := requests (io s') |} s')
  end.
Proof.
  unfold scan_file, try_except.
  destruct (scan_document f s) as [[[]|e] s']; done.
Qed.

(** The try statement catches whatever a file raises: the outer loop goes on. *)
Lemma scan_file_returns f s : (scan_file f s).1 = Done tt.
Proof. rewrite scan_file_unfold. by destruct (scan_document f s) as [[[]|e] s']. Qed.

Lemma scan_file_same_data f s1 s2 :
  same_data s1 s2 -> same_data (scan_file f s1).2 (scan_file f s2).2.
Proof.
  intros H. rewrite !scan_file_unfold.
  destruct (scan_document_same_data f s1 s2 H) as [Ho HR].
  destruct (scan_document f s1) as [[[]|e1] s1'], (scan_document f s2) as [[[]|e2] s2'];
    simpl in *; try discriminate; done.
Qed.

(** A failure is logged. *)
Lemma scan_file_logs f s e s' :
  scan_document f s = (Raised e, s') ->
  trace (io (scan_file f s).2) = trace (io s') ++ [Log ERROR "Error processing slice file" []].
Proof. intros H. rewrite scan_file_unfold, H. done. Qed.

End ExtractorsFacts.

(** ** extractors.py: what a scan accumulates *)

Module ExtractorsScan.
Import Extractors Corpus ExtractorsFacts.

Lemma sum_values_tally (m : gmap string nat) (u : string) :
  sum_values (<[u := S (default 0 (m !! u))]> m) = S (sum_values m).
Proof.
  unfold sum_values.
  assert (Hcomm : forall (m' : gmap string nat) (j1 j2 : string) (z1 z2 y : nat),
             j1 ≠ j2 -> m' !! j1 = Some z1 -> m' !! j2 = Some z2 ->
             z1 + (z2 + y) = z2 + (z1 + y)) by (intros; lia).
  destruct (m !! u) as [n|] eqn:E; simpl.
  - rewrite <- insert_delete_eq.
    rewrite map_fold_insert_L; [|by eauto|by rewrite lookup_delete_eq].
    rewrite (map_fold_delete_L _ _ u n m); [lia|by eauto|done].
  - rewrite map_fold_insert_L; [done|by eauto|done].
Qed.

Lemma first_occurrence_app u ts1 ts2 :
  first_occurrence u (ts1 ++ ts2) =
  match first_occurrence u ts1 with Some t => Some t | None => first_occurrence u ts2 end.
Proof. induction ts1 as [|t ts1 IH]; simpl; [done|]. by case_decide. Qed.

Lemma first_occurrence_Some u ts t :
  first_occurrence u ts = Some t -> t ∈ ts /\ get_track_uri t = Some u.
Proof.
  induction ts as [|t' ts IH]; simpl; [done|]. case_decide as Hu.
  - intros [= ->]. split; [left | done].
  - intros H. destruct (IH H). split; [by right | done].
Qed.

Lemma first_occurrence_None u ts : first_occurrence u ts = None <-> u ∉ identifiers ts.
Proof.
  unfold identifiers. induction ts as [|t ts IH]; simpl.
  - split; [intros _; apply not_elem_of_nil | done].
  - case_decide as Hu.
    + rewrite Hu. split; [done|]. intros Hn. exfalso. apply Hn. left.
    + destruct (get_track_uri t) as [u'|]; [|done].
      rewrite not_elem_of_cons, IH. split; [|by intros [_ ?]].
      intros ?. split; [congruence | done].
Qed.

Lemma occurrences_app u ts1 ts2 :
  occurrences u (ts1 ++ ts2) = occurrences u ts1 + occurrences u ts2.
Proof. unfold occurrences. by rewrite filter_app, length_app. Qed.

Lemma complete_record t : complete t = true -> exists r, record_of t = Some r.
Proof. unfold complete. intros H. by apply bool_decide_eq_true in H as [r ?]; exists r. Qed.

Lemma record_of_uri t r : record_of t = Some r -> get_track_uri t = Some (track_uri r).
Proof.
  unfold record_of.
  destruct t as [[u|] [?|] [?|] [?|] [?|] [?|] [?|]]; simpl; intros [= <-]; done.
Qed.

Lemma mirrors_same_data ts s1 s2 : same_data s1 s2 -> mirrors ts s1 -> mirrors ts s2.
Proof.
  unfold same_data, data. intros [= Hu Hf Ht] [].
  split; rewrite <- ?Hu, <- ?Hf, <- ?Ht; done.
Qed.

Lemma mirrors_init w : mirrors [] (init w).
Proof.
  split; simpl; try done; constructor.
Qed.

(** One complete entry: it is tallied, and recorded if its identifier is new. *)
Lemma scan_track_complete t ts s :
  complete t = true -> mirrors ts s ->
  exists s', scan_track t s = (Done tt, s') /\ mirrors (ts ++ [t]) s' /\ io s' = io s.
Proof.
  intros Ht [Hc Hk Hr Hn Hs Htot].
  destruct (complete_record t Ht) as [r Hrec].
  pose proof (record_of_uri t r Hrec) as Huri.
  set (u := track_uri r) in *.
  assert (Hcount : forall u', default 0 (track_frequency (tally u s) !! u')
                              = occurrences u' (ts ++ [t])).
  { intros u'. rewrite occurrences_app. simpl. unfold occurrences at 2.
    rewrite filter_cons, filter_nil. destruct (decide (u = u')) as [<-|Hne].
    - rewrite lookup_insert_eq. simpl. rewrite Hn.
      rewrite decide_True by done. simpl. lia.
    - rewrite lookup_insert_ne by done. rewrite Hn.
      rewrite decide_False by congruence. simpl. lia. }
  assert (Hsum : sum_values (track_frequency (tally u s)) = length (ts ++ [t])).
  { simpl. rewrite sum_values_tally, Hs, length_app. simpl. lia. }
  assert (Htotal : total_tracks_processed (tally u s) = length (ts ++ [t])).
  { simpl. rewrite Htot, length_app. simpl. lia. }
  assert (Hcomplete : Forall (fun t => complete t = true) (ts ++ [t])).
  { apply Forall_app. split; [done | by constructor]. }
  rewrite scan_track_unfold, Huri, dict_mem_get.
  destruct (dict_get u (unique_tracks s)) as [r0|] eqn:Hget.
  - rewrite bool_decide_eq_true_2 by eauto.
    exists (tally u s). split; [done|]. split; [|done].
    split; try done. intros u'. simpl. rewrite first_occurrence_app, Hr.
    destruct (first_occurrence u' ts) as [t0|] eqn:Hfo; [done|]. simpl.
    case_decide as Hu'; [|done].
    assert (u' = u) as -> by congruence. rewrite Hr, Hfo in Hget. done.
  - rewrite bool_decide_eq_false_2 by (by intros [? [=]]). rewrite Hrec.
    exists (store u r (tally u s)). split; [done|]. split; [|done].
    split; try done.
    + simpl. rewrite dict_keys_add. apply NoDup_app. split; [done|].
      split; [|apply NoDup_singleton].
      intros x Hx ->%list_elem_of_singleton. by apply dict_get_None in Hget.
    + intros u'. simpl. rewrite dict_get_add, first_occurrence_app, Hr.
      destruct (first_occurrence u' ts) as [t0|] eqn:Hfo; simpl.
      * apply first_occurrence_Some in Hfo as [Hin _].
        rewrite Forall_forall in Hc. destruct (complete_record t0 (Hc _ Hin)) as [r0 ->]. done.
      * repeat case_decide; simpl; rewrite ?Hrec; try done; subst u; congruence.
Qed.

Lemma scan_tracks_complete ts' ts s :
  Forall (fun t => complete t = true) ts' -> mirrors ts s ->
  exists s', for_each scan_track ts' s = (Done tt, s') /\ mirrors (ts ++ ts') s' /\ io s' = io s.
Proof.
  intros H. revert ts s. induction H as [|t ts' Ht _ IH]; intros ts s Hm.
  - exists s. rewrite app_nil_r. done.
  - destruct (scan_track_complete t ts s Ht Hm) as (s1 & E1 & Hm1 & Hio1).
    destruct (IH _ _ Hm1) as (s2 & E2 & Hm2 & Hio2).
    exists s2. rewrite for_each_cons, E1, E2, <- app_assoc in *. split; [done|].
    split; [done | congruence].
Qed.

Lemma scan_playlists_complete ps ts s :
  forallb (fun p => match get_tracks p with
                    | Some ts => forallb complete ts
                    | None => false
                    end) ps = true ->
  mirrors ts s ->
  exists s', for_each scan_playlist ps s = (Done tt, s') /\
             mirrors (ts ++ concat (omap get_tracks ps)) s' /\ io s' = io s.
Proof.
  revert ts s. induction ps as [|p ps IH]; intros ts s Hps Hm.
  - exists s. simpl. by rewrite app_nil_r.
  - simpl in Hps. apply andb_prop in Hps as [Hp Hps].
    destruct (get_tracks p) as [ts'|] eqn:Hp'; [|done].
    assert (Forall (fun t => complete t = true) ts') as Hts'.
    { apply Forall_forall. intros t Ht. rewrite forallb_forall in Hp.
      apply Hp. by apply list_elem_of_In. }
    destruct (scan_tracks_complete ts' ts s Hts' Hm) as (s1 & E1 & Hm1 & Hio1).
    destruct (IH _ _ Hps Hm1) as (s2 & E2 & Hm2 & Hio2).
    exists s2. rewrite for_each_cons. unfold scan_playlist at 1. rewrite Hp'.
    unfold mbind, Py_bind, bind, subscript, ret. rewrite E1, E2.
    simpl. rewrite Hp'. simpl. rewrite app_assoc.
    split; [done|]. split; [done | congruence].
Qed.

(** A well-formed file is scanned to its end, without a fault. *)
Lemma scan_file_well_formed f ts s :
  well_formed f = true -> mirrors ts s ->
  exists s', scan_file f s = (Done tt, s') /\ mirrors (ts ++ entries f) s' /\ io s' = io s.
Proof.
  intros Hf Hm. destruct f as [e|[ps|]]; simpl in Hf; try done.
  destruct (scan_playlists_complete ps ts s Hf Hm) as (s' & E & Hm' & Hio).
  exists s'. rewrite scan_file_unfold. unfold scan_document. simpl.
  unfold mbind, Py_bind, bind, mret, Py_ret, ret. simpl. rewrite E. done.
Qed.

Lemma scan_playlists_fault ps s :
  faults_untallied ps = true -> exists e, for_each scan_playlist ps s = (Raised e, s).
Proof.
  induction ps as [|p ps IH]; [done|]. rewrite for_each_cons.
  unfold scan_playlist at 1. cbn [faults_untallied].
  destruct (get_tracks p) as [[|t ts]|].
  - intros H. apply IH in H as [e He]. exists e. done.
  - intros H%bool_decide_eq_true. exists KeyError.
    unfold mbind, Py_bind, bind, subscript, ret.
    rewrite for_each_cons, scan_track_unfold, H. done.
  - intros _. by exists KeyError.
Qed.

(** A file that fails before any entry is tallied leaves the frame as it
    found it. *)
Lemma scan_document_fails_untallied f s :
  fails_untallied f = true -> exists e, scan_document f s = (Raised e, s).
Proof.
  destruct f as [e|[ps|]]; simpl; intros H.
  - by exists e.
  - destruct (scan_playlists_fault ps s H) as [e He]. exists e.
    unfold scan_document, mbind, Py_bind, bind. simpl. by rewrite He.
  - by exists KeyError.
Qed.

Lemma scan_file_fails_untallied f s :
  fails_untallied f = true -> same_data s (scan_file f s).2.
Proof.
  intros H. destruct (scan_document_fails_untallied f s H) as [e He].
  rewrite scan_file_unfold, He. done.
Qed.

Lemma fails_untallied_not_well_formed f : fails_untallied f = true -> well_formed f = false.
Proof.
  destruct f as [e|[ps|]]; simpl; try done.
  induction ps as [|p ps IH]; simpl; [done|].
  destruct (get_tracks p) as [[|t ts]|]; simpl; try done.
  intros H%bool_decide_eq_true. unfold complete, record_of. rewrite H. done.
Qed.

Lemma parsed_entries_cons f fs :
  parsed_entries (f :: fs) =
  if well_formed f then entries f ++ parsed_entries fs else parsed_entries fs.
Proof.
  unfold parsed_entries. rewrite filter_cons.
  destruct (well_formed f); [rewrite decide_True by done | rewrite decide_False by done]; done.
Qed.

(** The outer loop over files that are well-formed or fail at once. *)
Lemma scan_files_mirrors fs ts s :
  Forall (fun f => well_formed f = true \/ fails_untallied f = true) fs ->
  mirrors ts s ->
  (for_each scan_file fs s).1 = Done tt /\
  mirrors (ts ++ parsed_entries fs) (for_each scan_file fs s).2.
Proof.
  intros H. revert ts s. induction H as [|f fs Hf _ IH]; intros ts s Hm.
  - simpl. unfold parsed_entries. simpl. by rewrite app_nil_r.
  - rewrite for_each_cons, parsed_entries_cons. destruct Hf as [Hf|Hf].
    + destruct (scan_file_well_formed f ts s Hf Hm) as (s' & E & Hm' & _).
      rewrite E, Hf, app_assoc. by apply IH.
    + pose proof (scan_file_returns f s) as Hret.
      pose proof (scan_file_fails_untallied f s Hf) as Hsame.
      rewrite (fails_untallied_not_well_formed f Hf).
      destruct (scan_file f s) as [[[]|e] s']; [|done]. simpl in *.
      apply IH. by eapply mirrors_same_data.
Qed.

(** Files that fail before any entry is tallied may as well be absent. *)
Lemma scan_files_skip fs s1 s2 :
  same_data s1 s2 ->
  same_data (for_each scan_file fs s1).2
            (for_each scan_file (filter (fun f => fails_untallied f = false) fs) s2).2.
Proof.
  revert s1 s2. induction fs as [|f fs IH]; intros s1 s2 H; [done|].
  rewrite filter_cons, for_each_cons.
  pose proof (scan_file_returns f s1) as Hret1.
  destruct (fails_untallied f) eqn:Hf.
  - rewrite decide_False by done.
    pose proof (scan_file_fails_untallied f s1 Hf) as Hsame.
    destruct (scan_file f s1) as [[[]|e] s1']; [|done]. simpl in *.
    apply IH. unfold same_data in *. congruence.
  - rewrite decide_True by done. rewrite for_each_cons.
    pose proof (scan_file_returns f s2) as Hret2.
    pose proof (scan_file_same_data f s1 s2 H) as Hsame.
    destruct (scan_file f s1) as [[[]|e1] s1'], (scan_file f s2) as [[[]|e2] s2']; try done.
    by apply IH.
Qed.

Lemma scan_files_returns fs s : (for_each scan_file fs s).1 = Done tt.
Proof. apply for_each_total. apply scan_file_returns. Qed.

Lemma result_of_same_data s1 s2 : same_data s1 s2 -> result_of s1 = result_of s2.
Proof. unfold same_data, data, result_of. by intros [= -> -> _]. Qed.

Lemma scan_logging_run lvl msg values (s : frame) :
  call io set_io (logging_with lvl msg values) s =
  (Done tt, set_io {| trace := trace (io s) ++ [Log lvl msg values];
                      requests := requests (io s) |} s).
Proof. done. Qed.

Lemma log_summary_run s :
  (log_summary s).1 = (if decide (length (unique_tracks s) = 0)
                       then Raised ZeroDivisionError else Done tt) /\
  same_data s (log_summary s).2.
Proof.
  unfold log_summary, mbind, Py_bind, bind, get, call, logging_with, emit, modify.
  cbv beta iota zeta.
  destruct (length (unique_tracks s)) eqn:Hlen; simpl; done.
Qed.

Lemma scan_and_return fs s1 s :
  same_data s1 s ->
  exists s', same_data s' (for_each scan_file fs s).2 /\
    ((_ ← for_each scan_file fs; _ ← log_summary; s ← get;
      mret (unique_tracks s, track_frequency s)) s1).1 = result_of s'.
Proof.
  intros H1. rewrite run_bind.
  pose proof (scan_files_returns fs s1) as Hret.
  pose proof (for_each_related same_data scan_file fs s1 s
                (fun f a b Hab => conj (eq_trans (scan_file_returns f a)
                                          (eq_sym (scan_file_returns f b)))
                                       (scan_file_same_data f a b Hab)) H1) as [_ Hsame].
  destruct (for_each scan_file fs s1) as [[[]|e] s2]; [|done].
  simpl in Hsame. rewrite run_bind.
  destruct (log_summary_run s2) as [Ho Hd].
  destruct (log_summary s2) as [o s3]. simpl in Ho, Hd. subst o.
  exists s3. split; [unfold same_data in *; congruence|].
  unfold result_of.
  assert (unique_tracks s2 = unique_tracks s3) as -> by (by injection Hd).
  destruct (decide (length (unique_tracks s3) = 0)); done.
Qed.

(** What the function returns is read off the frame the loop leaves. *)
Lemma run_extraction_result data_dir max_files s :
  exists s', same_data s' (for_each scan_file (cap_files max_files data_dir) s).2 /\
             (run_extraction data_dir max_files s).1 = result_of s'.
Proof.
  unfold run_extraction, logging. rewrite run_bind, scan_logging_run.
  cbv zeta. rewrite run_bind, scan_logging_run.
  by apply scan_and_return.
Qed.

Lemma extract_result data_dir max_files w :
  (extract_unique_tracks_from_mpd data_dir max_files w).1 =
  result_of (for_each scan_file (cap_files max_files data_dir) (init w)).2.
Proof.
  unfold extract_unique_tracks_from_mpd.
  destruct (run_extraction_result data_dir max_files (init w)) as (s' & Hsame & Hres).
  destruct (run_extraction data_dir max_files (init w)) as [o s1]. simpl in *.
  rewrite Hres. by apply result_of_same_data.
Qed.

End ExtractorsScan.

(** ** extractors.py: the claims *)

Module ExtractorsClaims.
Import Extractors Corpus ExtractorsFacts ExtractorsScan Samples.

Lemma mirrors_identifiers ts s u :
  mirrors ts s -> u ∈ dict_keys (unique_tracks s) <-> u ∈ identifiers ts.
Proof.
  intros [Hc _ Hr _ _ _].
  destruct (first_occurrence u ts) as [t|] eqn:Hfo.
  - pose proof Hfo as Hfo'. apply first_occurrence_Some in Hfo' as [Hin _].
    rewrite Forall_forall in Hc. destruct (complete_record t (Hc _ Hin)) as [r Hrec].
    split; intros _.
    + destruct (decide (u ∈ identifiers ts)) as [|Hn]; [done|].
      apply first_occurrence_None in Hn. congruence.
    + destruct (decide (u ∈ dict_keys (unique_tracks s))) as [|Hn]; [done|].
      apply dict_get_None in Hn. rewrite Hr, Hfo in Hn. simpl in Hn. congruence.
  - pose proof Hfo as Hn. apply first_occurrence_None in Hn.
    split; [|done]. intros Hin. exfalso.
    assert (dict_get u (unique_tracks s) = None) as Hg by (by rewrite Hr, Hfo).
    by apply dict_get_None in Hg.
Qed.

Lemma mirrors_size ts s :
  mirrors ts s ->
  length (unique_tracks s) = size (list_to_set (identifiers ts) : gset string).
Proof.
  intros Hm. rewrite <- dict_keys_length.
  rewrite <- (size_list_to_set (C:=gset string)) by apply Hm.
  f_equal. apply set_eq. intros u. rewrite !elem_of_list_to_set.
  by apply mirrors_identifiers.
Qed.

Lemma mirrors_nonempty ts s : mirrors ts s -> ts ≠ [] -> length (unique_tracks s) ≠ 0.
Proof.
  intros Hm Hts Hlen. destruct ts as [|t ts]; [done|].
  pose proof (mirrors_complete _ _ Hm) as Hc. apply Forall_cons in Hc as [Ht _].
  destruct (complete_record t Ht) as [r Hrec].
  pose proof (record_of_uri t r Hrec) as Huri.
  assert (track_uri r ∈ dict_keys (unique_tracks s)) as Hin.
  { apply (mirrors_identifiers _ _ _ Hm). unfold identifiers. simpl. rewrite Huri. left. }
  apply length_zero_iff_nil in Hlen. rewrite Hlen in Hin. by apply elem_of_nil in Hin.
Qed.

(** Extraction over files that are well-formed or fail at once returns what
    the well-formed files hold. *)
Lemma extract_mirrors data_dir max_files w :
  Forall (fun f => well_formed f = true \/ fails_untallied f = true)
         (cap_files max_files data_dir) ->
  parsed_entries (cap_files max_files data_dir) ≠ [] ->
  exists s, mirrors (parsed_entries (cap_files max_files data_dir)) s /\
    (extract_unique_tracks_from_mpd data_dir max_files w).1
    = Done (unique_tracks s, track_frequency s).
Proof.
  intros Hfs Hne.
  destruct (scan_files_mirrors _ [] (init w) Hfs (mirrors_init w)) as [_ Hm].
  simpl in Hm. eexists. split; [exact Hm|].
  rewrite extract_result. unfold result_of.
  rewrite decide_False; [done|]. by eapply mirrors_nonempty.
Qed.

(** C7 (amended). When every scanned file is well-formed or fails before any
    of its entries is tallied, and the well-formed files hold at least one
    entry, [extract_unique_tracks_from_mpd] returns a mapping without
    repeated keys whose size is the number of distinct identifiers among the
    entries of the well-formed files, and a frequency table whose counts sum
    to the number of those entries. *)
Theorem extraction_counts data_dir max_files w :
  Forall (fun f => well_formed f = true \/ fails_untallied f = true)
         (cap_files max_files data_dir) ->
  parsed_entries (cap_files max_files data_dir) ≠ [] ->
  exists unique frequency,
    (extract_unique_tracks_from_mpd data_dir max_files w).1 = Done (unique, frequency) /\
    NoDup (dict_keys unique) /\
    length unique
    = size (list_to_set (identifiers (parsed_entries (cap_files max_files data_dir)))
              : gset string) /\
    sum_values frequency = length (parsed_entries (cap_files max_files data_dir)).
Proof.
  intros Hfs Hne. destruct (extract_mirrors data_dir max_files w Hfs Hne) as (s & Hm & E).
  exists (unique_tracks s), (track_frequency s). split; [done|].
  split; [apply Hm|]. split; [by apply mirrors_size | apply Hm].
Qed.

Lemma extraction_counts_witness :
  exists unique frequency,
    (extract_unique_tracks_from_mpd mixed_dir None w0).1 = Done (unique, frequency) /\
    NoDup (dict_keys unique) /\
    length unique = 3 /\ sum_values frequency = 5.
Proof.
  destruct (extraction_counts mixed_dir None w0) as (unique & frequency & E & Hk & Hl & Hs).
  - apply Forall_cons_2; [left; reflexivity|].
    apply Forall_cons_2; [right; reflexivity|].
    apply Forall_cons_2; [left; reflexivity|]. apply Forall_nil_2.
  - vm_compute. discriminate.
  - exists unique, frequency. split; [exact E|]. split; [exact Hk|].
    split; [rewrite Hl; vm_compute; reflexivity | rewrite Hs; reflexivity].
Defined.

(** C7, as stated, fails on a file with a fault halfway: the entries ahead
    of the fault are kept, whether or not the file counts as parsed. *)
Lemma extraction_counts_fail :
  exists unique frequency,
    (extract_unique_tracks_from_mpd [broken_file] None w0).1 = Done (unique, frequency) /\
    length unique = 1 /\ sum_values frequency = 2 /\
    size (list_to_set (identifiers (entries broken_file)) : gset string) = 3 /\
    length (entries broken_file) = 3 /\
    well_formed broken_file = false.
Proof.
  eexists _, _. split; [vm_compute; reflexivity|]. vm_compute. done.
Qed.

(** On a corpus without any entry (no file, or only files that are
    well-formed and empty or fail at once) nothing is returned: the average
    frequency divides by zero. *)
Lemma extraction_without_entries_raises data_dir max_files w :
  Forall (fun f => well_formed f = true \/ fails_untallied f = true)
         (cap_files max_files data_dir) ->
  parsed_entries (cap_files max_files data_dir) = [] ->
  (extract_unique_tracks_from_mpd data_dir max_files w).1 = Raised ZeroDivisionError.
Proof.
  intros Hfs He.
  destruct (scan_files_mirrors _ [] (init w) Hfs (mirrors_init w)) as [_ Hm].
  rewrite He in Hm. simpl in Hm.
  rewrite extract_result. unfold result_of. rewrite decide_True; [done|].
  destruct (unique_tracks _) as [|[u r] d] eqn:Hu; [done|]. exfalso.
  pose proof (mirrors_record _ _ Hm u) as Hr. rewrite Hu in Hr. simpl in Hr.
  by rewrite decide_True in Hr by done.
Qed.

Example empty_directory_raises :
  (extract_unique_tracks_from_mpd [] None w0).1 = Raised ZeroDivisionError.
Proof. reflexivity. Qed.


(** C8 (amended). No file aborts the scan: a fault inside a file is caught and
    logged, and the loop goes on with the next file. A file that fails
    before any of its entries is tallied (it cannot be read or decoded, has
    no list of playlists, or faults ahead of its first identifier) leaves no
    mark: what is returned is what the other files alone give. *)
Theorem extraction_skips_failed_files data_dir max_files w :
  (forall f s, (scan_file f s).1 = Done tt) /\
  (forall f s,
     scan_file f s =
     match scan_document f s with
     | (Done _, s') => (Done tt, s')
     | (Raised e, s') =>
         (Done tt, set_io {| trace := trace (io s') ++ [Log ERROR "Error processing slice file" []];
                             requests := requests (io s') |} s')
     end) /\
  (extract_unique_tracks_from_mpd data_dir max_files w).1 =
  (extract_unique_tracks_from_mpd
     (filter (fun f => fails_untallied f = false) (cap_files max_files data_dir)) None w).1.
Proof.
  split; [apply scan_file_returns|]. split; [apply scan_file_unfold|].
  rewrite !extract_result. apply result_of_same_data.
  by apply scan_files_skip.
Qed.

(** C8, as stated, fails on a file with a fault halfway: the fault is
    logged and the scan goes on, but the entries tallied ahead of the fault
    stay in the result, which is not that of the well-formed file alone. *)
Lemma extraction_keeps_partial_file :
  well_formed good_file = true /\
  well_formed broken_file = false /\
  (scan_document broken_file (init w0)).1 = Raised KeyError /\
  (extract_unique_tracks_from_mpd [good_file; broken_file] None w0).1 ≠
  (extract_unique_tracks_from_mpd [good_file] None w0).1.
Proof.
  split; [reflexivity|]. split; [reflexivity|]. split; [reflexivity|].
  vm_compute. discriminate.
Qed.

Lemma scan_track_keeps u r t s :
  dict_get u (unique_tracks s) = Some r ->
  dict_get u (unique_tracks (scan_track t s).2) = Some r.
Proof.
  intros H. rewrite scan_track_unfold.
  destruct (get_track_uri t) as [u'|]; [|done].
  destruct (dict_mem u' (unique_tracks s)); [done|].
  destruct (record_of t) as [r'|]; [|done].
  simpl. by rewrite dict_get_add, H.
Qed.

Lemma scan_file_keeps u r f s :
  dict_get u (unique_tracks s) = Some r ->
  dict_get u (unique_tracks (scan_file f s).2) = Some r.
Proof.
  intros H. rewrite scan_file_unfold.
  assert (dict_get u (unique_tracks (scan_document f s).2) = Some r) as Hd.
  { unfold scan_document. destruct f as [e|[ps|]]; try done.
    change ((json_load (Document (Some ps)) ≫= λ data, subscript data ≫= for_each scan_playlist) s)
      with (for_each scan_playlist ps s).
    apply (for_each_preserves (fun s => dict_get u (unique_tracks s) = Some r)); [|done].
    intros p s0 H0. unfold scan_playlist. destruct (get_tracks p) as [ts|]; [|done].
    change ((subscript (Some ts) ≫= for_each scan_track) s0) with (for_each scan_track ts s0).
    apply (for_each_preserves (fun s => dict_get u (unique_tracks s) = Some r)); [|done].
    intros t s1. apply scan_track_keeps. }
  destruct (scan_document f s) as [[[]|e] s']; done.
Qed.

(** C10 (amended). When every scanned file is well-formed or fails before
    any of its entries is tallied, the record returned under an identifier
    is built from the first entry that carries it, and its count is the
    number of entries that carry it. In any scan, an entry whose identifier
    already has a record only adds to the counts, and no file changes a
    record that is stored. *)
Theorem first_occurrence_kept data_dir max_files w u :
  Forall (fun f => well_formed f = true \/ fails_untallied f = true)
         (cap_files max_files data_dir) ->
  parsed_entries (cap_files max_files data_dir) ≠ [] ->
  (exists unique frequency,
     (extract_unique_tracks_from_mpd data_dir max_files w).1 = Done (unique, frequency) /\
     dict_get u unique
     = first_occurrence u (parsed_entries (cap_files max_files data_dir)) ≫= record_of /\
     default 0 (frequency !! u)
     = occurrences u (parsed_entries (cap_files max_files data_dir))) /\
  (forall t s r, dict_get u (unique_tracks s) = Some r -> get_track_uri t = Some u ->
     scan_track t s = (Done tt, tally u s)) /\
  (forall fs s r, dict_get u (unique_tracks s) = Some r ->
     dict_get u (unique_tracks (for_each scan_file fs s).2) = Some r).
Proof.
  intros Hfs Hne. split; [|split].
  - destruct (extract_mirrors data_dir max_files w Hfs Hne) as (s & Hm & E).
    exists (unique_tracks s), (track_frequency s). split; [done|].
    split; apply Hm.
  - intros t s r Hr Hu. rewrite scan_track_unfold, Hu, dict_mem_get, Hr.
    by rewrite bool_decide_eq_true_2 by eauto.
  - intros fs s r Hr.
    apply (for_each_preserves (fun s => dict_get u (unique_tracks s) = Some r)); [|done].
    intros f s0. apply scan_file_keeps.
Qed.

Lemma first_occurrence_kept_witness :
  exists unique frequency,
    (extract_unique_tracks_from_mpd mixed_dir None w0).1 = Done (unique, frequency) /\
    dict_get "A" unique = record_of (entry "A" "first") /\
    default 0 (frequency !! "A") = 3.
Proof.
  destruct (first_occurrence_kept mixed_dir None w0 "A") as [(unique & frequency & E & Hr & Hn) _].
  - apply Forall_cons_2; [left; reflexivity|].
    apply Forall_cons_2; [right; reflexivity|].
    apply Forall_cons_2; [left; reflexivity|]. apply Forall_nil_2.
  - vm_compute. discriminate.
  - exists unique, frequency. split; [exact E|]. split; [exact Hr | exact Hn].
Defined.

(** C10, as stated, fails when the first occurrence lacks a field: it is
    counted, no record is stored, and the record comes from a later
    occurrence. *)
Lemma first_occurrence_lost :
  exists unique frequency r,
    (extract_unique_tracks_from_mpd late_dir None w0).1 = Done (unique, frequency) /\
    frequency !! "A" = Some 2 /\
    first_occurrence "A" (concat (entries <$> late_dir)) = Some (nameless "A") /\
    dict_get "A" unique = Some r /\
    track_name r = JStr "second" /\
    get_track_name (nameless "A") = None.
Proof.
  eexists _, _, _. split; [vm_compute; reflexivity|].
  split; [vm_compute; reflexivity|]. split; [reflexivity|].
  split; [reflexivity|]. split; reflexivity.
Qed.


End ExtractorsClaims.

(** ** spotify_client.py: one batch lookup *)

Module ClientFacts.
Import SpotifyClient Observed.

Lemma attempted_take (uris : list string) :
  (if decide (100 < length uris) then take 100 uris else uris) = take 100 uris.
Proof. case_decide; [done|]. by rewrite take_ge by lia. Qed.

(** The two [except] clauses, case by case. *)
Lemma on_error_other e w :
  match e with SpotifyError _ => False | _ => True end ->
  on_error e w = (Done ∅, extend [Log ERROR "Unexpected error getting audio features" []] w).
Proof. by destruct e. Qed.


Lemma on_error_rate_limit se hs n w :
  http_status se = 429%Z -> headers se = Some hs ->
  default (Numeral 60) (hs !! "Retry-After") = Numeral n -> (0 <= n)%Z ->
  on_error (SpotifyError se) w =
  (Done ∅, extend [Log WARNING "Rate limited. Waiting" [inject_Z n]; Sleep (inject_Z n)] w).
Proof.
  intros Hs Hh Hr Hn. unfold on_error, retry_after_of. rewrite Hs, Hh, Hr. simpl.
  unfold mbind, Py_bind, bind, mret, Py_ret, ret, logging, logging_with, emit, modify, time_sleep.
  simpl. destruct (Z.ltb_spec n 0); [lia|]. unfold emit, modify, extend. simpl.
  by rewrite <- app_assoc.
Qed.

Lemma on_error_no_headers se w :
  http_status se = 429%Z -> headers se = None ->
  on_error (SpotifyError se) w = (Raised AttributeError, w).
Proof. intros Hs Hh. unfold on_error, retry_after_of. rewrite Hs, Hh. done. Qed.

Lemma on_error_run e w :
  exists evs, (on_error e w).2 = extend evs w /\ quiet evs /\
    ((on_error e w).1 = Done ∅ \/ exists e', (on_error e w).1 = Raised e').
Proof.
  destruct e as [se| | | | | | | |];
    try (eexists; rewrite on_error_other by done; split; [done|]; split; [done | by left]).
  unfold on_error. destruct (http_status se =? 429)%Z.
  - unfold retry_after_of. destruct (headers se) as [hs|].
    + destruct (default (Numeral 60) (hs !! "Retry-After")) as [n|txt].
      * unfold mbind, Py_bind, bind, mret, Py_ret, ret, logging, logging_with, emit, modify,
          time_sleep. simpl. destruct (n <? 0)%Z.
        -- exists [Log WARNING "Rate limited. Waiting" [inject_Z n]]. split; [done|]. split; [done|].
           right. by eexists.
        -- exists [Log WARNING "Rate limited. Waiting" [inject_Z n]; Sleep (inject_Z n)].
           unfold emit, modify, extend. simpl. rewrite <- app_assoc.
           split; [done|]. split; [done | by left].
      * exists []. unfold extend. rewrite app_nil_r. split; [by destruct w|].
        split; [done|]. right. by eexists.
    + exists []. unfold extend. rewrite app_nil_r. split; [by destruct w|].
      split; [done|]. right. by eexists.
  - exists [Log ERROR "Spotify API error" [inject_Z (http_status se)]]. split; [done|]. split; [done | by left].
Qed.

(** The lookup in closed form. *)
Lemma batch_unfold self uris w :
  uris ≠ [] ->
  get_audio_features_batch self uris w =
  let ids := extract_track_id_from_uri <$> take 100 uris in
  let w2 := {| trace := trace w ++ [Lookup uris; Request ids]; requests := S (requests w) |} in
  match audio_features (sp self) (requests w) ids with
  | Answer features_list =>
      match map_back (take 100 uris) 0 features_list ∅ with
      | Done m => (Done m, w2)
      | Raised e => on_error e w2
      end
  | Failure e => on_error e w2
  end.
Proof.
  intros Hne. unfold get_audio_features_batch. rewrite run_bind.
  unfold emit, modify. cbv beta iota. rewrite decide_False by done.
  rewrite attempted_take. cbv zeta. unfold try_except. rewrite run_bind.
  unfold sp_audio_features, count_request. simpl. rewrite <- app_assoc. simpl.
  destruct (audio_features (sp self) (requests w) _) as [fl|e]; [|done].
  destruct (map_back (take 100 uris) 0 fl ∅) as [m|e]; done.
Qed.

Lemma batch_empty self w :
  get_audio_features_batch self [] w = (Done ∅, extend [Lookup []] w).
Proof. done. Qed.

(** Every key of the result is one of the identifiers looked up. *)
Lemma map_back_keys uris i fl m m' u :
  map_back uris i fl m = Done m' -> is_Some (m' !! u) -> is_Some (m !! u) \/ u ∈ uris.
Proof.
  revert i m. induction fl as [|f fl IH]; intros i m; simpl.
  - intros [= ->]. by left.
  - destruct (uris !! i) as [uri|] eqn:Hi; [|done].
    assert (uri ∈ uris) as Hin by (by eapply list_elem_of_lookup_2).
    assert (forall v, is_Some (<[uri:=v]> m !! u) -> is_Some (m !! u) \/ u ∈ uris) as Hins.
    { intros v. destruct (decide (uri = u)) as [<-|Hne]; [by right|].
      rewrite lookup_insert_ne by done. by left. }
    destruct (found f) as [d|].
    + destruct (translate d) as [r|]; [|done].
      intros Hmb Hu. destruct (IH _ _ Hmb Hu) as [H|H]; [by eapply Hins | by right].
    + intros Hmb Hu. destruct (IH _ _ Hmb Hu) as [H|H]; [by eapply Hins | by right].
Qed.

(** However the lookup ends, it is one lookup of the batch, followed by at
    most one request and by quiet events; what it returns has its keys in
    the batch. *)
Lemma batch_run self uris w :
  exists evs, (get_audio_features_batch self uris w).2.(trace) = trace w ++ Lookup uris :: evs /\
    lookups evs = [] /\ dumps evs = [] /\
    forall m u, (get_audio_features_batch self uris w).1 = Done m ->
                is_Some (m !! u) -> u ∈ uris.
Proof.
  destruct (decide (uris = [])) as [->|Hne].
  { exists []. rewrite batch_empty. split; [done|]. split; [done|]. split; [done|].
    simpl. intros m u [= <-]. rewrite lookup_empty. by intros [? [=]]. }
  rewrite batch_unfold by done. cbv zeta.
  set (ids := extract_track_id_from_uri <$> take 100 uris).
  set (w2 := {| trace := _; requests := _ |}).
  assert (forall e, exists evs,
            trace (on_error e w2).2 = trace w ++ Lookup uris :: evs /\
            lookups evs = [] /\ dumps evs = [] /\
            forall m u, (on_error e w2).1 = Done m -> is_Some (m !! u) -> u ∈ uris) as Herr.
  { intros e. destruct (on_error_run e w2) as (evs & E & (Hl & Hr & Hd) & Ho).
    exists (Request ids :: evs). rewrite E. split.
    { unfold extend, w2. simpl. by rewrite <- app_assoc. }
    split; [done|]. split; [done|].
    intros m u Hm. destruct Ho as [Ho|[e' Ho]]; rewrite Ho in Hm; [|done].
    injection Hm as <-. rewrite lookup_empty. by intros [? [=]]. }
  destruct (audio_features (sp self) (requests w) ids) as [fl|e]; [|apply Herr].
  destruct (map_back (take 100 uris) 0 fl ∅) as [m|e] eqn:Hmb; [|apply Herr].
  exists [Request ids]. split; [done|]. split; [done|]. split; [done|].
  simpl. intros m' u [= <-] Hu.
  destruct (map_back_keys _ _ _ _ _ u Hmb Hu) as [H|H].
  - rewrite lookup_empty in H. by destruct H.
  - by eapply subseteq_take.
Qed.

End ClientFacts.

(** ** spotify_client.py: the claims about one batch lookup *)

Module ClientClaims.
Import SpotifyClient Observed ClientFacts Samples.

Lemma map_back_raises uris i fl m e :
  map_back uris i fl m = Raised e -> e = IndexError \/ e = KeyError.
Proof.
  revert i m. induction fl as [|f fl IH]; intros i m; simpl; [done|].
  destruct (uris !! i); [|intros [= <-]; by left].
  destruct (found f) as [d|]; [|apply IH].
  destruct (translate d); [apply IH | intros [= <-]; by right].
Qed.


(** A rate limit with a usable Retry-After header (or none, for 60 seconds):
    one request, one wait of that length, an empty map, no retry. *)
Lemma batch_rate_limited self uris w se hs n :
  uris ≠ [] ->
  audio_features (sp self) (requests w) (extract_track_id_from_uri <$> take 100 uris)
  = Failure (SpotifyError se) ->
  http_status se = 429%Z -> headers se = Some hs ->
  default (Numeral 60) (hs !! "Retry-After") = Numeral n -> (0 <= n)%Z ->
  get_audio_features_batch self uris w =
  (Done ∅,
   {| trace := trace w ++ [Lookup uris; Request (extract_track_id_from_uri <$> take 100 uris);
                           Log WARNING "Rate limited. Waiting" [inject_Z n]; Sleep (inject_Z n)];
      requests := S (requests w) |}).
Proof.
  intros Hne Hresp Hs Hh Hr Hn. rewrite batch_unfold by done. cbv zeta.
  rewrite Hresp, (on_error_rate_limit se hs n) by done.
  unfold extend. simpl. by rewrite <- app_assoc.
Qed.




Lemma split_colon_nonempty s : split_colon s ≠ [].
Proof.
  destruct s as [|c s]; simpl; [done|].
  destruct (Ascii.eqb c ":"); [done|]. by destruct (split_colon s).
Qed.







(** The same with a Retry-After header that is not a number of seconds. *)
Example rate_limit_with_date_raises :
  (get_audio_features_batch {| sp := dated |} ["spotify:track:4uLU6hMCjMI75M1A2tKUQC"] w0).1
  = Raised ValueError.
Proof. reflexivity. Qed.

(** With a number of seconds the handler waits that long and returns the
    empty map, after a single request. *)
Example rate_limit_waits :
  get_audio_features_batch {| sp := busy |} ["spotify:track:4uLU6hMCjMI75M1A2tKUQC"] w0
  = (Done ∅,
     {| trace := [Lookup ["spotify:track:4uLU6hMCjMI75M1A2tKUQC"];
                  Request ["4uLU6hMCjMI75M1A2tKUQC"];
                  Log WARNING "Rate limited. Waiting" [inject_Z 7]; Sleep (inject_Z 7)];
        requests := 1 |}).
Proof. reflexivity. Qed.

End ClientClaims.

(** ** spotify_client.py: one iteration of the orchestrator *)

Module BatchFacts.
Import SpotifyClient Observed ClientFacts.

Lemma set_io_io (s : frame) : set_io (io s) s = s.
Proof. by destruct s. Qed.

Lemma fail_nil (s : frame) : fail [] s = s.
Proof. destruct s. unfold fail. simpl. by rewrite app_nil_r. Qed.

Lemma fail_fail l1 l2 (s : frame) : fail l2 (fail l1 s) = fail (l1 ++ l2) s.
Proof. unfold fail. simpl. by rewrite app_assoc. Qed.

(** Lines 183-185: the identifiers of the batch without a populated record
    are appended, in order. *)
Lemma track_failures (bf : gmap string (option AudioFeatureRecord)) batch (s : frame) :
  for_each (fun uri => if populated (bf !! uri) then ret tt else modify (fail [uri])) batch s
  = (Done tt, fail (filter (fun uri => populated (bf !! uri) = false) batch) s).
Proof.
  revert s. induction batch as [|uri batch IH]; intros s.
  - simpl. by rewrite fail_nil.
  - rewrite for_each_cons, filter_cons. destruct (populated (bf !! uri)) eqn:Hp.
    + rewrite decide_False by done. unfold ret. apply IH.
    + rewrite decide_True by done. unfold modify. rewrite IH, fail_fail. done.
Qed.

Lemma io_logging_run lvl msg values (s : frame) :
  io_call (logging_with lvl msg values) s = (Done tt, set_io (extend [Log lvl msg values] (io s)) s).
Proof. done. Qed.

Lemma io_sleep_run secs (s : frame) :
  io_call (time_sleep secs) s =
  if (Qnum secs <? 0)%Z then (Raised ValueError, s)
  else (Done tt, set_io (extend [Sleep secs] (io s)) s).
Proof.
  unfold io_call, call, time_sleep. destruct (Qnum secs <? 0)%Z; [|done].
  unfold raise. by rewrite set_io_io.
Qed.

Lemma locals_set_io w s : locals (set_io w s) = locals s.
Proof. done. Qed.

(** The handler of the loop: the batch is marked failed, and the loop goes on. *)
Lemma abandon_batch_run batch batch_num e (s : frame) :
  abandon_batch batch batch_num e s =
  (Done tt, set_io (extend [Log ERROR "Error processing batch" [inject_Z batch_num];
                            Sleep (inject_Z 5)] (io s)) (fail batch s)).
Proof.
  unfold abandon_batch. rewrite run_bind, io_logging_run, run_bind. unfold modify.
  rewrite io_sleep_run. simpl. unfold extend, set_io, fail. simpl. by rewrite <- app_assoc.
Qed.

Lemma io_dump_run f d (s : frame) :
  io_call (json_dump f d) s = (Done tt, set_io (extend [JsonDump f d] (io s)) s).
Proof. done. Qed.

(** A save never raises: the document is written, or the failure is logged. *)
Lemma io_save_run features filename (s : frame) :
  io_call (save_features_to_file features filename) s
  = (Done tt, set_io (extend [save_event features filename] (io s)) s).
Proof.
  unfold io_call, call, save_features_to_file, try_except, makedirs_for, save_event.
  rewrite run_bind. by destruct (has_slash filename).
Qed.

Lemma save_event_quiet features filename :
  lookups [save_event features filename] = [] /\
  requested [save_event features filename] = [].
Proof. unfold save_event. by destruct (has_slash filename). Qed.

(** The tail of the try body, after the result of the lookup is dealt with:
    the pacing delay and the periodic checkpoint. *)
Lemma pace_and_checkpoint out delay total n (s : frame) :
  (Qnum delay <? 0)%Z = false ->
  exists evs,
    (_ ← io_call (time_sleep delay);
     if (n `mod` 10 =? 0)%Z then
       s ← get;
       _ ← io_call (save_features_to_file (all_features s) (out +:+ ".tmp"));
       io_call (logging_with INFO "Progress: features collected"
                  [inject_Z (Z.of_nat (success_count (all_features s)));
                   inject_Z n; inject_Z total])
     else ret tt) s = (Done tt, set_io (extend evs (io s)) s) /\
    lookups evs = [] /\ requested evs = [].
Proof.
  intros Hd. rewrite run_bind, io_sleep_run, Hd. destruct (n `mod` 10 =? 0)%Z.
  - exists [Sleep delay; save_event (all_features s) (out +:+ ".tmp");
            Log INFO "Progress: features collected"
              [inject_Z (Z.of_nat (success_count (all_features s))); inject_Z n; inject_Z total]].
    split.
    + rewrite run_bind. unfold get at 1. cbv beta iota.
      rewrite run_bind, io_save_run, io_logging_run.
      unfold set_io, extend. simpl. by rewrite <- !app_assoc.
    + destruct (save_event_quiet (all_features s) (out +:+ ".tmp")) as [Hl Hr].
      unfold lookups, requested in *. simpl in *.
      by destruct (save_event (all_features s) (out +:+ ".tmp")).
  - by exists [Sleep delay].
Qed.

(** One iteration of the loop never raises; it changes the locals as
    [step_locals] says and adds no lookup of its own to the one it makes. *)
Lemma iteration_run self out delay total batch n (s : frame) :
  exists evs s',
    try_except (attempt_batch self out delay total batch n) (abandon_batch batch n) s
    = (Done tt, s') /\
    locals s' = step_locals (get_audio_features_batch self batch (io s)).1
                  (Qnum delay <? 0)%Z batch (locals s) /\
    trace (io s') = trace (get_audio_features_batch self batch (io s)).2 ++ evs /\
    lookups evs = [] /\ requested evs = [].
Proof.
  unfold try_except, attempt_batch. rewrite run_bind. unfold io_call at 1, call at 1.
  destruct (get_audio_features_batch self batch (io s)) as [[bf|e] w'].
  2:{ rewrite abandon_batch_run. eexists _, _. split; [reflexivity|]. split; [reflexivity|].
      split; [simpl; reflexivity|]. done. }
  cbv beta iota. rewrite run_bind. destruct (decide (bf ≠ ∅)) as [Hbf|Hbf].
  - rewrite run_bind. unfold modify at 1. rewrite track_failures.
    destruct (Qnum delay <? 0)%Z eqn:Hd.
    + rewrite run_bind, io_sleep_run, Hd, abandon_batch_run.
      eexists _, _. split; [reflexivity|]. split; [|split; [simpl; reflexivity|done]].
      simpl. by rewrite decide_True by done.
    + destruct (pace_and_checkpoint out delay total n
                  (fail (filter (fun uri => populated (bf !! uri) = false) batch)
                     (merge bf (set_io w' s))) Hd) as (evs & E & Hl & Hr).
      rewrite E. exists evs. eexists. split; [reflexivity|]. split; [|split; [done|done]].
      simpl. rewrite decide_True by done. by rewrite app_nil_r.
  - rewrite run_bind. unfold modify at 1. rewrite io_logging_run.
    destruct (Qnum delay <? 0)%Z eqn:Hd.
    + rewrite run_bind, io_sleep_run, Hd, abandon_batch_run.
      eexists _, _. split; [reflexivity|].
      split; [|split; [simpl; rewrite <- app_assoc; reflexivity|done]].
      simpl. by rewrite decide_False by done.
    + match goal with |- context [(_ ≫= _) ?s0] =>
        destruct (pace_and_checkpoint out delay total n s0 Hd) as (evs & E & Hl & Hr)
      end.
      rewrite E. eexists (_ :: evs), _. split; [reflexivity|].
      split; [|split; [simpl; rewrite <- app_assoc; reflexivity|done]].
      simpl. rewrite decide_False by done. by rewrite app_nil_r.
Qed.

End BatchFacts.
(** ** spotify_client.py: the loop over the batches *)

Module LoopFacts.
Import SpotifyClient Observed ClientFacts BatchFacts.

Lemma slice_chunk {A} (b k : nat) (xs : list A) :
  slice (Z.of_nat k * Z.of_nat b) (Z.of_nat k * Z.of_nat b + Z.of_nat b) xs = chunk b xs k.
Proof.
  unfold slice, chunk. f_equal; [f_equal; lia|]. f_equal. lia.
Qed.

Lemma ceil_div_Z (n b : nat) :
  0 < b -> Z.to_nat ((Z.of_nat n + Z.of_nat b - 1) `div` Z.of_nat b) = ceil_div n b.
Proof.
  intros Hb. unfold ceil_div.
  replace (Z.of_nat n + Z.of_nat b - 1)%Z with (Z.of_nat (n + b - 1)) by lia.
  rewrite <- Nat2Z.inj_div. apply Nat2Z.id.
Qed.

Lemma py_range_positive {F} (n b : nat) (s : F) :
  0 < b ->
  py_range (Z.of_nat n) (Z.of_nat b) s =
  (Done ((fun k => Z.of_nat k * Z.of_nat b)%Z <$> seq 0 (ceil_div n b)), s).
Proof.
  intros Hb. unfold py_range.
  destruct (Z.eqb_spec (Z.of_nat b) 0); [lia|].
  destruct (Z.ltb_spec 0 (Z.of_nat b)); [|lia].
  by rewrite ceil_div_Z.
Qed.

(** The chunks cover the list. *)
Lemma chunks_concat {A} (b : nat) (xs : list A) n :
  concat (chunk b xs <$> seq 0 n) = take (n * b) xs.
Proof.
  induction n as [|n IH]; [done|].
  rewrite seq_S, fmap_app, concat_app, IH. simpl. rewrite app_nil_r.
  unfold chunk. rewrite take_take_drop. f_equal. lia.
Qed.

Lemma ceil_div_covers n b : 0 < b -> n <= ceil_div n b * b.
Proof.
  intros Hb. unfold ceil_div.
  pose proof (Nat.div_mod (n + b - 1) b ltac:(lia)) as Hdm.
  pose proof (Nat.mod_upper_bound (n + b - 1) b ltac:(lia)). nia.
Qed.

Lemma ceil_div_tight n b k : 0 < b -> k < ceil_div n b -> k * b < n.
Proof.
  intros Hb. unfold ceil_div. intros Hk.
  pose proof (Nat.div_mod (n + b - 1) b ltac:(lia)) as Hdm.
  pose proof (Nat.mod_upper_bound (n + b - 1) b ltac:(lia)). nia.
Qed.

Lemma lookups_app tr1 tr2 : lookups (tr1 ++ tr2) = lookups tr1 ++ lookups tr2.
Proof. apply omap_app. Qed.

Lemma dumps_app tr1 tr2 : dumps (tr1 ++ tr2) = dumps tr1 ++ dumps tr2.
Proof. apply omap_app. Qed.

Section Loop.
Context (self : SpotifyAudioFeatureCollector) (uris : list string) (out : string)
        (b : nat) (delay : Q) (total : Z).


Lemma body_run k (s : frame) :
  exists evs s',
    process_batch self uris out (Z.of_nat b) delay total (Z.of_nat k * Z.of_nat b)%Z s = (Done tt, s') /\
    locals s' = step_locals (get_audio_features_batch self (chunk b uris k) (io s)).1
                  (Qnum delay <? 0)%Z (chunk b uris k) (locals s) /\
    trace (io s') = trace (get_audio_features_batch self (chunk b uris k) (io s)).2 ++ evs /\
    lookups evs = [] /\ requested evs = [].
Proof.
  unfold process_batch. cbv zeta. rewrite slice_chunk. apply iteration_run.
Qed.

Lemma starts_S n : starts b (S n) = starts b n ++ [(Z.of_nat n * Z.of_nat b)%Z].
Proof. unfold starts. by rewrite seq_S, fmap_app. Qed.

(** The loop runs to its end, whatever the service does. *)
Lemma loop_returns n (s : frame) : (for_each (process_batch self uris out (Z.of_nat b) delay total) (starts b n) s).1 = Done tt.
Proof.
  apply for_each_total. intros x s0. unfold process_batch. cbv zeta.
  destruct (iteration_run self out delay total (slice x (x + Z.of_nat b) uris)
              (x `div` Z.of_nat b + 1)%Z s0) as (evs & s' & E & _). by rewrite E.
Qed.

Lemma loop_S n (s : frame) :
  for_each (process_batch self uris out (Z.of_nat b) delay total) (starts b (S n)) s =
  process_batch self uris out (Z.of_nat b) delay total (Z.of_nat n * Z.of_nat b)%Z (for_each (process_batch self uris out (Z.of_nat b) delay total) (starts b n) s).2.
Proof.
  rewrite starts_S, for_each_app. pose proof (loop_returns n s) as Hret.
  destruct (for_each (process_batch self uris out (Z.of_nat b) delay total) (starts b n) s) as [[[]|e] s1]; [|done].
  rewrite for_each_cons. change ((Done (), s1).2) with s1.
  destruct (process_batch self uris out (Z.of_nat b) delay total (Z.of_nat n * Z.of_nat b)%Z s1) as [[[]|e] s2]; reflexivity.
Qed.

(** The lookups of the loop are the chunks, in order. *)
Lemma loop_lookups n (s : frame) :
  lookups (trace (io (for_each (process_batch self uris out (Z.of_nat b) delay total) (starts b n) s).2))
  = lookups (trace (io s)) ++ (chunk b uris <$> seq 0 n).
Proof.
  induction n as [|n IH]; [simpl; by rewrite app_nil_r|].
  rewrite loop_S. set (s1 := (for_each (process_batch self uris out (Z.of_nat b) delay total) (starts b n) s).2) in *.
  destruct (body_run n s1) as (evs & s2 & E & _ & Htr & Hl & _). rewrite E.
  change ((Done (), s2).2) with s2.
  destruct (batch_run self (chunk b uris n) (io s1)) as (evs' & Htr' & Hl' & _).
  rewrite Htr, lookups_app, Htr', lookups_app, IH, Hl.
  change (lookups (Lookup (chunk b uris n) :: evs')) with (chunk b uris n :: lookups evs').
  rewrite Hl', seq_S, fmap_app. simpl. by rewrite app_nil_r, <- app_assoc.
Qed.

End Loop.

End LoopFacts.

(** ** spotify_client.py: the whole run *)

Module RunFacts.
Import SpotifyClient Observed ClientFacts BatchFacts LoopFacts.



Section Run.
Context (self : SpotifyAudioFeatureCollector) (uris : list string) (out : string)
        (b : nat) (delay : Q) (total : Z).


(** Lines 209-228 on an empty list of identifiers: the final save is made,
    then the success rate divides by zero. *)
Lemma finish_empty (s : frame) :
  exists evs s',
    finish_collection [] out total s = (Raised ZeroDivisionError, s') /\
    locals s' = locals s /\ trace (io s') = trace (io s) ++ evs /\
    lookups evs = [] /\ dumps evs = saved (all_features s) out.
Proof.
  unfold finish_collection. cbv zeta. rewrite run_bind. unfold get at 1. cbv beta iota.
  rewrite run_bind, io_save_run.
  unfold logging. rewrite !(run_bind (io_call _)), !io_logging_run. simpl.
  eexists _, _. split; [reflexivity|]. split; [reflexivity|]. simpl.
  rewrite <- !app_assoc. split; [reflexivity|].
  unfold save_event, saved. by destruct (has_slash out).
Qed.

(** Lines 209-228 otherwise: the final save, the summary, the list of
    failures if there is any, and the feature map returned. *)
Lemma finish_nonempty (s : frame) :
  uris ≠ [] ->
  exists evs s',
    finish_collection uris out total s = (Done (all_features s), s') /\
    locals s' = locals s /\ trace (io s') = trace (io s) ++ evs /\
    lookups evs = [] /\
    dumps evs = saved (all_features s) out ++
                (if decide (failed_tracks s = []) then []
                 else [(out +:+ ".failed", FailedDoc (failed_tracks s))]).
Proof.
  intros Hne. unfold finish_collection. cbv zeta. rewrite run_bind. unfold get at 1.
  cbv beta iota. rewrite run_bind, io_save_run.
  unfold logging. rewrite !(run_bind (io_call _)), !io_logging_run.
  destruct (Z.eqb_spec (Z.of_nat (length uris)) 0) as [Hz|Hz].
  { destruct uris; [done | simpl in Hz; lia]. }
  cbv beta iota. rewrite run_bind, io_logging_run, run_bind, io_logging_run. cbv beta iota.
  destruct (decide (failed_tracks s = [])) as [Hf|Hf]; simpl.
  - eexists _, _. split; [reflexivity|]. split; [reflexivity|]. simpl.
    rewrite <- !app_assoc. split; [reflexivity|].
    unfold save_event, saved. by destruct (has_slash out).
  - eexists _, _. split; [reflexivity|]. split; [reflexivity|]. simpl.
    rewrite <- !app_assoc. split; [reflexivity|].
    unfold save_event, saved. by destruct (has_slash out).
Qed.

(** The run in two parts: the loop over the batches, then the finish. *)
Lemma run_collection_unfold (s : frame) :
  0 < b ->
  exists s0, locals s0 = locals s /\
    lookups (trace (io s0)) = lookups (trace (io s)) /\
    dumps (trace (io s0)) = dumps (trace (io s)) /\
    run_collection self uris out (Z.of_nat b) delay s =
    finish_collection uris out
      ((Z.of_nat (length uris) + Z.of_nat b - 1) `div` Z.of_nat b)%Z
      (for_each (process_batch self uris out (Z.of_nat b) delay
                   ((Z.of_nat (length uris) + Z.of_nat b - 1) `div` Z.of_nat b)%Z)
                (starts b (ceil_div (length uris) b)) s0).2.
Proof.
  intros Hb. unfold run_collection. cbv zeta.
  rewrite run_bind, io_logging_run. cbv beta iota.
  rewrite run_bind, io_logging_run. cbv beta iota.
  match goal with |- context [(_ ≫= _) ?s1] => exists s1 end.
  split; [done|]. split; [simpl; rewrite !lookups_app; simpl; by rewrite !app_nil_r|].
  split; [simpl; rewrite !dumps_app; simpl; by rewrite !app_nil_r|].
  rewrite run_bind. unfold floor_div at 1.
  destruct (Z.eqb_spec (Z.of_nat b) 0); [lia|].
  unfold ret at 1. cbv beta iota. rewrite run_bind.
  rewrite py_range_positive by done.
  cbv beta iota. rewrite run_bind.
  match goal with |- context [for_each ?f ?l ?s1] =>
    pose proof (loop_returns self uris out b delay
                  ((Z.of_nat (length uris) + Z.of_nat b - 1) `div` Z.of_nat b)%Z
                  (ceil_div (length uris) b) s1) as Hret;
    unfold starts in *;
    destruct (for_each f l s1) as [[[]|e] s2] end; [|done].
  reflexivity.
Qed.

End Run.

End RunFacts.

(** ** spotify_client.py: the claims about the orchestrator *)

Module RunClaims.
Import SpotifyClient Observed ClientFacts BatchFacts LoopFacts RunFacts Samples.

Lemma collect_unfold self uris out B delay w :
  collect_all_audio_features self uris out B delay w =
  ((run_collection self uris out B delay (init w)).1,
   io (run_collection self uris out B delay (init w)).2).
Proof.
  unfold collect_all_audio_features.
  by destruct (run_collection self uris out B delay (init w)).
Qed.

Lemma chunk_length {A} b (xs : list A) k : length (chunk b xs k) <= b.
Proof. unfold chunk. rewrite length_take. lia. Qed.

Lemma chunks_cover {A} b (xs : list A) :
  0 < b -> concat (chunk b xs <$> seq 0 (ceil_div (length xs) b)) = xs.
Proof.
  intros Hb. rewrite chunks_concat. apply take_ge. by apply ceil_div_covers.
Qed.

Lemma chunks_position {A} b (xs : list A) p :
  0 < b -> p < length xs ->
  (chunk b xs <$> seq 0 (ceil_div (length xs) b)) !! (p / b) ≫= (.!! (p mod b)) = xs !! p.
Proof.
  intros Hb Hp.
  pose proof (Nat.div_mod p b ltac:(lia)) as Hdm.
  pose proof (Nat.mod_upper_bound p b ltac:(lia)) as Hmod.
  assert (p / b < ceil_div (length xs) b) as Hk.
  { pose proof (ceil_div_covers (length xs) b Hb).
    destruct (decide (p / b < ceil_div (length xs) b)); [done|]. nia. }
  rewrite list_lookup_fmap, lookup_seq_lt by done. simpl.
  unfold chunk. rewrite lookup_take_lt, lookup_drop by done. f_equal. lia.
Qed.

(** The lookups of a whole run are the chunks, in order. *)
Lemma run_lookups self uris out b delay (s : frame) :
  0 < b ->
  lookups (trace (io (run_collection self uris out (Z.of_nat b) delay s).2))
  = lookups (trace (io s)) ++ (chunk b uris <$> seq 0 (ceil_div (length uris) b)).
Proof.
  intros Hb.
  destruct (run_collection_unfold self uris out b delay s Hb) as (s0 & _ & Hl0 & _ & E).
  rewrite E. set (total := (_ `div` _)%Z).
  set (s1 := (for_each _ _ s0).2).
  assert (lookups (trace (io s1)) =
          lookups (trace (io s)) ++ (chunk b uris <$> seq 0 (ceil_div (length uris) b))) as H1.
  { unfold s1. by rewrite loop_lookups, Hl0. }
  destruct (decide (uris = [])) as [->|Hne].
  - destruct (finish_empty out total s1) as (evs & s2 & E2 & _ & Htr & Hl & _).
    rewrite E2. simpl. by rewrite Htr, lookups_app, Hl, app_nil_r.
  - destruct (finish_nonempty uris out total s1 Hne) as (evs & s2 & E2 & _ & Htr & Hl & _).
    rewrite E2. simpl. by rewrite Htr, lookups_app, Hl, app_nil_r.
Qed.

(** C2. For a positive batch size, the run makes [ceil(N/B)] batch
    lookups, whatever the service does; each receives at most [B]
    identifiers; the lists received are the contiguous slices
    [track_uris[k*B : k*B+B]], which put end to end give the input, so that
    position [p] of the input is position [p mod B] of lookup [p / B]. *)
Theorem batches_partition self uris out B delay w :
  (0 < B)%Z ->
  lookups (trace (collect_all_audio_features self uris out B delay w).2)
  = lookups (trace w)
    ++ (chunk (Z.to_nat B) uris <$> seq 0 (ceil_div (length uris) (Z.to_nat B))) /\
  length (chunk (Z.to_nat B) uris <$> seq 0 (ceil_div (length uris) (Z.to_nat B)))
  = ceil_div (length uris) (Z.to_nat B) /\
  Forall (fun c => length c <= Z.to_nat B)
    (chunk (Z.to_nat B) uris <$> seq 0 (ceil_div (length uris) (Z.to_nat B))) /\
  concat (chunk (Z.to_nat B) uris <$> seq 0 (ceil_div (length uris) (Z.to_nat B))) = uris /\
  (forall p, p < length uris ->
     (chunk (Z.to_nat B) uris <$> seq 0 (ceil_div (length uris) (Z.to_nat B)))
       !! (p / Z.to_nat B) ≫= (.!! (p mod Z.to_nat B)) = uris !! p).
Proof.
  intros HB. assert (0 < Z.to_nat B) as Hb by lia.
  split; [|split; [|split; [|split]]].
  - rewrite collect_unfold. simpl.
    rewrite <- (Z2Nat.id B) at 1 by lia. by rewrite run_lookups.
  - by rewrite length_fmap, length_seq.
  - apply Forall_fmap, Forall_forall. intros k _. apply chunk_length.
  - by apply chunks_cover.
  - intros p Hp. by apply chunks_position.
Qed.

Lemma batches_partition_witness :
  lookups (trace (collect_all_audio_features {| sp := flaky |}
                    ["a"; "b"; "c"; "d"; "e"] "out/f.json" 2 1 w0).2)
  = [["a"; "b"]; ["c"; "d"]; ["e"]].
Proof.
  destruct (batches_partition {| sp := flaky |} ["a"; "b"; "c"; "d"; "e"] "out/f.json" 2 1 w0)
    as [H _]; [lia|].
  rewrite H. reflexivity.
Defined.






(** C5. On the empty list the run does not end normally: the final save is
    made, then the success rate divides by the number of identifiers
    requested and [ZeroDivisionError] leaves the function. *)
Theorem empty_list_raises self out delay w :
  exists w',
    collect_all_audio_features self [] out 50 delay w = (Raised ZeroDivisionError, w') /\
    dumps (trace w') = dumps (trace w) ++ saved ∅ out.
Proof.
  rewrite collect_unfold.
  destruct (run_collection_unfold self [] out 50 delay (init w) ltac:(lia))
    as (s0 & Hl0 & _ & Hd0 & E).
  change (Z.of_nat 50) with 50%Z in E. rewrite E. simpl for_each.
  set (total := (_ `div` _)%Z). unfold ret. change ((Done (), s0).2) with s0.
  destruct (finish_empty out total s0) as (evs & s2 & E2 & _ & Htr & _ & Hdumps).
  rewrite E2. eexists. split; [reflexivity|]. simpl.
  rewrite Htr, dumps_app, Hdumps, Hd0. unfold locals in Hl0. by injection Hl0 as -> _ _.
Qed.

(** Otherwise the run ends normally: the feature map is saved, whether
    empty or not (under an output name with a directory part), the failure
    list is written if and only if it is not empty, and the feature map is
    returned. *)
Lemma nonempty_list_returns self uris out B delay w :
  uris ≠ [] -> (0 < B)%Z ->
  exists features failed earlier w',
    collect_all_audio_features self uris out B delay w = (Done features, w') /\
    dumps (trace w') =
    earlier ++ saved features out ++
               (if decide (failed = []) then [] else [(out +:+ ".failed", FailedDoc failed)]).
Proof.
  intros Hne HB. assert (0 < Z.to_nat B) as Hb by lia.
  rewrite collect_unfold. rewrite <- (Z2Nat.id B) by lia.
  destruct (run_collection_unfold self uris out (Z.to_nat B) delay (init w) Hb)
    as (s0 & _ & _ & _ & E).
  rewrite E. set (total := (_ `div` _)%Z). set (s1 := (for_each _ _ s0).2).
  destruct (finish_nonempty uris out total s1 Hne) as (evs & s2 & E2 & _ & Htr & _ & Hdumps).
  rewrite E2. exists (all_features s1), (failed_tracks s1), (dumps (trace (io s1))), (io s2).
  split; [done|]. by rewrite Htr, dumps_app, Hdumps.
Qed.

(** Under an output name without a directory part the save fails and is
    only logged; the failure list is still written. *)
Example bare_name_not_saved :
  dumps (trace (collect_all_audio_features {| sp := catalog |} ["unknown"]
                  "features.json" 50 1 w0).2)
  = [("features.json.failed", FailedDoc ["unknown"])].
Proof. vm_compute. reflexivity. Qed.

End RunClaims.

(** ** enrich_dataset.py: the driver *)

Module DriverClaims.
Import Extractors Corpus ExtractorsFacts ExtractorsScan Observed EnrichDataset Samples.



Lemma logging_run lvl msg w : logging lvl msg w = (Done tt, extend [Log lvl msg []] w).
Proof. done. Qed.

Lemma logging_with_run lvl msg values w :
  logging_with lvl msg values w = (Done tt, extend [Log lvl msg values] w).
Proof. done. Qed.

(** The track dataset is written, given a file name with a directory. *)
Lemma save_track_data_run unique frequency output_file w :
  has_slash output_file = true ->
  save_track_data unique frequency output_file w =
  (Done tt,
   extend [JsonDump output_file
             (TracksDoc unique.*2 frequency (length unique) (sum_values frequency));
           Log SUCCESS "Saved unique tracks" [inject_Z (Z.of_nat (length unique))]] w).
Proof.
  intros H. unfold save_track_data, makedirs_for. rewrite H, run_bind. unfold ret at 1.
  cbv beta iota. rewrite run_bind. unfold json_dump, emit at 1, modify at 1.
  rewrite logging_with_run. unfold extend. simpl. by rewrite <- app_assoc.
Qed.

(** What extraction returns does not depend on the log it writes to. *)
Lemma extract_any_world data_dir max_files w w' :
  (extract_unique_tracks_from_mpd data_dir max_files w).1 =
  (extract_unique_tracks_from_mpd data_dir max_files w').1.
Proof.
  rewrite !extract_result. apply result_of_same_data.
  apply (for_each_related same_data); [|done].
  intros f a b Hab. split; [|by apply scan_file_same_data].
  by rewrite !scan_file_returns.
Qed.

Lemma scan_track_io t s : io (scan_track t s).2 = io s.
Proof.
  rewrite scan_track_unfold. destruct (get_track_uri t) as [u|]; [|done].
  destruct (dict_mem u (unique_tracks s)); [done|]. by destruct (record_of t).
Qed.

Lemma scan_document_io f s : io (scan_document f s).2 = io s.
Proof.
  unfold scan_document. destruct f as [e|[ps|]]; try done.
  change ((json_load (Document (Some ps)) ≫= λ data, subscript data ≫= for_each scan_playlist) s)
    with (for_each scan_playlist ps s).
  apply (for_each_preserves (fun s' => io s' = io s)); [|done].
  intros p s0 H0. unfold scan_playlist. destruct (get_tracks p) as [ts|]; [|done].
  change ((subscript (Some ts) ≫= for_each scan_track) s0) with (for_each scan_track ts s0).
  apply (for_each_preserves (fun s' => io s' = io s)); [|done].
  intros t s1 H1. by rewrite scan_track_io.
Qed.



(** The try statement of the enrichment stage catches everything, and the
    branch without credentials does nothing but log. *)
Lemma enrich_run env service unique w :
  enrich env service unique w =
  if truthy (SPOTIFY_CLIENT_ID env) && truthy (SPOTIFY_CLIENT_SECRET env) then
    match enrichment_stage service (default "" (SPOTIFY_CLIENT_ID env))
            (default "" (SPOTIFY_CLIENT_SECRET env)) unique
            (extend [Log INFO "Step 2: Collecting audio features from Spotify..." []] w) with
    | (Done _, w') => (Done tt, w')
    | (Raised e, w') => (Done tt, extend [Log ERROR "Audio feature collection failed" []] w')
    end
  else
    (Done tt, extend [Log WARNING "Spotify credentials not found." [];
                      Log INFO "Set SPOTIFY_CLIENT_ID and SPOTIFY_CLIENT_SECRET in .env file" [];
                      Log INFO "Audio feature collection skipped." []] w).
Proof.
  unfold enrich. cbv zeta.
  destruct (truthy (SPOTIFY_CLIENT_ID env) && truthy (SPOTIFY_CLIENT_SECRET env)).
  - rewrite run_bind, logging_run. unfold try_except.
    destruct (enrichment_stage _ _ _ _ _) as [[[]|e] w']; done.
  - rewrite run_bind, logging_run, run_bind, logging_run, logging_run.
    unfold extend. simpl. by rewrite <- !app_assoc.
Qed.





(** With credentials and a service that answers, the stage does run: the
    driver looks up the extracted identifiers. *)
Example main_enriches :
  lookups (trace (main mixed_dir with_credentials catalog w0).2) = [["A"; "B"; "C"]] /\
  (main mixed_dir with_credentials catalog w0).1 = Done tt.
Proof. vm_compute. done. Qed.

(** Without the secret, nothing of the stage happens. *)
Example main_without_secret :
  enrichment_events (trace (main mixed_dir without_secret catalog w0).2) = [] /\
  (main mixed_dir without_secret catalog w0).1 = Done tt.
Proof. vm_compute. done. Qed.

(** With credentials that the service refuses, the construction of the
    client raises, the driver logs it and exits normally. *)
Example main_survives_refusal :
  (main mixed_dir with_credentials unauthorized w0).1 = Done tt /\
  lookups (trace (main mixed_dir with_credentials unauthorized w0).2) = [] /\
  last (trace (main mixed_dir with_credentials unauthorized w0).2)
  = Some (Log SUCCESS "Dataset enrichment pipeline complete!" []).
Proof. vm_compute. done. Qed.

End DriverClaims.

(** * Further properties of the code *)

(** ** Loops that reach their elements *)

Section Reach.
Context {F A : Type}.

(** A loop runs to its end when none of its iterations raises. *)
Lemma for_each_returns (body : A -> Py F unit) (xs : list A) (s : F) :
  (forall x s, x ∈ xs -> (body x s).1 = Done tt) -> (for_each body xs s).1 = Done tt.
Proof.
  revert s. induction xs as [|x xs IH]; intros s Hret; [done|].
  rewrite for_each_cons. pose proof (Hret x s ltac:(left)) as Hx.
  destruct (body x s) as [[[]|e] s1]; [|done].
  apply IH. intros y s' Hy. apply Hret. by right.
Qed.

(** It then reaches each of its elements: what one of them establishes and
    all of them keep holds at the end. *)
Lemma for_each_reaches (P : F -> Prop) (body : A -> Py F unit) (xs : list A) (x0 : A) (s : F) :
  x0 ∈ xs ->
  (forall x s, x ∈ xs -> (body x s).1 = Done tt) ->
  (forall s, P (body x0 s).2) ->
  (forall x s, P s -> P (body x s).2) ->
  P (for_each body xs s).2.
Proof.
  intros Hin Hret Hest Hkeep. revert s. induction xs as [|x xs IH]; intros s.
  { by apply elem_of_nil in Hin. }
  rewrite for_each_cons. pose proof (Hret x s ltac:(left)) as Hx.
  apply elem_of_cons in Hin as [<-|Hin].
  - pose proof (Hest s) as H0.
    destruct (body x0 s) as [[[]|e] s1]; [|done]. simpl in H0.
    by apply for_each_preserves.
  - destruct (body x s) as [[[]|e] s1]; [|done].
    apply IH; [done|]. intros y s' Hy. apply Hret. by right.
Qed.
End Reach.

(** ** extractors.py: what every scan keeps *)

Module LedgerFacts.
Import Extractors Corpus ExtractorsFacts ExtractorsScan Ledger.

Lemma consistent_init w : consistent (init w).
Proof.
  split; simpl; try done.
  - constructor.
  - intros u H. by apply elem_of_nil in H.
Qed.

Lemma consistent_set_io w s : consistent s -> consistent (set_io w s).
Proof. intros []. by split. Qed.

Lemma consistent_tally u s : consistent s -> consistent (tally u s).
Proof.
  intros [Hk Hu Hc Hp Hs]. split; simpl; try done.
  - intros u' Hin. destruct (decide (u = u')) as [<-|Hne].
    + rewrite lookup_insert_eq. eauto.
    + rewrite lookup_insert_ne by done. by apply Hc.
  - intros u' n. destruct (decide (u = u')) as [<-|Hne].
    + rewrite lookup_insert_eq. intros [= <-]. lia.
    + rewrite lookup_insert_ne by done. apply Hp.
  - by rewrite sum_values_tally, Hs.
Qed.

Lemma consistent_store u r s :
  track_uri r = u -> dict_mem u (unique_tracks s) = false ->
  is_Some (track_frequency s !! u) ->
  consistent s -> consistent (store u r s).
Proof.
  intros Hr Hm Hf [Hk Hu Hc Hp Hs].
  assert (u ∉ dict_keys (unique_tracks s)) as Hnew.
  { unfold dict_mem in Hm. by apply bool_decide_eq_false in Hm. }
  split; simpl; try done.
  - rewrite dict_keys_add. apply NoDup_app. split; [done|]. split; [|apply NoDup_singleton].
    by intros x Hx ->%list_elem_of_singleton.
  - intros u' r'. rewrite dict_get_add.
    destruct (dict_get u' (unique_tracks s)) as [r0|] eqn:E.
    + intros [= <-]. by apply Hu.
    + case_decide; [|done]. by intros [= <-]; subst.
  - intros u'. rewrite dict_keys_add. intros [Hin|Hin]%elem_of_app; [by apply Hc|]. by apply list_elem_of_singleton in Hin as ->.
Qed.

Lemma scan_track_consistent t s : consistent s -> consistent (scan_track t s).2.
Proof.
  intros Hs. rewrite scan_track_unfold.
  destruct (get_track_uri t) as [u|] eqn:Hu; [|done].
  destruct (dict_mem u (unique_tracks s)) eqn:Hm; [by apply consistent_tally|].
  destruct (record_of t) as [r|] eqn:Hr; [|by apply consistent_tally].
  simpl. apply consistent_store; [| done | | by apply consistent_tally].
  - apply record_of_uri in Hr. congruence.
  - simpl. rewrite lookup_insert_eq. eauto.
Qed.

Lemma scan_document_consistent f s : consistent s -> consistent (scan_document f s).2.
Proof.
  intros Hs. unfold scan_document. destruct f as [e|[ps|]]; try done.
  change ((json_load (Document (Some ps)) ≫= λ data, subscript data ≫= for_each scan_playlist) s)
    with (for_each scan_playlist ps s).
  apply (for_each_preserves consistent); [|done].
  intros p s0 H0. unfold scan_playlist. destruct (get_tracks p) as [ts|]; [|done].
  change ((subscript (Some ts) ≫= for_each scan_track) s0) with (for_each scan_track ts s0).
  apply (for_each_preserves consistent); [|done].
  intros t s1. apply scan_track_consistent.
Qed.

Lemma scan_file_consistent f s : consistent s -> consistent (scan_file f s).2.
Proof.
  intros Hs. rewrite scan_file_unfold. pose proof (scan_document_consistent f s Hs) as H.
  destruct (scan_document f s) as [[[]|e] s']; simpl in *; [done|].
  by apply consistent_set_io.
Qed.

Lemma scan_files_consistent fs s : consistent s -> consistent (for_each scan_file fs s).2.
Proof. apply for_each_preserves. intros f s0. apply scan_file_consistent. Qed.

Lemma sum_values_insert (m : gmap string nat) u n :
  m !! u = None -> sum_values (<[u := n]> m) = n + sum_values m.
Proof.
  intros H. unfold sum_values. rewrite map_fold_insert_L; [done| |done].
  intros; lia.
Qed.

Lemma size_le_sum_values (m : gmap string nat) :
  (forall u n, m !! u = Some n -> 0 < n) -> size m <= sum_values m.
Proof.
  induction m as [|u n m Hu IH] using map_ind; intros Hpos; [done|].
  rewrite map_size_insert_None, sum_values_insert by done.
  assert (0 < n) by (apply (Hpos u); by rewrite lookup_insert_eq).
  assert (size m <= sum_values m); [|lia].
  apply IH. intros u' n' H'. apply (Hpos u'). rewrite lookup_insert_ne; [done|]. congruence.
Qed.

Lemma consistent_sizes s :
  consistent s ->
  length (unique_tracks s) <= size (track_frequency s) /\
  size (track_frequency s) <= sum_values (track_frequency s).
Proof.
  intros [Hk Hu Hc Hp Hs]. split; [|by apply size_le_sum_values].
  rewrite <- dict_keys_length, <- (size_list_to_set (C:=gset string)) by done.
  rewrite <- size_dom. apply subseteq_size. intros u Hin.
  apply elem_of_list_to_set in Hin. apply elem_of_dom. by apply Hc.
Qed.

End LedgerFacts.

(** ** extractors.py: the end of an extraction *)

Module ExtractorsMore.
Import Extractors Corpus ExtractorsFacts ExtractorsScan Observed Ledger Logs LedgerFacts Samples.

Lemma extend_nil w : extend [] w = w.
Proof. destruct w. unfold extend. simpl. by rewrite app_nil_r. Qed.

Lemma extend_extend evs1 evs2 w : extend evs2 (extend evs1 w) = extend (evs1 ++ evs2) w.
Proof. unfold extend. simpl. by rewrite app_assoc. Qed.

(** A scan only adds log lines to the world. *)
Lemma scan_file_logs_only f s :
  exists logs, io (scan_file f s).2 = extend logs (io s) /\ forallb is_log logs = true.
Proof.
  rewrite scan_file_unfold. pose proof (DriverClaims.scan_document_io f s) as Hio.
  destruct (scan_document f s) as [[[]|e] s']; simpl in *; rewrite Hio.
  - exists []. by rewrite extend_nil.
  - by exists [Log ERROR "Error processing slice file" []].
Qed.

Lemma scan_files_logs_only fs s :
  exists logs, io (for_each scan_file fs s).2 = extend logs (io s) /\ forallb is_log logs = true.
Proof.
  revert s. induction fs as [|f fs IH]; intros s.
  - exists []. by rewrite extend_nil.
  - rewrite for_each_cons. pose proof (scan_file_returns f s) as Hret.
    destruct (scan_file_logs_only f s) as (l1 & E1 & H1).
    destruct (scan_file f s) as [[[]|e] s1]; [|done]. simpl in E1.
    destruct (IH s1) as (l2 & E2 & H2). exists (l1 ++ l2).
    rewrite E2, E1, extend_extend. split; [done|].
    rewrite forallb_app. by rewrite H1, H2.
Qed.

(** The function from its last statement backwards: the frame the loop
    leaves decides how it ends. *)
Lemma extract_unfold data_dir max_files w :
  exists s logs,
    same_data s (for_each scan_file (cap_files max_files data_dir) (init w)).2 /\
    io s = extend logs w /\ forallb is_log logs = true /\
    extract_unique_tracks_from_mpd data_dir max_files w =
    let total := inject_Z (Z.of_nat (total_tracks_processed s)) in
    let unique := inject_Z (Z.of_nat (length (unique_tracks s))) in
    if decide (length (unique_tracks s) = 0) then
      (Raised ZeroDivisionError,
       extend [Log INFO "Total track instances" [total]; Log INFO "Unique tracks" [unique]] (io s))
    else
      (Done (unique_tracks s, track_frequency s),
       extend [Log INFO "Total track instances" [total]; Log INFO "Unique tracks" [unique];
               Log INFO "Average frequency" [Qdiv total unique]] (io s)).
Proof.
  unfold extract_unique_tracks_from_mpd, run_extraction, logging.
  rewrite run_bind, scan_logging_run. cbv zeta.
  rewrite run_bind, scan_logging_run, run_bind.
  match goal with |- context [for_each scan_file ?fs (set_io ?x1 ?x2)] =>
    set (s0 := set_io x1 x2);
    pose proof (scan_files_returns fs s0) as Hret;
    pose proof (for_each_related same_data scan_file fs s0 (init w)
                  (fun f a b Hab => conj (eq_trans (scan_file_returns f a)
                                            (eq_sym (scan_file_returns f b)))
                                         (scan_file_same_data f a b Hab)) eq_refl) as [_ Hsame];
    destruct (scan_files_logs_only fs s0) as (logs & Hlogs & Hall);
    destruct (for_each scan_file fs s0) as [[[]|e] s1]
  end; [|done].
  simpl in Hsame, Hlogs. exists s1. eexists. split; [done|]. split.
  { rewrite Hlogs. unfold extend. simpl. rewrite <- !app_assoc. reflexivity. }
  split; [simpl; exact Hall|].
  rewrite run_bind. unfold log_summary. rewrite run_bind. unfold get at 1. cbv beta iota zeta.
  rewrite run_bind, scan_logging_run, run_bind, scan_logging_run.
  destruct (length (unique_tracks s1)) as [|n] eqn:Hlen.
  - rewrite decide_True by done. simpl. unfold extend. simpl. by rewrite <- !app_assoc.
  - rewrite decide_False by done.
    destruct (Z.eqb_spec (Z.of_nat (S n)) 0); [lia|].
    rewrite scan_logging_run. unfold get, mret, Py_ret, ret. simpl.
    unfold extend. simpl. by rewrite <- !app_assoc.
Qed.

Lemma consistent_same_data s1 s2 : same_data s1 s2 -> consistent s1 -> consistent s2.
Proof.
  unfold same_data, data. intros [= Hu Hf Ht] [].
  split; rewrite <- ?Hu, <- ?Hf, <- ?Ht; done.
Qed.

Lemma extract_consistent data_dir max_files w :
  exists s logs, consistent s /\
    same_data s (for_each scan_file (cap_files max_files data_dir) (init w)).2 /\
    io s = extend logs w /\ forallb is_log logs = true /\
    extract_unique_tracks_from_mpd data_dir max_files w =
    let total := inject_Z (Z.of_nat (total_tracks_processed s)) in
    let unique := inject_Z (Z.of_nat (length (unique_tracks s))) in
    if decide (length (unique_tracks s) = 0) then
      (Raised ZeroDivisionError,
       extend [Log INFO "Total track instances" [total]; Log INFO "Unique tracks" [unique]] (io s))
    else
      (Done (unique_tracks s, track_frequency s),
       extend [Log INFO "Total track instances" [total]; Log INFO "Unique tracks" [unique];
               Log INFO "Average frequency" [Qdiv total unique]] (io s)).
Proof.
  destruct (extract_unfold data_dir max_files w) as (s & logs & Hsame & E).
  exists s, logs. split; [|done].
  eapply consistent_same_data; [symmetry; exact Hsame|].
  apply scan_files_consistent, consistent_init.
Qed.

End ExtractorsMore.

Module ExtractorsExtras.
Import MoreSamples.
Import Extractors Corpus ExtractorsFacts ExtractorsScan Observed Ledger Logs LedgerFacts
       ExtractorsMore Samples.

(** X1. However the files are, [extract_unique_tracks_from_mpd] touches the
    world by log lines only and ends in one of two ways. Either no track was
    stored: the two count lines are logged, with zero unique tracks, and the
    average raises [ZeroDivisionError]; no other exception ever leaves the
    function. Or it returns a mapping that is not empty, after three summary
    lines that agree with what is returned: the total logged is the sum of
    the frequencies returned, the number of unique tracks is the size of the
    mapping returned, the average is their quotient. *)
Theorem extraction_summary data_dir max_files w :
  exists logs total,
    forallb is_log logs = true /\
    (extract_unique_tracks_from_mpd data_dir max_files w =
     (Raised ZeroDivisionError,
      extend (logs ++ [Log INFO "Total track instances" [inject_Z (Z.of_nat total)];
                       Log INFO "Unique tracks" [inject_Z 0]]) w)
     \/
     exists unique frequency,
       unique <> [] /\ sum_values frequency = total /\
       extract_unique_tracks_from_mpd data_dir max_files w =
       (Done (unique, frequency),
        extend (logs ++ [Log INFO "Total track instances" [inject_Z (Z.of_nat total)];
                         Log INFO "Unique tracks" [inject_Z (Z.of_nat (length unique))];
                         Log INFO "Average frequency"
                           [Qdiv (inject_Z (Z.of_nat total))
                                 (inject_Z (Z.of_nat (length unique)))]]) w)).
Proof.
  destruct (extract_consistent data_dir max_files w) as (s & logs & Hc & _ & Hio & Hlogs & E).
  exists logs, (total_tracks_processed s). split; [done|].
  rewrite E. cbv zeta. rewrite Hio, !extend_extend.
  destruct (decide (length (unique_tracks s) = 0)) as [Hz|Hz].
  - left. by rewrite Hz.
  - right. exists (unique_tracks s), (track_frequency s).
    split; [by destruct (unique_tracks s)|]. split; [apply Hc | done].
Qed.

(** X2. Whatever the files hold, faulty ones included, what an extraction
    returns is consistent: no key occurs twice, every record is stored under
    its own [track_uri], every identifier with a record has a count of at
    least one, every count of the table is positive, there are no more
    records than counted identifiers, and no more of those than entries
    tallied. *)
Theorem extraction_consistent data_dir max_files w unique frequency :
  (extract_unique_tracks_from_mpd data_dir max_files w).1 = Done (unique, frequency) ->
  NoDup (dict_keys unique) /\
  (forall u r, dict_get u unique = Some r ->
     track_uri r = u /\ exists n, frequency !! u = Some (S n)) /\
  (forall u n, frequency !! u = Some n -> 0 < n) /\
  length unique <= size frequency /\
  size frequency <= sum_values frequency.
Proof.
  destruct (extract_consistent data_dir max_files w) as (s & logs & Hc & _ & _ & _ & E).
  rewrite E. cbv zeta. destruct (decide (length (unique_tracks s) = 0)); [done|].
  simpl. intros [= <- <-].
  destruct (consistent_sizes s Hc) as [H1 H2].
  split; [apply Hc|]. split; [|split; [apply Hc | done]].
  intros u r Hr. split; [by apply Hc|].
  assert (u ∈ dict_keys (unique_tracks s)) as Hin.
  { destruct (decide (u ∈ dict_keys (unique_tracks s))) as [|Hn]; [done|].
    apply dict_get_None in Hn. congruence. }
  destruct (consistent_counted s Hc u Hin) as [k Hk].
  pose proof (consistent_positive s Hc u k Hk). destruct k; [lia|]. eauto.
Qed.

Lemma extraction_consistent_witness :
  NoDup (dict_keys [("A", stored "A" "a"); ("D", stored "D" "d")]) /\
  length [("A", stored "A" "a"); ("D", stored "D" "d")]
  <= size ({[ "A" := 1; "B" := 1; "D" := 1 ]} : gmap string nat) /\
  size ({[ "A" := 1; "B" := 1; "D" := 1 ]} : gmap string nat)
  <= sum_values {[ "A" := 1; "B" := 1; "D" := 1 ]}.
Proof.
  destruct (extraction_consistent [broken_file; good_file] None w0
              [("A", stored "A" "a"); ("D", stored "D" "d")]
              {[ "A" := 1; "B" := 1; "D" := 1 ]}) as (H1 & _ & _ & H4 & H5).
  - vm_compute. reflexivity.
  - split; [exact H1|]. split; [exact H4 | exact H5].
Defined.

End ExtractorsExtras.

(** ** extractors.py: well-formed files among others *)

Module ExtractorsKeep.
Import Extractors Corpus ExtractorsFacts ExtractorsScan Observed Ledger Logs LedgerFacts
       ExtractorsMore Samples MoreSamples.

Lemma elem_of_concat {A} (x : A) (ls : list (list A)) :
  x ∈ concat ls <-> exists l, x ∈ l /\ l ∈ ls.
Proof.
  induction ls as [|l ls IH]; simpl.
  - split; [by intros ?%elem_of_nil | by intros (l & _ & ?%elem_of_nil)].
  - rewrite elem_of_app, IH. split.
    + intros [H|(l' & H1 & H2)]; [exists l; split; [done | left] | exists l'; split; [done | by right]].
    + intros (l' & H1 & [->|H2]%elem_of_cons); [by left | right; eauto].
Qed.

Lemma scan_track_recorded_keeps u t s : recorded u s -> recorded u (scan_track t s).2.
Proof. intros [r Hr]. exists r. by apply ExtractorsClaims.scan_track_keeps. Qed.

Lemma scan_complete_track t u s :
  complete t = true -> get_track_uri t = Some u ->
  (scan_track t s).1 = Done tt /\ recorded u (scan_track t s).2.
Proof.
  intros Ht Hu. destruct (complete_record t Ht) as [r Hr].
  rewrite scan_track_unfold, Hu, Hr, dict_mem_get. unfold recorded.
  destruct (dict_get u (unique_tracks s)) as [r0|] eqn:E.
  - rewrite bool_decide_eq_true_2 by eauto. simpl. rewrite E. eauto.
  - rewrite bool_decide_eq_false_2 by (by intros [? [=]]). simpl.
    rewrite dict_get_add, E, decide_True by done. eauto.
Qed.

Lemma scan_complete_returns t s : complete t = true -> (scan_track t s).1 = Done tt.
Proof.
  intros Ht. unfold complete in Ht. apply bool_decide_eq_true in Ht as [r Hr].
  pose proof (record_of_uri t r Hr) as Hu.
  by apply (scan_complete_track t (track_uri r) s); [apply bool_decide_eq_true_2; eauto|].
Qed.

Lemma well_formed_playlist ps p :
  forallb (fun p => match get_tracks p with
                    | Some ts => forallb complete ts
                    | None => false
                    end) ps = true ->
  p ∈ ps -> exists ts, get_tracks p = Some ts /\ Forall (fun t => complete t = true) ts.
Proof.
  rewrite forallb_forall. intros H Hp. specialize (H p ltac:(by apply list_elem_of_In)).
  destruct (get_tracks p) as [ts|]; [|done]. exists ts. split; [done|].
  apply Forall_forall. intros t Ht. rewrite forallb_forall in H. apply H.
  by apply list_elem_of_In.
Qed.

Lemma scan_well_formed_playlist p ts s :
  get_tracks p = Some ts -> Forall (fun t => complete t = true) ts ->
  (scan_playlist p s).1 = Done tt.
Proof.
  intros Hp Hts. unfold scan_playlist. rewrite Hp.
  change ((subscript (Some ts) ≫= for_each scan_track) s) with (for_each scan_track ts s).
  apply for_each_returns. intros t s' Ht. apply scan_complete_returns.
  rewrite Forall_forall in Hts. by apply Hts.
Qed.

Lemma scan_playlist_recorded_keeps u p s : recorded u s -> recorded u (scan_playlist p s).2.
Proof.
  intros H. unfold scan_playlist. destruct (get_tracks p) as [ts|]; [|done].
  change ((subscript (Some ts) ≫= for_each scan_track) s) with (for_each scan_track ts s).
  apply (for_each_preserves (recorded u)); [|done].
  intros t s'. apply scan_track_recorded_keeps.
Qed.

(** Every entry of a well-formed file has a record once the file is
    scanned, whatever was scanned before. *)
Lemma scan_well_formed_recorded f t u s :
  well_formed f = true -> t ∈ entries f -> get_track_uri t = Some u ->
  recorded u (scan_file f s).2.
Proof.
  intros Hf Ht Hu. destruct f as [e|[ps|]]; try done. simpl in Hf, Ht.
  apply elem_of_concat in Ht as (ts & Ht & Hts).
  apply list_elem_of_omap in Hts as (p & Hp & Hpts).
  rewrite scan_file_unfold.
  assert (recorded u (scan_document (Document (Some ps)) s).2) as H.
  { unfold scan_document.
    change ((json_load (Document (Some ps)) ≫= λ data, subscript data ≫= for_each scan_playlist) s)
      with (for_each scan_playlist ps s).
    apply (for_each_reaches (recorded u) scan_playlist ps p); [done| | |].
    - intros q s' Hq. destruct (well_formed_playlist ps q Hf Hq) as (qs & Hqs & Hall).
      by eapply scan_well_formed_playlist.
    - intros s'. destruct (well_formed_playlist ps p Hf Hp) as (ts' & Hts' & Hall).
      assert (ts' = ts) as -> by congruence.
      unfold scan_playlist. rewrite Hpts.
      change ((subscript (Some ts) ≫= for_each scan_track) s') with (for_each scan_track ts s').
      apply (for_each_reaches (recorded u) scan_track ts t); [done| | |].
      + intros t' s'' Ht'. apply scan_complete_returns. rewrite Forall_forall in Hall. by apply Hall.
      + intros s''. apply scan_complete_track; [|done]. rewrite Forall_forall in Hall. by apply Hall.
      + intros t' s''. apply scan_track_recorded_keeps.
    - intros q s'. apply scan_playlist_recorded_keeps. }
  destruct (scan_document (Document (Some ps)) s) as [[[]|e] s']; done.
Qed.

Lemma scan_file_recorded_keeps u f s : recorded u s -> recorded u (scan_file f s).2.
Proof. intros [r Hr]. exists r. by apply ExtractorsClaims.scan_file_keeps. Qed.

Lemma recorded_same_data u s1 s2 : same_data s1 s2 -> recorded u s1 -> recorded u s2.
Proof. unfold same_data, data, recorded. by intros [= -> _ _]. Qed.

(** X3. The entries of a well-formed file among those scanned are never lost
    to the faults of other files: the extraction returns, and each of their
    identifiers has a record in the mapping returned, stored under that
    identifier, and a positive count. *)
Theorem well_formed_files_kept data_dir max_files w f t u :
  f ∈ cap_files max_files data_dir -> well_formed f = true ->
  t ∈ entries f -> get_track_uri t = Some u ->
  exists unique frequency r n,
    (extract_unique_tracks_from_mpd data_dir max_files w).1 = Done (unique, frequency) /\
    dict_get u unique = Some r /\ track_uri r = u /\ frequency !! u = Some (S n).
Proof.
  intros Hf Hwf Ht Hu.
  destruct (extract_consistent data_dir max_files w) as (s & logs & Hc & Hsame & _ & _ & E).
  assert (recorded u s) as [r Hr].
  { eapply recorded_same_data; [symmetry; exact Hsame|].
    apply (for_each_reaches (recorded u) scan_file _ f); [done| | |].
    - intros f' s' _. apply scan_file_returns.
    - intros s'. by eapply scan_well_formed_recorded.
    - intros f' s'. apply scan_file_recorded_keeps. }
  assert (u ∈ dict_keys (unique_tracks s)) as Hin.
  { destruct (decide (u ∈ dict_keys (unique_tracks s))) as [|Hn]; [done|].
    apply dict_get_None in Hn. congruence. }
  destruct (consistent_counted s Hc u Hin) as [k Hk].
  pose proof (consistent_positive s Hc u k Hk). destruct k as [|k]; [lia|].
  exists (unique_tracks s), (track_frequency s), r, k.
  rewrite E. cbv zeta. rewrite decide_False.
  - split; [done|]. split; [done|]. split; [by apply Hc | done].
  - intros Hz. apply length_zero_iff_nil in Hz. rewrite Hz in Hr. done.
Qed.

Lemma well_formed_files_kept_witness :
  exists unique frequency r n,
    (extract_unique_tracks_from_mpd [broken_file; good_file] None w0).1
    = Done (unique, frequency) /\
    dict_get "D" unique = Some r /\ track_uri r = "D" /\ frequency !! "D" = Some (S n).
Proof.
  apply (well_formed_files_kept [broken_file; good_file] None w0 good_file (entry "D" "d") "D").
  - right. left.
  - reflexivity.
  - left.
  - reflexivity.
Defined.

End ExtractorsKeep.

(** ** extractors.py: the order of the keys, the cap on the files *)

Module ExtractorsOrder.
Import Extractors Corpus ExtractorsFacts ExtractorsScan Observed Ledger Logs LedgerFacts
       ExtractorsMore Samples MoreSamples ExtractorsKeep.

Lemma first_seen_elem us u : u ∈ first_seen us <-> u ∈ us.
Proof.
  induction us as [|v us IH]; simpl; [done|].
  rewrite !elem_of_cons, list_elem_of_filter, IH.
  destruct (decide (u = v)) as [->|Hne]; [by split; left|].
  split.
  - intros [?|[_ ?]]; [by left | by right].
  - intros [?|?]; [done | by right].
Qed.

Lemma first_seen_snoc us u :
  first_seen (us ++ [u]) = first_seen us ++ (if decide (u ∈ us) then [] else [u]).
Proof.
  induction us as [|v us IH]; simpl; [done|].
  rewrite IH, filter_app. f_equal. f_equal.
  destruct (decide (u = v)) as [->|Hne].
  - rewrite (decide_True (P := v ∈ v :: us)) by left.
    destruct (decide (v ∈ us)); [done|]. rewrite filter_cons, decide_False by (by intros ?). done.
  - destruct (decide (u ∈ us)) as [Hin|Hnin].
    + rewrite decide_True by (by right). done.
    + rewrite decide_False by (by intros [?|?]%elem_of_cons).
      rewrite filter_cons, decide_True by done. done.
Qed.

Lemma identifiers_app ts1 ts2 : identifiers (ts1 ++ ts2) = identifiers ts1 ++ identifiers ts2.
Proof. apply omap_app. Qed.

Lemma in_order_same_data ts s1 s2 : same_data s1 s2 -> in_order ts s1 -> in_order ts s2.
Proof. unfold same_data, data, in_order. by intros [= -> _ _]. Qed.

Lemma scan_track_in_order t ts s :
  complete t = true -> in_order ts s ->
  (scan_track t s).1 = Done tt /\ in_order (ts ++ [t]) (scan_track t s).2.
Proof.
  intros Ht Ho. split; [by apply scan_complete_returns|].
  destruct (complete_record t Ht) as [r Hr].
  pose proof (record_of_uri t r Hr) as Hu.
  unfold in_order in *. rewrite scan_track_unfold, Hu, Hr.
  rewrite identifiers_app. unfold identifiers at 2. simpl. rewrite Hu. simpl.
  rewrite first_seen_snoc. unfold dict_mem. rewrite Ho.
  destruct (decide (track_uri r ∈ identifiers ts)) as [Hin|Hnin].
  - rewrite bool_decide_eq_true_2 by (by apply first_seen_elem). simpl.
    by rewrite Ho, app_nil_r.
  - rewrite bool_decide_eq_false_2 by (by rewrite first_seen_elem). simpl.
    by rewrite dict_keys_add, Ho.
Qed.

Lemma scan_tracks_in_order ts' ts s :
  Forall (fun t => complete t = true) ts' -> in_order ts s ->
  (for_each scan_track ts' s).1 = Done tt /\ in_order (ts ++ ts') (for_each scan_track ts' s).2.
Proof.
  intros H. revert ts s. induction H as [|t ts' Ht _ IH]; intros ts s Ho.
  - simpl. by rewrite app_nil_r.
  - rewrite for_each_cons. destruct (scan_track_in_order t ts s Ht Ho) as [Hret Ho1].
    destruct (scan_track t s) as [[[]|e] s1]; [|done]. simpl in Ho1.
    replace (ts ++ t :: ts') with ((ts ++ [t]) ++ ts') by (by rewrite <- app_assoc).
    by apply IH.
Qed.

Lemma scan_playlists_in_order ps ts s :
  forallb (fun p => match get_tracks p with
                    | Some ts => forallb complete ts
                    | None => false
                    end) ps = true ->
  in_order ts s ->
  (for_each scan_playlist ps s).1 = Done tt /\
  in_order (ts ++ concat (omap get_tracks ps)) (for_each scan_playlist ps s).2.
Proof.
  revert ts s. induction ps as [|p ps IH]; intros ts s Hps Ho.
  - simpl. by rewrite app_nil_r.
  - assert (p ∈ p :: ps) as Hin by left.
    destruct (well_formed_playlist (p :: ps) p Hps Hin) as (ts' & Hp & Hall).
    simpl in Hps. apply andb_prop in Hps as [_ Hps].
    assert (scan_playlist p s = for_each scan_track ts' s) as Hsp
      by (unfold scan_playlist; by rewrite Hp).
    rewrite for_each_cons, Hsp.
    destruct (scan_tracks_in_order ts' ts s Hall Ho) as [Hret Ho1].
    destruct (for_each scan_track ts' s) as [[[]|e] s1]; [|done]. simpl in Ho1.
    simpl. rewrite Hp. simpl. rewrite app_assoc. by apply IH.
Qed.

Lemma scan_document_playlists ps s :
  scan_document (Document (Some ps)) s = for_each scan_playlist ps s.
Proof. reflexivity. Qed.

Lemma scan_file_in_order f ts s :
  well_formed f = true -> in_order ts s -> in_order (ts ++ entries f) (scan_file f s).2.
Proof.
  intros Hf Ho. destruct f as [e|[ps|]]; try done. simpl in Hf.
  rewrite scan_file_unfold, scan_document_playlists.
  destruct (scan_playlists_in_order ps ts s Hf Ho) as [Hret Ho1].
  destruct (for_each scan_playlist ps s) as [[[]|e] s1]; done.
Qed.

Lemma scan_files_in_order fs ts s :
  Forall (fun f => well_formed f = true \/ fails_untallied f = true) fs ->
  in_order ts s -> in_order (ts ++ parsed_entries fs) (for_each scan_file fs s).2.
Proof.
  intros H. revert ts s. induction H as [|f fs Hf _ IH]; intros ts s Ho.
  - simpl. unfold parsed_entries. simpl. by rewrite app_nil_r.
  - rewrite for_each_cons, parsed_entries_cons.
    pose proof (scan_file_returns f s) as Hret. destruct Hf as [Hf|Hf].
    + pose proof (scan_file_in_order f ts s Hf Ho) as Ho1.
      destruct (scan_file f s) as [[[]|e] s1]; [|done]. simpl in Ho1.
      rewrite Hf, app_assoc. by apply IH.
    + pose proof (scan_file_fails_untallied f s Hf) as Hsame.
      rewrite (fails_untallied_not_well_formed f Hf).
      destruct (scan_file f s) as [[[]|e] s1]; [|done]. simpl in Hsame.
      apply IH. by eapply in_order_same_data.
Qed.

(** X4. Over files that are well-formed or fail before any entry is tallied,
    the keys of the mapping returned are the distinct identifiers in the
    order in which the scan first meets them, and the records follow the same
    order: [list(unique_tracks.keys())] and [list(unique_tracks.values())]
    line up. *)
Theorem keys_in_order_of_first_occurrence data_dir max_files w :
  Forall (fun f => well_formed f = true \/ fails_untallied f = true)
         (cap_files max_files data_dir) ->
  parsed_entries (cap_files max_files data_dir) ≠ [] ->
  exists unique frequency,
    (extract_unique_tracks_from_mpd data_dir max_files w).1 = Done (unique, frequency) /\
    dict_keys unique = first_seen (identifiers (parsed_entries (cap_files max_files data_dir))) /\
    (track_uri <$> unique.*2) = dict_keys unique.
Proof.
  intros Hfs Hne.
  destruct (ExtractorsClaims.extract_mirrors data_dir max_files w Hfs Hne) as (s0 & _ & E0).
  destruct (extract_consistent data_dir max_files w) as (s & logs & Hc & Hsame & _ & _ & E).
  rewrite E in E0 |- *. cbv zeta in *.
  destruct (decide (length (unique_tracks s) = 0)); [done|]. simpl.
  exists (unique_tracks s), (track_frequency s). split; [done|]. split.
  - pose proof (scan_files_in_order (cap_files max_files data_dir) [] (init w) Hfs eq_refl) as Ho.
    simpl in Ho. eapply in_order_same_data in Ho; [exact Ho | symmetry; exact Hsame].
  - pose proof (consistent_uri s Hc) as Huri. pose proof (consistent_keys s Hc) as Hnd.
    revert Huri Hnd. unfold dict_keys. generalize (unique_tracks s). clear.
    induction d as [|[u r] d IH]; simpl; [done|]. intros Huri Hnd.
    apply NoDup_cons in Hnd as [Hu Hnd].
    rewrite (Huri u r) by (by rewrite decide_True). f_equal. apply IH; [|done].
    intros u' r' Hr'. apply Huri. rewrite decide_False; [done|].
    intros ->. apply Hu. destruct (decide (u' ∈ d.*1)) as [|Hn]; [done|].
    apply (dict_get_None u' d) in Hn. congruence.
Qed.

Lemma keys_in_order_of_first_occurrence_witness :
  exists unique frequency,
    (extract_unique_tracks_from_mpd mixed_dir None w0).1 = Done (unique, frequency) /\
    dict_keys unique = ["A"; "B"; "C"].
Proof.
  destruct (keys_in_order_of_first_occurrence mixed_dir None w0)
    as (unique & frequency & E & Hk & _).
  - apply Forall_cons_2; [left; reflexivity|].
    apply Forall_cons_2; [right; reflexivity|].
    apply Forall_cons_2; [left; reflexivity|]. apply Forall_nil_2.
  - vm_compute. discriminate.
  - exists unique, frequency. split; [exact E|]. rewrite Hk. vm_compute. reflexivity.
Defined.

(** X5. The cap [max_files]: a positive [k] makes the scan read the first [k]
    files only; [0] is no cap at all, log line included, since
    [if max_files:] is false for it; a negative [k] drops the last [-k]
    files. *)
Theorem max_files_cap data_dir w :
  (forall k, (0 < k)%Z ->
     (extract_unique_tracks_from_mpd data_dir (Some k) w).1 =
     (extract_unique_tracks_from_mpd (take (Z.to_nat k) data_dir) None w).1) /\
  extract_unique_tracks_from_mpd data_dir (Some 0%Z) w =
  extract_unique_tracks_from_mpd data_dir None w /\
  (forall k, (k < 0)%Z ->
     (extract_unique_tracks_from_mpd data_dir (Some k) w).1 =
     (extract_unique_tracks_from_mpd
        (take (length data_dir - Z.to_nat (- k)) data_dir) None w).1).
Proof.
  split; [|split].
  - intros k Hk. rewrite !extract_result. unfold cap_files, capped, slice_to. simpl.
    destruct (Z.eqb_spec k 0); [lia|]. simpl.
    destruct (Z.leb_spec 0 k); [done | lia].
  - reflexivity.
  - intros k Hk. rewrite !extract_result. unfold cap_files, capped, slice_to. simpl.
    destruct (Z.eqb_spec k 0); [lia|]. simpl.
    destruct (Z.leb_spec 0 k); [lia | done].
Qed.

End ExtractorsOrder.

(** ** spotify_client.py: the construction of the client *)

Module ConstructionFacts.
Import SpotifyClient Observed Logs Probe Samples.

Ltac run_py :=
  unfold mbind, Py_bind, bind, mret, Py_ret, ret, raise, try_except, check, logging,
    logging_with, emit, modify, count_request, sp_search, sp_audio_features; simpl.

Ltac refused_with e evs k logs :=
  eexists; exists evs, logs, k; split;
  [simpl; rewrite <- ?app_assoc; simpl; rewrite (Nat.add_comm (requests _)); reflexivity
  |split; [done|split; [done|first [left; done | right; done]]]].

Ltac refused e evs k :=
  first
    [ refused_with e evs k constr:([Log ERROR "Connection test failed" []])
    | refused_with e evs k
        constr:([Log ERROR "401 Unauthorized: Invalid Client ID or Client Secret" []])
    | refused_with e evs k
        constr:([Log ERROR "403 Forbidden: App may not have proper permissions" [];
                 Log ERROR "   Check your app settings in Spotify Developer Dashboard" []])
    | refused_with e evs k constr:([Log ERROR "Spotify API Error" []]) ].

Ltac refused_any e evs k :=
  destruct e as [se| | | | | | | |]; simpl;
  [ destruct (http_status se =? 401)%Z; simpl;
    [|destruct (http_status se =? 403)%Z; simpl] | .. ];
  refused e evs k.

(** [_test_connection] in closed form. *)
Lemma test_connection_run self w :
  if passes (sp self) (requests w) then
    _test_connection self w =
    (Done tt, {| trace := trace w ++ [Search; Request [test_track_id];
                                      Log INFO "API connection and audio features test passed" []];
                 requests := S (S (requests w)) |})
  else
    exists e evs logs k,
      _test_connection self w =
      (Raised e, {| trace := trace w ++ evs ++ logs; requests := requests w + k |}) /\
      logs <> [] /\ forallb is_log logs = true /\
      (evs = [Search] /\ k = 1 /\ search (sp self) (requests w) <> Found true \/
       evs = [Search; Request [test_track_id]] /\ k = 2 /\
       search (sp self) (requests w) = Found true).
Proof.
  unfold passes, _test_connection, test_track_id. run_py.
  destruct (search (sp self) (requests w)) as [[|]|e] eqn:Hs; simpl.
  - destruct (audio_features (sp self) (S (requests w)) ["4uLU6hMCjMI75M1A2tKUQC"])
      as [[|first rest]|e] eqn:Ha; simpl.
    + refused OtherError constr:([Search; Request ["4uLU6hMCjMI75M1A2tKUQC"]]) constr:(2).
    + destruct (bool_decide (is_Some (found first))); simpl.
      * by rewrite <- !app_assoc.
      * refused OtherError constr:([Search; Request ["4uLU6hMCjMI75M1A2tKUQC"]]) constr:(2).
    + refused_any e constr:([Search; Request ["4uLU6hMCjMI75M1A2tKUQC"]]) constr:(2).
  - refused OtherError constr:([Search]) constr:(1).
  - refused_any e constr:([Search]) constr:(1).
Qed.

End ConstructionFacts.

Module ConstructionExtras.
Import SpotifyClient Observed Logs Probe Samples ConstructionFacts.

(** X6. The construction of the client, case by case. An empty client id or
    secret raises [ValueError] with no call to the service. Otherwise, if the
    service passes the connection test, the collector is returned after
    exactly two calls, the search and the features of the test track.
    Otherwise the construction raises, after the log lines of the test and
    one of its own; when the search fails or finds nothing, the features of
    the test track are not asked for. *)
Theorem construction service client_id client_secret w :
  if bool_decide (client_id = "") || bool_decide (client_secret = "") then
    __init__ service client_id client_secret w =
    (Raised ValueError, extend [Log ERROR "Failed to initialize Spotify client" []] w)
  else if passes service (requests w) then
    __init__ service client_id client_secret w =
    (Done {| sp := service |},
     {| trace := trace w ++ [Search; Request [test_track_id];
                             Log INFO "API connection and audio features test passed" [];
                             Log SUCCESS "Spotify API client initialized successfully" []];
        requests := S (S (requests w)) |})
  else
    exists e evs logs k,
      __init__ service client_id client_secret w =
      (Raised e,
       {| trace := trace w ++ evs ++ logs
                   ++ [Log ERROR "Failed to initialize Spotify client" []];
          requests := requests w + k |}) /\
      logs <> [] /\ forallb is_log logs = true /\
      (evs = [Search] /\ k = 1 /\ search service (requests w) <> Found true \/
       evs = [Search; Request [test_track_id]] /\ k = 2 /\
       search service (requests w) = Found true).
Proof.
  pose proof (test_connection_run {| sp := service |} w) as H. simpl sp in H.
  destruct (bool_decide (client_id = "") || bool_decide (client_secret = "")) eqn:Hc.
  { unfold __init__, try_except. rewrite run_bind, Hc. done. }
  destruct (passes service (requests w)).
  - unfold __init__, try_except. rewrite run_bind, Hc. unfold ret at 1. cbv beta iota zeta.
    rewrite run_bind, H. cbv beta iota.
    unfold logging, logging_with, emit, modify, mbind, Py_bind, bind, mret, Py_ret, ret.
    simpl. by rewrite <- app_assoc.
  - destruct H as (e & evs & logs & k & E & Hne & Hl & Hk).
    exists e, evs, logs, k. split; [|done].
    unfold __init__, try_except. rewrite run_bind, Hc. unfold ret at 1. cbv beta iota zeta.
    rewrite run_bind, E. cbv beta iota.
    unfold logging, logging_with, emit, modify, mbind, Py_bind, bind, raise. simpl.
    by rewrite <- !app_assoc.
Qed.

End ConstructionExtras.

(** ** spotify_client.py: more on one batch lookup *)

Module BatchExtras.
Import MoreSamples.
Import SpotifyClient Observed Logs Probe Samples ClientFacts.

Lemma last_cons_cons {A} (x y : A) l d : List.last (x :: y :: l) d = List.last (y :: l) d.
Proof. done. Qed.

(** The last piece of a split holds no colon. *)
Lemma split_colon_last_free s : colon_free (List.last (split_colon s) "") = true.
Proof.
  induction s as [|c s IH]; [done|]. simpl.
  pose proof (ClientClaims.split_colon_nonempty s) as Hne.
  destruct (Ascii.eqb c ":") eqn:Hc.
  - destruct (split_colon s) as [|seg segs]; [done|]. by rewrite last_cons_cons.
  - destruct (split_colon s) as [|seg [|seg' segs]]; [done| |].
    + simpl in *. by rewrite Hc, IH.
    + by rewrite last_cons_cons.
Qed.

(** A text that starts with the prefix holds a colon. *)
Lemma prefixed_has_colon s : String.prefix "spotify:track:" s = true -> colon_free s = false.
Proof.
  do 8 (destruct s as [|? s]; cbn [String.prefix]; [done|];
        match goal with |- context [ascii_dec ?a ?b] => destruct (ascii_dec a b) as [<-|]; [|done] end).
  done.
Qed.

(** X7. Taking the identifier out of a URI twice gives what taking it out
    once gives, and what is taken out of a URI that starts with
    [spotify:track:] holds no colon. *)
Theorem extract_track_id_idempotent track_uri :
  extract_track_id_from_uri (extract_track_id_from_uri track_uri)
  = extract_track_id_from_uri track_uri /\
  (String.prefix "spotify:track:" track_uri = true ->
   colon_free (extract_track_id_from_uri track_uri) = true).
Proof.
  unfold extract_track_id_from_uri at 2 3 4.
  destruct (String.prefix "spotify:track:" track_uri) eqn:Hp.
  - pose proof (split_colon_last_free track_uri) as Hfree. split; [|done].
    unfold extract_track_id_from_uri.
    destruct (String.prefix "spotify:track:" (List.last (split_colon track_uri) "")) eqn:Hp';
      [|done].
    apply prefixed_has_colon in Hp'. congruence.
  - split; [|done]. unfold extract_track_id_from_uri. by rewrite Hp.
Qed.

Lemma requested_app tr1 tr2 : requested (tr1 ++ tr2) = requested tr1 ++ requested tr2.
Proof. apply omap_app. Qed.

Lemma sleeps_app tr1 tr2 : sleeps (tr1 ++ tr2) = sleeps tr1 ++ sleeps tr2.
Proof. apply omap_app. Qed.

(** What the two handlers leave in the world: log lines and at most one wait. *)
Lemma on_error_world e w :
  exists evs, (on_error e w).2 = extend evs w /\ quiet evs /\ length (sleeps evs) <= 1.
Proof.
  destruct e as [se| | | | | | | |];
    try (eexists; rewrite on_error_other by done; split; [done|]; split; [done | simpl; lia]).
  unfold on_error. destruct (http_status se =? 429)%Z.
  - unfold retry_after_of. destruct (headers se) as [hs|].
    + destruct (default (Numeral 60) (hs !! "Retry-After")) as [n|txt].
      * unfold mbind, Py_bind, bind, mret, Py_ret, ret, logging, logging_with, emit, modify,
          time_sleep. simpl. destruct (n <? 0)%Z.
        -- exists [Log WARNING "Rate limited. Waiting" [inject_Z n]].
           split; [done|]. split; [done | simpl; lia].
        -- exists [Log WARNING "Rate limited. Waiting" [inject_Z n]; Sleep (inject_Z n)].
           unfold emit, modify, extend. simpl. rewrite <- app_assoc.
           split; [done|]. split; [done | simpl; lia].
      * exists []. unfold extend. rewrite app_nil_r. split; [by destruct w|].
        split; [done | simpl; lia].
    + exists []. unfold extend. rewrite app_nil_r. split; [by destruct w|].
      split; [done | simpl; lia].
  - exists [Log ERROR "Spotify API error" [inject_Z (http_status se)]].
    split; [done|]. split; [done | simpl; lia].
Qed.

(** X8. One call of [get_audio_features_batch], however it ends, sends no
    request for an empty list and exactly one otherwise, for the first 100
    identifiers at most; it makes no lookup of its own, writes no file, and
    waits at most once. *)
Theorem batch_requests self track_uris w :
  exists evs,
    (get_audio_features_batch self track_uris w).2 =
    {| trace := trace w ++ Lookup track_uris :: evs;
       requests := requests w + (if decide (track_uris = []) then 0 else 1) |} /\
    requested evs =
      (if decide (track_uris = []) then []
       else [extract_track_id_from_uri <$> take 100 track_uris]) /\
    lookups evs = [] /\ dumps evs = [] /\ length (sleeps evs) <= 1.
Proof.
  destruct (decide (track_uris = [])) as [->|Hne].
  { exists []. rewrite batch_empty. unfold extend. rewrite Nat.add_0_r.
    split; [done|]. split; [done|]. split; [done|]. split; [done | simpl; lia]. }
  rewrite batch_unfold by done. cbv zeta.
  set (ids := extract_track_id_from_uri <$> take 100 track_uris).
  set (w2 := {| trace := _; requests := _ |}).
  assert (forall e, exists evs,
            (on_error e w2).2 =
            {| trace := trace w ++ Lookup track_uris :: evs; requests := requests w + 1 |} /\
            requested evs = [ids] /\ lookups evs = [] /\ dumps evs = [] /\
            length (sleeps evs) <= 1) as Herr.
  { intros e. destruct (on_error_world e w2) as (evs & E & (Hl & Hr & Hd) & Hs).
    exists (Request ids :: evs). rewrite E. split.
    { unfold extend, w2. simpl. rewrite <- app_assoc. simpl. f_equal. lia. }
    split; [simpl; by rewrite Hr|]. split; [done|]. split; [done|]. done. }
  destruct (audio_features (sp self) (requests w) ids) as [fl|e]; [|apply Herr].
  destruct (map_back (take 100 track_uris) 0 fl ∅) as [m|e] eqn:Hmb; [|apply Herr].
  exists [Request ids]. split; [unfold w2; simpl; f_equal; lia|].
  split; [done|]. split; [done|]. split; [done | simpl; lia].
Qed.


(** An answer with more slots than identifiers, or with a feature object
    that lacks a field, makes the loop over the answer fault. *)
Lemma map_back_faults uris fl i m :
  i <= length uris ->
  length uris < i + length fl \/ Exists (fun f => slot_ok f = false) fl ->
  exists e, map_back uris i fl m = Raised e.
Proof.
  revert i m. induction fl as [|f fl IH]; intros i m Hi Hbad.
  { destruct Hbad as [Hlen|Hex]; [simpl in Hlen; lia | by apply Exists_nil in Hex]. }
  simpl. destruct (uris !! i) as [uri|] eqn:Hu; [|by eexists].
  apply lookup_lt_Some in Hu.
  assert (slot_ok f = true -> length uris < S i + length fl \/
                              Exists (fun f => slot_ok f = false) fl) as Hrest.
  { intros Hok. destruct Hbad as [Hlen|Hex]; [left; simpl in Hlen; lia|].
    apply Exists_cons in Hex as [Hf|Hex]; [congruence | by right]. }
  unfold slot_ok in Hrest. destruct (found f) as [d|].
  - destruct (translate d) as [r|]; [|by eexists].
    apply IH; [lia|]. apply Hrest. by apply bool_decide_eq_true_2.
  - apply IH; [lia | by apply Hrest].
Qed.

(** X10. An answer with more slots than identifiers sent, or with a feature
    object that lacks one of the twelve fields, voids the whole batch: the
    fault is caught and logged, and the empty map is returned, so that the
    good slots of the answer are lost with the bad one. *)
Theorem malformed_answer_voids_batch self track_uris w features_list :
  track_uris <> [] ->
  audio_features (sp self) (requests w) (extract_track_id_from_uri <$> take 100 track_uris)
  = Answer features_list ->
  length (take 100 track_uris) < length features_list \/
  Exists (fun f => slot_ok f = false) features_list ->
  get_audio_features_batch self track_uris w =
  (Done ∅,
   {| trace := trace w ++ [Lookup track_uris;
                           Request (extract_track_id_from_uri <$> take 100 track_uris);
                           Log ERROR "Unexpected error getting audio features" []];
      requests := S (requests w) |}).
Proof.
  intros Hne Hresp Hbad. rewrite batch_unfold by done. cbv zeta. rewrite Hresp.
  destruct (map_back_faults (take 100 track_uris) features_list 0 ∅) as [e He]; [lia|done|].
  rewrite He. destruct (ClientClaims.map_back_raises _ _ _ _ _ He) as [-> | ->];
    rewrite on_error_other by done; unfold extend; simpl; by rewrite <- app_assoc.
Qed.

Lemma malformed_answer_voids_batch_witness :
  get_audio_features_batch {| sp := partial |} ["spotify:track:a"; "spotify:track:b"] w0 =
  (Done ∅,
   {| trace := [Lookup ["spotify:track:a"; "spotify:track:b"]; Request ["a"; "b"];
                Log ERROR "Unexpected error getting audio features" []];
      requests := 1 |}).
Proof.
  apply (malformed_answer_voids_batch {| sp := partial |}
           ["spotify:track:a"; "spotify:track:b"] w0
           [Some sample_features; Some {[ "tempo" := JInt 120 ]}]).
  - discriminate.
  - reflexivity.
  - right. apply Exists_cons_tl, Exists_cons_hd. vm_compute. reflexivity.
Defined.

End BatchExtras.

(** ** spotify_client.py: more on the whole run *)

Module RunMore.
Import SpotifyClient Observed Logs ClientFacts BatchFacts LoopFacts RunFacts Accounting Samples.

Lemma covered_init w : covered [] (locals (init w)).
Proof.
  split; [|split]; simpl.
  - intros u. rewrite lookup_empty. by intros [? [=]].
  - intros u H. by apply elem_of_nil in H.
  - intros u H. by apply elem_of_nil in H.
Qed.

(** One more batch, however its lookup ends and whatever the pacing delay:
    its identifiers are accounted for, and so are the earlier ones. *)
Lemma covered_step processed batch o negative l :
  covered processed l ->
  (forall m u, o = Done m -> is_Some (m !! u) -> u ∈ batch) ->
  covered (processed ++ batch) (step_locals o negative batch l).
Proof.
  destruct l as [[features failed] n]. intros (Hdom & Hfail & Hacc) Hkeys. simpl in *.
  assert (covered (processed ++ batch) (features, failed ++ batch, n)) as Hall_failed.
  { split; [|split]; simpl.
    - intros u Hu. apply elem_of_app. left. by apply Hdom.
    - intros u [Hu|Hu]%elem_of_app; apply elem_of_app; [left; by apply Hfail | by right].
    - intros u [Hu|Hu]%elem_of_app.
      + destruct (Hacc u Hu) as [Hp|Hf]; [by left | right; apply elem_of_app; by left].
      + right. apply elem_of_app. by right. }
  destruct o as [bf|e]; simpl; [|done].
  destruct (decide (bf ≠ ∅)) as [Hbf|Hbf].
  - split; [|split]; simpl.
    + intros u Hu. apply elem_of_app. destruct (bf !! u) as [v|] eqn:E.
      * right. eapply Hkeys; [done|]. by rewrite E.
      * left. apply Hdom. by rewrite lookup_union_r in Hu.
    + intros u [[Hu|Hu]%elem_of_app|Hu]%elem_of_app; apply elem_of_app.
      * left. by apply Hfail.
      * right. by apply list_elem_of_filter in Hu as [_ ?].
      * destruct negative; [by right | by apply elem_of_nil in Hu].
    + assert (forall u, u ∈ batch ->
                accounted (bf ∪ features)
                  ((failed ++ filter (fun uri => populated (bf !! uri) = false) batch)
                   ++ (if negative then batch else [])) u) as Hbatch.
      { intros u Hu. destruct (populated (bf !! u)) eqn:Hp.
        - left. destruct (bf !! u) as [[r|]|] eqn:E; try done.
          by rewrite (lookup_union_Some_l _ _ _ _ E).
        - right. apply elem_of_app. left. apply elem_of_app. right.
          by apply list_elem_of_filter. }
      intros u [Hu|Hu]%elem_of_app; [|by apply Hbatch].
      destruct (bf !! u) as [v|] eqn:E.
      * apply Hbatch. eapply Hkeys; [done|]. by rewrite E.
      * destruct (Hacc u Hu) as [Hp|Hf].
        -- left. by rewrite lookup_union_r.
        -- right. apply elem_of_app. left. apply elem_of_app. by left.
  - destruct negative; [|by rewrite app_nil_r].
    destruct Hall_failed as (H1 & H2 & H3). split; [|split]; simpl in *.
    + done.
    + intros u [Hu|Hu]%elem_of_app; [by apply H2 | apply elem_of_app; by right].
    + intros u Hu. destruct (H3 u Hu) as [?|?]; [by left | right; apply elem_of_app; by left].
Qed.

Lemma success_count_le (features : gmap string (option AudioFeatureRecord)) :
  success_count features <= size features.
Proof.
  unfold success_count. rewrite <- (length_map_to_list features), <- (length_fmap snd).
  generalize ((map_to_list features).*2). intros l.
  induction l as [|[r|] l IH]; [done| |].
  - change (omap id (Some r :: l)) with (r :: omap id l). simpl. lia.
  - change (omap id (None :: l)) with (omap id l). simpl. lia.
Qed.

Lemma size_list_to_set_le (l : list string) : size (list_to_set l : gset string) <= length l.
Proof.
  induction l as [|x l IH]; simpl; [done|].
  rewrite size_union_alt, size_singleton.
  assert (size (list_to_set l ∖ {[x]} : gset string) <= size (list_to_set l : gset string));
    [|lia].
  apply subseteq_size. apply subseteq_difference_l. done.
Qed.

(** The records collected are no more than the identifiers submitted. *)
Lemma covered_count processed l :
  covered processed l -> success_count l.1.1 <= length processed.
Proof.
  intros (Hdom & _ & _). etrans; [apply success_count_le|].
  etrans; [|apply size_list_to_set_le]. rewrite <- size_dom.
  apply subseteq_size. intros u Hu. apply elem_of_list_to_set, Hdom. by apply elem_of_dom.
Qed.

Section Run.
Context (self : SpotifyAudioFeatureCollector) (uris : list string) (out : string)
        (b : nat) (delay : Q) (total : Z).

(** After [n] batches, the identifiers of those batches are accounted for. *)
Lemma loop_covered n (s : frame) :
  covered [] (locals s) ->
  covered (take (n * b) uris)
    (locals (for_each (process_batch self uris out (Z.of_nat b) delay total) (starts b n) s).2).
Proof.
  intros Hs. induction n as [|n IH]; [done|].
  rewrite loop_S. set (s1 := (for_each _ (starts b n) s).2) in *.
  destruct (body_run self uris out b delay total n s1) as (evs & s2 & E & Hloc & _).
  rewrite E. change ((Done (), s2).2) with s2. rewrite Hloc.
  replace (S n * b) with (n * b + b) by lia.
  rewrite <- (take_take_drop uris (n * b) b). apply covered_step; [done|].
  intros m u Hm Hu.
  destruct (batch_run self (chunk b uris n) (io s1)) as (_ & _ & _ & _ & Hkeys).
  by eapply Hkeys.
Qed.

End Run.

(** X11. For a positive batch size and a list that is not empty, repetitions
    allowed, whatever the pacing delay and whatever the service does: the run
    returns; the feature map and the failure list hold submitted identifiers
    only; every submitted identifier has a populated record or is on the
    failure list, which is written when it is not empty; and the records
    collected are no more than the identifiers submitted. *)
Theorem identifiers_accounted self track_uris output_file batch_size delay w :
  (0 < batch_size)%Z -> track_uris <> [] ->
  exists features failed earlier w',
    collect_all_audio_features self track_uris output_file batch_size delay w
    = (Done features, w') /\
    dumps (trace w') =
      earlier ++ saved features output_file ++
      (if decide (failed = []) then []
       else [(output_file +:+ ".failed", FailedDoc failed)]) /\
    (forall u, is_Some (features !! u) -> u ∈ track_uris) /\
    (forall u, u ∈ failed -> u ∈ track_uris) /\
    (forall u, u ∈ track_uris -> accounted features failed u) /\
    success_count features <= length track_uris.
Proof.
  intros HB Hne. assert (0 < Z.to_nat batch_size) as Hb by lia.
  rewrite RunClaims.collect_unfold. rewrite <- (Z2Nat.id batch_size) by lia.
  destruct (run_collection_unfold self track_uris output_file (Z.to_nat batch_size) delay
              (init w) Hb) as (s0 & Hl0 & _ & _ & E).
  rewrite E. set (total := (_ `div` _)%Z).
  pose proof (loop_covered self track_uris output_file (Z.to_nat batch_size) delay total
                (ceil_div (length track_uris) (Z.to_nat batch_size)) s0) as Hcov.
  rewrite Hl0 in Hcov. specialize (Hcov (covered_init w)).
  rewrite take_ge in Hcov by (by apply ceil_div_covers).
  set (s1 := (for_each _ _ s0).2) in *.
  destruct (finish_nonempty track_uris output_file total s1 Hne)
    as (evs & s2 & E2 & _ & Htr & _ & Hdumps).
  rewrite E2. exists (all_features s1), (failed_tracks s1), (dumps (trace (io s1))), (io s2).
  split; [done|]. split; [by rewrite Htr, dumps_app, Hdumps|].
  destruct Hcov as (H1 & H2 & H3). split; [done|]. split; [done|]. split; [done|].
  by apply (covered_count track_uris (locals s1)).
Qed.

Lemma identifiers_accounted_witness :
  exists features failed earlier w',
    collect_all_audio_features {| sp := flaky |} ["a"; "a"; "b"] "out/f.json" 1 (-1) w0
    = (Done features, w') /\
    dumps (trace w') =
      earlier ++ saved features "out/f.json" ++
      (if decide (failed = []) then [] else [("out/f.json" +:+ ".failed", FailedDoc failed)]) /\
    accounted features failed "a" /\ accounted features failed "b".
Proof.
  destruct (identifiers_accounted {| sp := flaky |} ["a"; "a"; "b"] "out/f.json" 1 (-1) w0)
    as (features & failed & earlier & w' & E & Hd & _ & _ & Hacc & _).
  - lia.
  - discriminate.
  - exists features, failed, earlier, w'. split; [exact E|]. split; [exact Hd|].
    split; apply Hacc; [left | right; right; left].
Defined.

End RunMore.

Module RunRequests.
Import SpotifyClient Observed Logs ClientFacts BatchFacts LoopFacts RunFacts Accounting Samples
       BatchExtras.

Lemma logs_quiet evs :
  forallb is_log evs = true ->
  lookups evs = [] /\ requested evs = [] /\ dumps evs = [] /\ sleeps evs = [].
Proof.
  induction evs as [|ev evs IH]; [done|]. simpl. intros [Hev Hevs]%andb_prop.
  destruct ev; try done. by apply IH.
Qed.

(** The lookup of a batch that is not empty sends one request, for its
    first 100 identifiers. *)
Lemma batch_requested self uris w :
  uris <> [] ->
  requested (trace (get_audio_features_batch self uris w).2)
  = requested (trace w) ++ [extract_track_id_from_uri <$> take 100 uris].
Proof.
  intros Hne. rewrite batch_unfold by done. cbv zeta.
  set (ids := extract_track_id_from_uri <$> take 100 uris).
  set (w2 := {| trace := _; requests := _ |}).
  assert (requested (trace w2) = requested (trace w) ++ [ids]) as H2.
  { unfold w2. simpl. by rewrite requested_app. }
  assert (forall e, requested (trace (on_error e w2).2) = requested (trace w) ++ [ids]) as Herr.
  { intros e. destruct (on_error_world e w2) as (evs & E & (_ & Hr & _) & _).
    rewrite E. unfold extend. simpl trace. by rewrite requested_app, Hr, app_nil_r. }
  destruct (audio_features (sp self) (requests w) ids) as [fl|e]; [|apply Herr].
  destruct (map_back (take 100 uris) 0 fl ∅) as [m|e]; [done | apply Herr].
Qed.

Lemma chunk_nonempty {A} b (xs : list A) k :
  0 < b -> k < ceil_div (length xs) b -> chunk b xs k <> [].
Proof.
  intros Hb Hk Hnil. apply (f_equal length) in Hnil. unfold chunk in Hnil.
  rewrite length_take, length_drop in Hnil. simpl in Hnil.
  pose proof (ceil_div_tight (length xs) b k Hb Hk). lia.
Qed.

Section Loop.
Context (self : SpotifyAudioFeatureCollector) (uris : list string) (out : string)
        (b : nat) (delay : Q) (total : Z).

(** The requests of the loop are the first 100 identifiers of each chunk,
    in order. *)
Lemma loop_requested n (s : frame) :
  0 < b -> n <= ceil_div (length uris) b ->
  requested (trace (io (for_each (process_batch self uris out (Z.of_nat b) delay total)
                          (starts b n) s).2))
  = requested (trace (io s))
    ++ ((fun k => extract_track_id_from_uri <$> take 100 (chunk b uris k)) <$> seq 0 n).
Proof.
  intros Hb. induction n as [|n IH]; intros Hn; [simpl; by rewrite app_nil_r|].
  rewrite loop_S. set (s1 := (for_each _ (starts b n) s).2) in *.
  destruct (body_run self uris out b delay total n s1) as (evs & s2 & E & _ & Htr & _ & Hr).
  rewrite E. change ((Done (), s2).2) with s2.
  rewrite Htr, requested_app, Hr, app_nil_r, batch_requested by (apply chunk_nonempty; lia).
  rewrite IH by lia. by rewrite seq_S, fmap_app, app_assoc.
Qed.

End Loop.

Lemma set_io_extend evs1 evs2 (s : frame) :
  set_io (extend evs2 (io (set_io (extend evs1 (io s)) s))) (set_io (extend evs1 (io s)) s)
  = set_io (extend (evs1 ++ evs2) (io s)) s.
Proof. unfold set_io, extend. simpl. by rewrite app_assoc. Qed.

(** The run begins with two log lines; a batch size of zero ends it there. *)
Lemma run_collection_begin self uris out B delay (s : frame) :
  run_collection self uris out B delay s =
  let s0 := set_io (extend [Log INFO "Collecting audio features for tracks"
                              [inject_Z (Z.of_nat (length uris))];
                            Log INFO "Using batch size, delay" [inject_Z B; delay]] (io s)) s in
  if (B =? 0)%Z then (Raised ZeroDivisionError, s0)
  else
    let total := ((Z.of_nat (length uris) + B - 1) `div` B)%Z in
    if (0 <? B)%Z then
      match for_each (process_batch self uris out B delay total)
              ((fun k => Z.of_nat k * B)%Z <$>
               seq 0 (Z.to_nat ((Z.of_nat (length uris) + B - 1) `div` B))) s0 with
      | (Done _, s1) => finish_collection uris out total s1
      | (Raised e, s1) => (Raised e, s1)
      end
    else finish_collection uris out total s0.
Proof.
  unfold run_collection. cbv zeta.
  rewrite run_bind, io_logging_run. cbv beta iota.
  rewrite run_bind, io_logging_run. cbv beta iota.
  rewrite set_io_extend. simpl app.
  rewrite run_bind. unfold floor_div at 1. destruct (B =? 0)%Z eqn:HB0; [done|].
  unfold ret at 1. cbv beta iota. rewrite run_bind. unfold py_range. rewrite HB0.
  destruct (0 <? B)%Z.
  - unfold ret at 1. cbv beta iota. by rewrite run_bind.
  - unfold ret at 1. cbv beta iota. rewrite run_bind. done.
Qed.

Lemma save_event_local features filename :
  lookups [save_event features filename] = [] /\
  requested [save_event features filename] = [] /\
  sleeps [save_event features filename] = [].
Proof. unfold save_event. by destruct (has_slash filename). Qed.

(** Lines 209-228 on a list that is not empty, with all they leave in the
    world. *)
Lemma finish_nonempty_world uris out total (s : frame) :
  uris <> [] ->
  exists evs s',
    finish_collection uris out total s = (Done (all_features s), s') /\
    locals s' = locals s /\ trace (io s') = trace (io s) ++ evs /\
    lookups evs = [] /\ requested evs = [] /\ sleeps evs = [] /\
    dumps evs = saved (all_features s) out ++
                (if decide (failed_tracks s = []) then []
                 else [(out +:+ ".failed", FailedDoc (failed_tracks s))]).
Proof.
  intros Hne. unfold finish_collection. cbv zeta. rewrite run_bind. unfold get at 1.
  cbv beta iota. rewrite run_bind, io_save_run.
  unfold logging. rewrite !(run_bind (io_call _)), !io_logging_run.
  destruct (Z.eqb_spec (Z.of_nat (length uris)) 0) as [Hz|Hz].
  { destruct uris; [done | simpl in Hz; lia]. }
  cbv beta iota. rewrite run_bind, io_logging_run, run_bind, io_logging_run. cbv beta iota.
  destruct (decide (failed_tracks s = [])) as [Hf|Hf]; simpl.
  - eexists _, _. split; [reflexivity|]. split; [reflexivity|]. simpl.
    rewrite <- !app_assoc. split; [reflexivity|].
    unfold save_event, saved. by destruct (has_slash out).
  - eexists _, _. split; [reflexivity|]. split; [reflexivity|]. simpl.
    rewrite <- !app_assoc. split; [reflexivity|].
    unfold save_event, saved. by destruct (has_slash out).
Qed.

Lemma finish_requested uris out total (s : frame) :
  requested (trace (io (finish_collection uris out total s).2)) = requested (trace (io s)).
Proof.
  destruct (decide (uris = [])) as [->|Hne].
  - unfold finish_collection. cbv zeta. rewrite run_bind. unfold get at 1. cbv beta iota.
    rewrite run_bind, io_save_run.
    unfold logging. rewrite !(run_bind (io_call _)), !io_logging_run. simpl.
    rewrite !requested_app. simpl.
    unfold save_event. destruct (has_slash out); by rewrite !app_nil_r.
  - destruct (finish_nonempty_world uris out total s Hne) as (evs & s' & E & _ & Htr & _ & Hr & _).
    rewrite E. simpl. by rewrite Htr, requested_app, Hr, app_nil_r.
Qed.

(** The run for a positive batch size: two log lines, the loop over the
    batches, the finish. *)
Lemma run_positive self uris out b delay (s : frame) :
  0 < b ->
  run_collection self uris out (Z.of_nat b) delay s =
  finish_collection uris out
    ((Z.of_nat (length uris) + Z.of_nat b - 1) `div` Z.of_nat b)%Z
    (for_each (process_batch self uris out (Z.of_nat b) delay
                 ((Z.of_nat (length uris) + Z.of_nat b - 1) `div` Z.of_nat b)%Z)
       (starts b (ceil_div (length uris) b))
       (set_io (extend [Log INFO "Collecting audio features for tracks"
                          [inject_Z (Z.of_nat (length uris))];
                        Log INFO "Using batch size, delay" [inject_Z (Z.of_nat b); delay]]
                  (io s)) s)).2.
Proof.
  intros Hb. rewrite run_collection_begin. cbv zeta.
  destruct (Z.eqb_spec (Z.of_nat b) 0); [lia|].
  destruct (Z.ltb_spec 0 (Z.of_nat b)); [|lia].
  rewrite ceil_div_Z by done. fold (starts b (ceil_div (length uris) b)).
  match goal with |- context [for_each ?f ?l ?s1] =>
    pose proof (loop_returns self uris out b delay
                  ((Z.of_nat (length uris) + Z.of_nat b - 1) `div` Z.of_nat b)%Z
                  (ceil_div (length uris) b) s1) as Hret;
    destruct (for_each f l s1) as [[[]|e] s2] end; [done|done].
Qed.

Lemma concat_fmap_fmap {A B C} (f : B -> C) (g : A -> list B) (l : list A) :
  concat ((fun k => f <$> g k) <$> l) = f <$> concat (g <$> l).
Proof.
  induction l as [|k l IH]; [done|]. rewrite !fmap_cons. cbn [concat]. by rewrite fmap_app, IH.
Qed.

(** X12. For a positive batch size, the requests of a run are one per batch,
    each for the first 100 identifiers of its batch; with a batch size of at
    most 100, the requests put end to end are the identifiers submitted, each
    taken out of its URI. *)
Theorem run_requests self track_uris output_file batch_size delay w :
  (0 < batch_size)%Z ->
  requested (trace (collect_all_audio_features self track_uris output_file batch_size delay w).2)
  = requested (trace w)
    ++ ((fun k => extract_track_id_from_uri
                  <$> take 100 (chunk (Z.to_nat batch_size) track_uris k))
        <$> seq 0 (ceil_div (length track_uris) (Z.to_nat batch_size))) /\
  ((batch_size <= 100)%Z ->
   concat ((fun k => extract_track_id_from_uri
                     <$> take 100 (chunk (Z.to_nat batch_size) track_uris k))
           <$> seq 0 (ceil_div (length track_uris) (Z.to_nat batch_size)))
   = extract_track_id_from_uri <$> track_uris).
Proof.
  intros HB. assert (0 < Z.to_nat batch_size) as Hb by lia. split.
  - rewrite RunClaims.collect_unfold. simpl snd. rewrite <- (Z2Nat.id batch_size) at 1 by lia.
    rewrite run_positive, finish_requested, loop_requested by done. simpl.
    by rewrite requested_app, app_nil_r.
  - intros H100.
    rewrite <- (RunClaims.chunks_cover (Z.to_nat batch_size) track_uris Hb) at 2.
    rewrite <- concat_fmap_fmap. f_equal. apply list_fmap_ext. intros _ k _.
    rewrite take_ge; [done|]. pose proof (RunClaims.chunk_length (Z.to_nat batch_size) track_uris k).
    lia.
Qed.

Lemma run_requests_witness :
  requested (trace (collect_all_audio_features {| sp := catalog |}
                      ["spotify:track:a"; "b"; "spotify:track:c"] "out/f.json" 2 1 w0).2)
  = [["a"; "b"]; ["c"]].
Proof.
  destruct (run_requests {| sp := catalog |} ["spotify:track:a"; "b"; "spotify:track:c"]
              "out/f.json" 2 1 w0) as [H _]; [lia|].
  rewrite H. reflexivity.
Defined.

(** X13. A batch size that is not positive, on a list that is not empty:
    nothing is looked up, requested or waited for. With size zero the number
    of batches divides by zero, and [ZeroDivisionError] leaves the function
    before any file is written; with a negative size the range of batches is
    empty, and the run returns the empty map, saved as such, with no
    identifier marked as failed. *)
Theorem nonpositive_batch_size self track_uris output_file batch_size delay w :
  (batch_size <= 0)%Z -> track_uris <> [] ->
  exists evs,
    trace (collect_all_audio_features self track_uris output_file batch_size delay w).2
    = trace w ++ evs /\
    lookups evs = [] /\ requested evs = [] /\ sleeps evs = [] /\
    if (batch_size =? 0)%Z then
      (collect_all_audio_features self track_uris output_file batch_size delay w).1
      = Raised ZeroDivisionError /\ dumps evs = []
    else
      (collect_all_audio_features self track_uris output_file batch_size delay w).1
      = Done ∅ /\ dumps evs = saved ∅ output_file.
Proof.
  intros HB Hne. rewrite RunClaims.collect_unfold, run_collection_begin. cbv zeta.
  simpl fst. simpl snd.
  destruct (Z.eqb_spec batch_size 0) as [->|H0].
  { eexists. split; [reflexivity|]. done. }
  destruct (Z.ltb_spec 0 batch_size); [lia|].
  set (total := (_ `div` _)%Z).
  match goal with |- context [finish_collection _ _ _ ?s0] =>
    destruct (finish_nonempty_world track_uris output_file total s0 Hne)
      as (evs & s' & E & Hloc & Htr & Hl & Hr & Hs & Hd) end.
  rewrite E. simpl fst. simpl snd.
  exists ([Log INFO "Collecting audio features for tracks"
             [inject_Z (Z.of_nat (length track_uris))];
           Log INFO "Using batch size, delay" [inject_Z batch_size; delay]] ++ evs).
  simpl in Htr, Hd. rewrite app_nil_r in Hd. split; [by rewrite Htr, <- app_assoc|].
  by rewrite lookups_app, requested_app, sleeps_app, dumps_app, Hl, Hr, Hs, Hd.
Qed.

Lemma nonpositive_batch_size_witness :
  (collect_all_audio_features {| sp := catalog |} ["a"; "b"] "out/f.json" (-1) 1 w0).1
  = Done ∅ /\
  (collect_all_audio_features {| sp := catalog |} ["a"; "b"] "out/f.json" 0 1 w0).1
  = Raised ZeroDivisionError.
Proof.
  destruct (nonpositive_batch_size {| sp := catalog |} ["a"; "b"] "out/f.json" (-1) 1 w0)
    as (evs1 & _ & _ & _ & _ & H1 & _); [lia | discriminate |].
  destruct (nonpositive_batch_size {| sp := catalog |} ["a"; "b"] "out/f.json" 0 1 w0)
    as (evs2 & _ & _ & _ & _ & H2 & _); [lia | discriminate |].
  split; [exact H1 | exact H2].
Defined.

End RunRequests.

Module RunTrace.
Import SpotifyClient Observed Logs ClientFacts BatchFacts LoopFacts RunFacts Accounting Samples
       BatchExtras RunRequests.

Section Loop.
Context (self : SpotifyAudioFeatureCollector) (uris : list string) (out : string)
        (b : nat) (delay : Q) (total : Z).

(** The loop only adds to the trace. *)
Lemma loop_trace n (s : frame) :
  0 < b -> n <= ceil_div (length uris) b ->
  exists evs,
    trace (io (for_each (process_batch self uris out (Z.of_nat b) delay total)
                 (starts b n) s).2) = trace (io s) ++ evs /\
    lookups evs = chunk b uris <$> seq 0 n /\
    requested evs
    = (fun k => extract_track_id_from_uri <$> take 100 (chunk b uris k)) <$> seq 0 n.
Proof.
  intros Hb. induction n as [|n IH]; intros Hn.
  { exists []. simpl. by rewrite app_nil_r. }
  destruct IH as (evs0 & Htr0 & Hl0 & Hr0); [lia|].
  rewrite loop_S. set (s1 := (for_each _ (starts b n) s).2) in *.
  destruct (body_run self uris out b delay total n s1) as (evs & s2 & E & _ & Htr & Hl & Hr).
  rewrite E. change ((Done (), s2).2) with s2.
  destruct (batch_run self (chunk b uris n) (io s1)) as (evs' & Htr' & Hl' & _).
  pose proof (batch_requested self (chunk b uris n) (io s1)) as Hreq.
  specialize (Hreq ltac:(apply chunk_nonempty; lia)).
  rewrite Htr' in Hreq. rewrite requested_app in Hreq. apply app_inv_head in Hreq.
  exists (evs0 ++ (Lookup (chunk b uris n) :: evs') ++ evs).
  rewrite Htr, Htr', Htr0, <- !app_assoc. split; [done|].
  rewrite !lookups_app, !requested_app, Hl0, Hr0, Hl, Hr, Hreq, !app_nil_r.
  change (lookups (Lookup (chunk b uris n) :: evs')) with (chunk b uris n :: lookups evs').
  rewrite Hl', !seq_S, !fmap_app. done.
Qed.

End Loop.

(** The whole run on a list that is not empty, for a positive batch size. *)
Lemma run_trace self uris out b delay w :
  0 < b -> uris <> [] ->
  exists features evs w',
    collect_all_audio_features self uris out (Z.of_nat b) delay w = (Done features, w') /\
    trace w' = trace w ++ evs /\
    lookups evs = chunk b uris <$> seq 0 (ceil_div (length uris) b) /\
    requested evs
    = (fun k => extract_track_id_from_uri <$> take 100 (chunk b uris k))
      <$> seq 0 (ceil_div (length uris) b).
Proof.
  intros Hb Hne. rewrite RunClaims.collect_unfold, run_positive by done.
  set (total := ((Z.of_nat (length uris) + Z.of_nat b - 1) `div` Z.of_nat b)%Z).
  match goal with |- context [for_each ?f ?l ?s0] =>
    destruct (loop_trace self uris out b delay total (ceil_div (length uris) b) s0 Hb)
      as (evs1 & Htr1 & Hl1 & Hr1); [done|];
    set (s1 := (for_each f l s0).2) in * end.
  destruct (finish_nonempty_world uris out total s1 Hne)
    as (evs2 & s2 & E & _ & Htr2 & Hl2 & Hr2 & _).
  rewrite E. simpl in Htr1.
  exists (all_features s1),
    ([Log INFO "Collecting audio features for tracks" [inject_Z (Z.of_nat (length uris))];
      Log INFO "Using batch size, delay" [inject_Z (Z.of_nat b); delay]] ++ evs1 ++ evs2),
    (io s2).
  split; [reflexivity|]. rewrite Htr2, Htr1, <- !app_assoc. split; [reflexivity|].
  rewrite !lookups_app, !requested_app, Hl1, Hl2, Hr1, Hr2, !app_nil_r. done.
Qed.

End RunTrace.

Module RunFiles.
Import SpotifyClient Observed Logs ClientFacts BatchFacts LoopFacts RunFacts Accounting Samples
       BatchExtras RunRequests.

(** The pacing delay and the periodic checkpoint, with the file written. *)
Lemma pace_and_checkpoint_dumps out delay total n (s : frame) :
  (Qnum delay <? 0)%Z = false ->
  exists evs,
    (_ ← io_call (time_sleep delay);
     if (n `mod` 10 =? 0)%Z then
       s ← get;
       _ ← io_call (save_features_to_file (all_features s) (out +:+ ".tmp"));
       io_call (logging_with INFO "Progress: features collected"
                  [inject_Z (Z.of_nat (success_count (all_features s)));
                   inject_Z n; inject_Z total])
     else ret tt) s = (Done tt, set_io (extend evs (io s)) s) /\
    dumps evs = if (n `mod` 10 =? 0)%Z then saved (all_features s) (out +:+ ".tmp") else [].
Proof.
  intros Hd. rewrite run_bind, io_sleep_run, Hd. destruct (n `mod` 10 =? 0)%Z.
  - exists [Sleep delay; save_event (all_features s) (out +:+ ".tmp");
            Log INFO "Progress: features collected"
              [inject_Z (Z.of_nat (success_count (all_features s))); inject_Z n; inject_Z total]].
    split.
    + rewrite run_bind. unfold get at 1. cbv beta iota.
      rewrite run_bind, io_save_run, io_logging_run.
      unfold set_io, extend. simpl. by rewrite <- !app_assoc.
    + unfold dumps, save_event, saved. simpl. by destruct (has_slash (out +:+ ".tmp")).
  - by exists [Sleep delay].
Qed.

(** What one iteration writes: nothing, or one checkpoint when the number
    of the batch is a multiple of ten. *)
Lemma iteration_dumps self out delay total batch n (s : frame) :
  exists cps,
    dumps (trace (io (try_except (attempt_batch self out delay total batch n)
                        (abandon_batch batch n) s).2))
    = dumps (trace (io s)) ++ cps /\
    Forall (checkpoint out) cps /\
    length cps <= (if (n `mod` 10 =? 0)%Z then 1 else 0).
Proof.
  assert (forall m, exists cps,
            (if (n `mod` 10 =? 0)%Z then saved m (out +:+ ".tmp") else []) = cps /\
            Forall (checkpoint out) cps /\
            length cps <= (if (n `mod` 10 =? 0)%Z then 1 else 0)) as Hcp.
  { intros m. eexists. split; [reflexivity|].
    destruct (n `mod` 10 =? 0)%Z; [|split; [constructor | simpl; lia]].
    unfold saved. destruct (has_slash (out +:+ ".tmp")); [|split; [constructor | simpl; lia]].
    split; [|simpl; lia]. apply Forall_cons_2; [by eexists | constructor]. }
  assert (forall cps : list (string * document),
            cps = [] -> Forall (checkpoint out) cps /\
                        length cps <= (if (n `mod` 10 =? 0)%Z then 1 else 0)) as Hnone.
  { intros cps ->. split; [constructor|]. simpl. destruct (n `mod` 10 =? 0)%Z; lia. }
  unfold try_except, attempt_batch. rewrite run_bind. unfold io_call at 1, call at 1.
  destruct (batch_run self batch (io s)) as (evs0 & Htr0 & _ & Hd0 & _).
  destruct (get_audio_features_batch self batch (io s)) as [[bf|e] w'].
  2:{ rewrite abandon_batch_run. exists []. simpl in *. rewrite Htr0.
      rewrite !dumps_app. simpl. rewrite Hd0. split; [by rewrite !app_nil_r | by apply Hnone]. }
  simpl in Htr0. cbv beta iota. rewrite run_bind. destruct (decide (bf ≠ ∅)) as [Hbf|Hbf].
  - rewrite run_bind. unfold modify at 1. rewrite track_failures.
    destruct (Qnum delay <? 0)%Z eqn:Hd.
    + rewrite run_bind, io_sleep_run, Hd, abandon_batch_run. exists []. simpl.
      rewrite Htr0, !dumps_app. simpl. rewrite Hd0.
      split; [by rewrite !app_nil_r | by apply Hnone].
    + destruct (pace_and_checkpoint_dumps out delay total n
                  (fail (filter (fun uri => populated (bf !! uri) = false) batch)
                     (merge bf (set_io w' s))) Hd) as (evs & E & Hdumps).
      rewrite E. destruct (Hcp (all_features (fail (filter (fun uri => populated (bf !! uri) = false) batch)
                     (merge bf (set_io w' s))))) as (cps & Hcps & Hall).
      exists cps. split; [|done]. simpl. rewrite Htr0, !dumps_app. simpl.
      rewrite Hd0, Hdumps, Hcps. by rewrite !app_nil_r.
  - rewrite run_bind. unfold modify at 1. rewrite io_logging_run.
    destruct (Qnum delay <? 0)%Z eqn:Hd.
    + rewrite run_bind, io_sleep_run, Hd, abandon_batch_run. exists []. simpl.
      rewrite Htr0, !dumps_app. simpl. rewrite Hd0.
      split; [by rewrite !app_nil_r | by apply Hnone].
    + match goal with |- context [(_ ≫= _) ?s0] =>
        destruct (pace_and_checkpoint_dumps out delay total n s0 Hd) as (evs & E & Hdumps);
        destruct (Hcp (all_features s0)) as (cps & Hcps & Hall)
      end.
      rewrite E. exists cps. split; [|done]. simpl. rewrite Htr0, !dumps_app. simpl.
      rewrite Hd0, Hdumps, Hcps. by rewrite !app_nil_r.
Qed.

Lemma tenth_step k :
  k / 10 + (if (Z.of_nat (S k) `mod` 10 =? 0)%Z then 1 else 0) <= S k / 10.
Proof.
  pose proof (Nat.div_mod_eq k 10) as H1.
  pose proof (Nat.mod_upper_bound k 10 ltac:(lia)) as H2.
  pose proof (Nat.div_mod_eq (S k) 10) as H3.
  pose proof (Nat.mod_upper_bound (S k) 10 ltac:(lia)) as H4.
  destruct (Z.eqb_spec (Z.of_nat (S k) `mod` 10) 0) as [Hz|Hz].
  - change 10%Z with (Z.of_nat 10) in Hz. rewrite <- Nat2Z.inj_mod in Hz. lia.
  - lia.
Qed.

Section Loop.
Context (self : SpotifyAudioFeatureCollector) (uris : list string) (out : string)
        (b : nat) (delay : Q) (total : Z).

(** The files written by the loop are checkpoints, at most one in ten
    batches. *)
Lemma loop_dumps n (s : frame) :
  0 < b ->
  exists cps,
    dumps (trace (io (for_each (process_batch self uris out (Z.of_nat b) delay total)
                        (starts b n) s).2)) = dumps (trace (io s)) ++ cps /\
    Forall (checkpoint out) cps /\ length cps <= n / 10.
Proof.
  intros Hb. induction n as [|n IH].
  { exists []. simpl. rewrite app_nil_r. split; [done|]. split; [constructor | simpl; lia]. }
  destruct IH as (cps0 & Hd0 & Hall0 & Hlen0).
  rewrite loop_S. set (s1 := (for_each _ (starts b n) s).2) in *.
  unfold process_batch. cbv zeta.
  replace ((Z.of_nat n * Z.of_nat b) `div` Z.of_nat b + 1)%Z with (Z.of_nat (S n))
    by (rewrite Z.div_mul by lia; lia).
  destruct (iteration_dumps self out delay total
              (slice (Z.of_nat n * Z.of_nat b) (Z.of_nat n * Z.of_nat b + Z.of_nat b) uris)
              (Z.of_nat (S n)) s1) as (cps & Hd & Hall & Hlen).
  exists (cps0 ++ cps). rewrite Hd, Hd0, <- app_assoc. split; [done|].
  split; [by apply Forall_app|]. rewrite length_app.
  pose proof (tenth_step n). destruct (Z.of_nat (S n) `mod` 10 =? 0)%Z; lia.
Qed.

End Loop.

(** X14. The files of a run, for a positive batch size and a list that is not
    empty: checkpoints of the feature map under the output name with [.tmp]
    added, at most one for every ten batches; then the feature map returned,
    under the output name when that has a directory part; then the failure
    list under the name with [.failed] added, if there is any failure.
    Nothing else is written. *)
Theorem files_written self track_uris output_file batch_size delay w :
  (0 < batch_size)%Z -> track_uris <> [] ->
  exists features failed checkpoints w',
    collect_all_audio_features self track_uris output_file batch_size delay w
    = (Done features, w') /\
    dumps (trace w') =
      dumps (trace w) ++ checkpoints ++ saved features output_file ++
      (if decide (failed = []) then []
       else [(output_file +:+ ".failed", FailedDoc failed)]) /\
    Forall (fun d => exists m, d = (output_file +:+ ".tmp", FeaturesDoc m)) checkpoints /\
    length checkpoints <= ceil_div (length track_uris) (Z.to_nat batch_size) / 10.
Proof.
  intros HB Hne. assert (0 < Z.to_nat batch_size) as Hb by lia.
  rewrite RunClaims.collect_unfold. rewrite <- (Z2Nat.id batch_size) by lia.
  rewrite run_positive by done. rewrite Z2Nat.id by lia.
  set (total := ((Z.of_nat (length track_uris) + batch_size - 1) `div` batch_size)%Z).
  rewrite <- (Z2Nat.id batch_size) by lia. rewrite Nat2Z.id.
  match goal with |- context [for_each ?f ?l ?s0] =>
    destruct (loop_dumps self track_uris output_file (Z.to_nat batch_size) delay total
                (ceil_div (length track_uris) (Z.to_nat batch_size)) s0 Hb)
      as (cps & Hd1 & Hall & Hlen);
    set (s1 := (for_each f l s0).2) in * end.
  destruct (finish_nonempty_world track_uris output_file total s1 Hne)
    as (evs2 & s2 & E & _ & Htr2 & _ & _ & _ & Hd2).
  rewrite E. exists (all_features s1), (failed_tracks s1), cps, (io s2).
  split; [done|]. simpl trace in Hd1. rewrite Htr2, dumps_app, Hd1, Hd2.
  rewrite dumps_app. simpl. rewrite app_nil_r, <- !app_assoc. done.
Qed.

Lemma files_written_witness :
  exists features failed checkpoints w',
    collect_all_audio_features {| sp := catalog |} ["a"; "b"; "c"] "out/f.json" 2 1 w0
    = (Done features, w') /\
    dumps (trace w') =
      checkpoints ++ saved features "out/f.json" ++
      (if decide (failed = []) then [] else [("out/f.json" +:+ ".failed", FailedDoc failed)]) /\
    length checkpoints <= 0.
Proof.
  destruct (files_written {| sp := catalog |} ["a"; "b"; "c"] "out/f.json" 2 1 w0)
    as (features & failed & cps & w' & E & Hd & _ & Hlen); [lia | discriminate |].
  exists features, failed, cps, w'. split; [exact E|]. split; [exact Hd | exact Hlen].
Defined.



End RunFiles.

(** ** enrich_dataset.py: more on the driver *)

Module DriverExtras.
Import Extractors Corpus ExtractorsFacts ExtractorsScan Observed EnrichDataset Samples.
Import Ledger Logs LedgerFacts ExtractorsMore Probe MoreSamples LoopFacts.

Lemma extract_capped data_dir k :
  (0 < k)%Z ->
  extract_unique_tracks_from_mpd data_dir (Some k) =
  extract_unique_tracks_from_mpd (take (Z.to_nat k) data_dir) (Some k).
Proof.
  intros Hk. unfold extract_unique_tracks_from_mpd, run_extraction.
  assert (cap_files (Some k) (take (Z.to_nat k) data_dir) = cap_files (Some k) data_dir) as ->; [|done].
  unfold cap_files, capped, slice_to. simpl.
  destruct (Z.eqb_spec k 0); [lia|]. simpl. destruct (Z.leb_spec 0 k); [|lia].
  by rewrite take_take, Nat.min_id.
Qed.

(** X16. The driver reads the first five slice files at most: whatever
    follows them in the directory changes neither its outcome nor anything
    it logs, requests or writes. *)
Theorem main_reads_five_files data_raw env service w :
  main data_raw env service w = main (take 5 data_raw) env service w /\
  forall front rest, length front = 5 ->
    main (front ++ rest) env service w = main front env service w.
Proof.
  assert (forall xs, main xs env service w = main (take 5 xs) env service w) as H.
  { intros xs. unfold main, MAX_FILES. by rewrite (extract_capped xs 5) by lia. }
  split; [apply H|]. intros front rest Hlen.
  rewrite H, take_app_length' by done. done.
Qed.

Lemma truthy_nonempty v : truthy v = true -> default "" v <> "".
Proof.
  destruct v as [s|]; simpl; [|done]. intros H Hs.
  apply negb_true_iff, bool_decide_eq_false in H. done.
Qed.

(** With credentials that are not empty and a service that passes the
    connection test, the client is built. *)
Lemma init_passes service client_id client_secret w :
  client_id <> "" -> client_secret <> "" -> passes service (requests w) = true ->
  SpotifyClient.__init__ service client_id client_secret w =
  (Done {| SpotifyClient.sp := service |},
   {| trace := trace w ++ [Search; Request [test_track_id];
                           Log INFO "API connection and audio features test passed" [];
                           Log SUCCESS "Spotify API client initialized successfully" []];
      requests := S (S (requests w)) |}).
Proof.
  intros Hid Hsecret Hp.
  pose proof (ConstructionFacts.test_connection_run {| SpotifyClient.sp := service |} w) as H.
  simpl SpotifyClient.sp in H. rewrite Hp in H.
  assert (bool_decide (client_id = "") || bool_decide (client_secret = "") = false) as Hc.
  { by rewrite !bool_decide_eq_false_2 by done. }
  unfold SpotifyClient.__init__, try_except. rewrite run_bind, Hc.
  unfold ret at 1. cbv beta iota zeta. rewrite run_bind, H. cbv beta iota.
  unfold logging, logging_with, emit, modify, mbind, Py_bind, bind, mret, Py_ret, ret.
  simpl. by rewrite <- app_assoc.
Qed.

(** The stage, once the client is built, runs to its end whatever the
    service does: the collection does not raise on a list that is not empty. *)
Lemma stage_completes service client_id client_secret unique w :
  client_id <> "" -> client_secret <> "" -> passes service (requests w) = true ->
  dict_keys unique <> [] ->
  exists evs w',
    enrichment_stage service client_id client_secret unique w = (Done tt, w') /\
    trace w' = trace w ++ evs ++ [Log SUCCESS "Audio feature collection complete!" []] /\
    lookups evs = chunk 100 (dict_keys unique) <$> seq 0 (ceil_div (length unique) 100) /\
    requested evs
    = [test_track_id]
      :: ((fun k => SpotifyClient.extract_track_id_from_uri
                    <$> take 100 (chunk 100 (dict_keys unique) k))
          <$> seq 0 (ceil_div (length unique) 100)).
Proof.
  intros Hid Hsecret Hp Hne. unfold enrichment_stage.
  rewrite run_bind, init_passes by done. cbv beta iota zeta.
  set (w1 := {| trace := _ ++ _; requests := _ |}).
  destruct (RunTrace.run_trace {| SpotifyClient.sp := service |} (dict_keys unique)
              (INTERIM_DIR +:+ "/audio_features.json") 100 (1 # 10) w1)
    as (features & evs & w2 & E & Htr & Hl & Hr); [lia|done|].
  change (Z.of_nat 100) with 100%Z in E. rewrite run_bind, E. cbv beta iota.
  rewrite run_bind, DriverClaims.logging_with_run. cbv beta iota.
  rewrite DriverClaims.logging_run, dict_keys_length in *.
  exists ([Search; Request [test_track_id];
           Log INFO "API connection and audio features test passed" [];
           Log SUCCESS "Spotify API client initialized successfully" []] ++ evs ++
          [Log DEBUG "Collected audio features for tracks"
             [inject_Z (Z.of_nat (size features))]]).
  eexists. split; [reflexivity|]. simpl trace. rewrite Htr. unfold w1. simpl trace.
  rewrite <- !app_assoc. split; [done|].
  rewrite !lookups_app, !BatchExtras.requested_app, Hl, Hr. simpl. by rewrite !app_nil_r.
Qed.

(** The same seen from [enrich]. *)
Lemma enrich_completes env service unique w :
  truthy (SPOTIFY_CLIENT_ID env) && truthy (SPOTIFY_CLIENT_SECRET env) = true ->
  passes service (requests w) = true -> dict_keys unique <> [] ->
  exists evs w',
    enrich env service unique w = (Done tt, w') /\
    trace w' = trace w ++ evs ++ [Log SUCCESS "Audio feature collection complete!" []] /\
    lookups evs = chunk 100 (dict_keys unique) <$> seq 0 (ceil_div (length unique) 100) /\
    requested evs
    = [test_track_id]
      :: ((fun k => SpotifyClient.extract_track_id_from_uri
                    <$> take 100 (chunk 100 (dict_keys unique) k))
          <$> seq 0 (ceil_div (length unique) 100)).
Proof.
  intros Hcred Hp Hne. rewrite DriverClaims.enrich_run, Hcred.
  apply andb_prop in Hcred as [Hid Hsecret].
  destruct (stage_completes service (default "" (SPOTIFY_CLIENT_ID env))
              (default "" (SPOTIFY_CLIENT_SECRET env)) unique
              (extend [Log INFO "Step 2: Collecting audio features from Spotify..." []] w))
    as (evs & w' & E & Htr & Hl & Hr); [by apply truthy_nonempty..|done|done|].
  rewrite E. exists (Log INFO "Step 2: Collecting audio features from Spotify..." [] :: evs), w'.
  split; [done|]. split; [|done]. rewrite Htr. simpl. by rewrite <- app_assoc.
Qed.

(** Extraction leaves nothing but log lines in the world. *)
Lemma extract_world data_dir max_files w :
  exists logs,
    (extract_unique_tracks_from_mpd data_dir max_files w).2 = extend logs w /\
    forallb is_log logs = true.
Proof.
  destruct (extract_consistent data_dir max_files w) as (s & logs & _ & _ & Hio & Hlogs & E).
  rewrite E. cbv zeta. rewrite Hio.
  destruct (decide (length (unique_tracks s) = 0)); simpl; rewrite extend_extend;
    eexists; (split; [reflexivity|]); rewrite forallb_app, Hlogs; done.
Qed.

(** The driver, stage by stage. *)
Lemma main_run data_raw env service w :
  main data_raw env service w =
  match extract_unique_tracks_from_mpd data_raw MAX_FILES
          (extend [Log INFO "Starting MPD Dataset Enrichment Pipeline" [];
                   Log INFO "============================================================" [];
                   Log INFO "Step 1: Extracting unique tracks from MPD..." []] w) with
  | (Done (unique, frequency), w2) =>
      match enrich env service unique
              (extend [JsonDump (INTERIM_DIR +:+ "/unique_tracks.json")
                         (TracksDoc unique.*2 frequency (length unique) (sum_values frequency));
                       Log SUCCESS "Saved unique tracks" [inject_Z (Z.of_nat (length unique))];
                       Log DEBUG "Client ID loaded" [];
                       Log DEBUG "Client Secret loaded" []] w2) with
      | (Done _, w4) => (Done tt, extend [Log SUCCESS "Dataset enrichment pipeline complete!" []] w4)
      | (Raised e, w4) => (Raised e, w4)
      end
  | (Raised e, w2) => (Raised e, w2)
  end.
Proof.
  unfold main.
  rewrite run_bind, DriverClaims.logging_run, run_bind, DriverClaims.logging_run,
    run_bind, DriverClaims.logging_run, run_bind, !extend_extend. simpl app.
  destruct (extract_unique_tracks_from_mpd data_raw MAX_FILES _) as [[[unique frequency]|e] w2];
    [|done].
  cbv beta iota. rewrite run_bind, DriverClaims.save_track_data_run by reflexivity.
  rewrite run_bind, DriverClaims.logging_run, run_bind, DriverClaims.logging_run, run_bind,
    !extend_extend. simpl app.
  destruct (enrich env service unique _) as [[[]|e] w4]; done.
Qed.

(** X17. When extraction returns, both credentials are set and the service
    passes the connection test, the enrichment stage runs to its end whatever
    the service does afterwards: the driver returns, its last two log lines
    report the collection and the pipeline complete, the identifiers
    extracted are never an empty list, they are looked up in batches of 100
    in the order of the mapping, and the requests for features are the one of
    the connection test followed by one per batch. *)
Theorem main_completes data_raw env service w unique frequency :
  (extract_unique_tracks_from_mpd data_raw MAX_FILES w).1 = Done (unique, frequency) ->
  truthy (SPOTIFY_CLIENT_ID env) && truthy (SPOTIFY_CLIENT_SECRET env) = true ->
  passes service (requests w) = true ->
  exists earlier w',
    main data_raw env service w = (Done tt, w') /\
    trace w' = earlier ++ [Log SUCCESS "Audio feature collection complete!" [];
                           Log SUCCESS "Dataset enrichment pipeline complete!" []] /\
    dict_keys unique <> [] /\
    lookups (trace w')
    = lookups (trace w)
      ++ (chunk 100 (dict_keys unique) <$> seq 0 (ceil_div (length unique) 100)) /\
    requested (trace w')
    = requested (trace w)
      ++ [test_track_id]
         :: ((fun k => SpotifyClient.extract_track_id_from_uri
                       <$> take 100 (chunk 100 (dict_keys unique) k))
             <$> seq 0 (ceil_div (length unique) 100)).
Proof.
  intros Hex Hcred Hp. rewrite main_run.
  set (w1 := extend _ w).
  rewrite (DriverClaims.extract_any_world data_raw MAX_FILES w w1) in Hex.
  destruct (extract_world data_raw MAX_FILES w1) as (logs & Hw2 & Hlogs).
  destruct (extract_unique_tracks_from_mpd data_raw MAX_FILES w1) as [o w2] eqn:E.
  simpl in Hex, Hw2. subst o w2.
  assert (dict_keys unique <> []) as Hne.
  { destruct (extract_consistent data_raw MAX_FILES w1) as (s & ? & _ & _ & _ & _ & E').
    rewrite E in E'. cbv zeta in E'. destruct (decide (length (unique_tracks s) = 0)); [done|].
    injection E' as -> _ _. intros Hnil. apply (f_equal length) in Hnil.
    rewrite dict_keys_length in Hnil. done. }
  set (w3 := extend _ (extend logs w1)).
  destruct (enrich_completes env service unique w3 Hcred Hp Hne)
    as (evs & w4 & E4 & Htr & Hl & Hr).
  rewrite E4.
  exists (trace w3 ++ evs), (extend [Log SUCCESS "Dataset enrichment pipeline complete!" []] w4).
  split; [reflexivity|]. simpl trace. rewrite Htr.
  destruct (RunRequests.logs_quiet logs Hlogs) as (Hl0 & Hr0 & _).
  split; [unfold w3, w1; simpl; by rewrite <- !app_assoc|]. split; [done|].
  rewrite !lookups_app, !BatchExtras.requested_app, Hl, Hr. unfold w3, w1. simpl trace.
  rewrite !lookups_app, !BatchExtras.requested_app, Hl0, Hr0. simpl. by rewrite !app_nil_r.
Qed.

Lemma main_completes_witness :
  exists earlier w',
    main mixed_dir with_credentials catalog w0 = (Done tt, w') /\
    trace w' = earlier ++ [Log SUCCESS "Audio feature collection complete!" [];
                           Log SUCCESS "Dataset enrichment pipeline complete!" []] /\
    lookups (trace w') = [["A"; "B"; "C"]] /\
    requested (trace w') = [[test_track_id]; ["A"; "B"; "C"]].
Proof.
  destruct (main_completes mixed_dir with_credentials catalog w0
              [("A", stored "A" "first"); ("B", stored "B" "b"); ("C", stored "C" "c")]
              {[ "A" := 3; "B" := 1; "C" := 1 ]})
    as (earlier & w' & E & Htr & _ & Hl & Hr).
  - vm_compute. reflexivity.
  - reflexivity.
  - vm_compute. reflexivity.
  - exists earlier, w'. split; [exact E|]. split; [exact Htr|].
    split; [rewrite Hl | rewrite Hr]; reflexivity.
Defined.

(** X18. When extraction raises, which it does by [ZeroDivisionError] only,
    the driver stops there with the same exception: it has logged, and
    neither written a file nor sent a request. *)
Theorem main_stops_with_extraction data_raw env service w e :
  (extract_unique_tracks_from_mpd data_raw MAX_FILES w).1 = Raised e ->
  e = ZeroDivisionError /\
  exists logs,
    main data_raw env service w = (Raised e, extend logs w) /\
    forallb is_log logs = true /\ dumps logs = [] /\ requested logs = [].
Proof.
  intros Hex. rewrite main_run.
  set (w1 := extend _ w).
  rewrite (DriverClaims.extract_any_world data_raw MAX_FILES w w1) in Hex.
  destruct (extract_world data_raw MAX_FILES w1) as (logs & Hw2 & Hlogs).
  destruct (extract_consistent data_raw MAX_FILES w1) as (s & ? & _ & _ & _ & _ & E').
  destruct (extract_unique_tracks_from_mpd data_raw MAX_FILES w1) as [o w2] eqn:E.
  simpl in Hex, Hw2. subst o w2. split.
  - cbv zeta in E'. destruct (decide (length (unique_tracks s) = 0)); [|done]. by injection E'.
  - exists ([Log INFO "Starting MPD Dataset Enrichment Pipeline" [];
             Log INFO "============================================================" [];
             Log INFO "Step 1: Extracting unique tracks from MPD..." []] ++ logs).
    split; [unfold w1; by rewrite extend_extend|].
    assert (forallb is_log
              ([Log INFO "Starting MPD Dataset Enrichment Pipeline" [];
                Log INFO "============================================================" [];
                Log INFO "Step 1: Extracting unique tracks from MPD..." []] ++ logs) = true) as Hall
      by (by rewrite forallb_app, Hlogs).
    split; [done|]. by destruct (RunRequests.logs_quiet _ Hall) as (_ & ? & ? & _).
Qed.

Lemma main_stops_with_extraction_witness :
  exists logs,
    main [] with_credentials catalog w0 = (Raised ZeroDivisionError, extend logs w0) /\
    dumps logs = [] /\ requested logs = [].
Proof.
  destruct (main_stops_with_extraction [] with_credentials catalog w0 ZeroDivisionError)
    as (_ & logs & E & _ & Hd & Hr).
  - reflexivity.
  - exists logs. split; [exact E|]. split; [exact Hd | exact Hr].
Defined.

End DriverExtras.

(** ** logging_manager.py: the logger *)

Module LoggerFacts.
Import LoggingManager LoggerShape.

Lemma construction_run p r0 :
  _initialized r0 = false -> makedirs_ok p = true -> open_ok p = true ->
  GeneralLogger p r0 = (Done tt, constructed p r0).
Proof.
  intros Hi Hm Ho. unfold GeneralLogger, __new__, __init__.
  unfold mbind, Py_bind, bind, modify, get. simpl. rewrite Hi, Hm, Ho. simpl.
  unfold constructed, routed. simpl. by rewrite <- app_assoc.
Qed.

Lemma construction_again p r :
  _initialized r = true -> _instance r = true -> GeneralLogger p r = (Done tt, r).
Proof.
  intros Hi Hn. unfold GeneralLogger, __new__, __init__.
  unfold mbind, Py_bind, bind, modify, get. simpl. rewrite Hi.
  unfold ret, set_instance. destruct r. simpl in *. by subst.
Qed.

Lemma log_routed p r lvl msg :
  handlers r = [console; logfile p] -> file_logger r = true ->
  file_logger_log lvl msg r = (Done tt, set_received (received r ++ routed p lvl msg) r).
Proof.
  intros Hh Hf. unfold file_logger_log, mbind, Py_bind, bind, get, emit_record, modify.
  rewrite Hf, Hh. unfold routed. by destruct lvl.
Qed.

End LoggerFacts.

Module LoggerExtras.
Import LoggingManager LoggerShape LoggerFacts LoggerSamples.

(** X19. A first construction of [GeneralLogger], under a file system that
    lets it make its directory and open its file, leaves exactly two
    handlers, the console at [INFO] and the log file at [DEBUG], whatever
    handlers were there before, and [get_logger()] then returns; every later
    construction, whatever it would find outside, changes nothing. *)
Theorem general_logger_once p r0 later :
  _initialized r0 = false -> makedirs_ok p = true -> open_ok p = true ->
  exists r,
    GeneralLogger p r0 = (Done tt, r) /\
    handlers r = [{| target := Stderr; minimum := INFO |};
                  {| target := LogFile (log_filename p); minimum := DEBUG |}] /\
    log_file r = Some (log_filename p) /\
    get_logger r = (Done tt, r) /\
    for_each GeneralLogger later r = (Done tt, r).
Proof.
  intros Hi Hm Ho. exists (constructed p r0).
  split; [by apply construction_run|]. split; [done|]. split; [done|]. split; [done|].
  induction later as [|q later IH]; [done|].
  by rewrite for_each_cons, construction_again.
Qed.

Lemma general_logger_once_witness :
  exists r,
    GeneralLogger willing fresh = (Done tt, r) /\
    length (handlers r) = 2 /\
    for_each GeneralLogger [read_only; willing] r = (Done tt, r).
Proof.
  destruct (general_logger_once willing fresh [read_only; willing])
    as (r & E & Hh & _ & _ & Hl); [reflexivity..|].
  exists r. split; [exact E|]. split; [by rewrite Hh | exact Hl].
Defined.

(** X20. When the directory cannot be made or the file cannot be opened, the
    construction raises [OSError] with the console handler installed, no
    record delivered and the logger not marked as initialised, so that a
    later construction starts afresh and ends with the two handlers, none of
    them twice. *)
Theorem failed_construction_retried p q r0 :
  _initialized r0 = false -> makedirs_ok p && open_ok p = false ->
  makedirs_ok q = true -> open_ok q = true ->
  exists r1 r2,
    GeneralLogger p r0 = (Raised OSError, r1) /\
    handlers r1 = [{| target := Stderr; minimum := INFO |}] /\
    received r1 = received r0 /\ log_file r1 = log_file r0 /\
    GeneralLogger q r1 = (Done tt, r2) /\
    handlers r2 = [{| target := Stderr; minimum := INFO |};
                   {| target := LogFile (log_filename q); minimum := DEBUG |}].
Proof.
  intros Hi Hp Hm Ho.
  assert (exists r1, GeneralLogger p r0 = (Raised OSError, r1) /\
                     handlers r1 = [console] /\ received r1 = received r0 /\
                     log_file r1 = log_file r0 /\ _initialized r1 = false)
    as (r1 & E1 & Hh1 & Hr1 & Hl1 & Hi1).
  { unfold GeneralLogger, __new__, __init__, mbind, Py_bind, bind, modify, get. simpl.
    rewrite Hi. simpl. destruct (makedirs_ok p); simpl in *.
    - rewrite Hp. simpl. by eexists.
    - by eexists. }
  exists r1, (constructed q r1). split; [done|]. split; [done|]. split; [done|]. split; [done|].
  split; [by apply construction_run | done].
Qed.

Lemma failed_construction_retried_witness :
  exists r1 r2,
    GeneralLogger read_only fresh = (Raised OSError, r1) /\
    GeneralLogger willing r1 = (Done tt, r2) /\
    length (handlers r2) = 2.
Proof.
  destruct (failed_construction_retried read_only willing fresh)
    as (r1 & r2 & E1 & _ & _ & _ & E2 & Hh); [reflexivity..|].
  exists r1, r2. split; [exact E1|]. split; [exact E2 | by rewrite Hh].
Defined.

Section Structured.
Context {Any : Type} (bool_of : Any -> bool) (json_dumps : Any -> outcome string).

(** X21. On a constructed logger a [DEBUG] record reaches the log file only,
    a record of any other level both sinks. [log_data] ignores a metadata
    object that is false, which need not even be serialisable; when the data
    are serialised the one record is written at [DEBUG], hence to the file
    only; when [json.dumps] raises, on the metadata or on the data, one
    [ERROR] record goes to both sinks and the exception is raised again. *)
Theorem structured_data_logged p r0 title data metadata :
  _initialized r0 = false -> makedirs_ok p = true -> open_ok p = true ->
  exists r,
    GeneralLogger p r0 = (Done tt, r) /\
    (forall lvl msg,
       file_logger_log lvl msg r =
       (Done tt,
        set_received
          (received r
           ++ match lvl with
              | DEBUG => []
              | _ => [{| receiver := Stderr; line_level := lvl; message := msg |}]
              end
           ++ [{| receiver := LogFile (log_filename p); line_level := lvl; message := msg |}])
          r)) /\
    (forall m, bool_of m = false ->
       log_data bool_of json_dumps data title (Some m) r
       = log_data bool_of json_dumps data title None r) /\
    (forall text, json_dumps data = Done text ->
       log_data bool_of json_dumps data title None r =
       (Done tt,
        set_received
          (received r
           ++ [{| receiver := LogFile (log_filename p); line_level := DEBUG;
                  message := header title +:+ "Data:" +:+ newline +:+ text +:+ newline
                             +:+ times "=" 80 +:+ newline |}])
          r)) /\
    (forall e,
       match metadata with
       | Some m => bool_of m = true /\ json_dumps m = Raised e
       | None => False
       end \/ json_dumps data = Raised e /\
              match metadata with
              | Some m => bool_of m = false \/ exists text, json_dumps m = Done text
              | None => True
              end ->
       log_data bool_of json_dumps data title metadata r =
       (Raised e,
        set_received
          (received r
           ++ [{| receiver := Stderr; line_level := ERROR;
                  message := "Failed to log structured data" |};
               {| receiver := LogFile (log_filename p); line_level := ERROR;
                  message := "Failed to log structured data" |}])
          r)).
Proof.
  intros Hi Hm Ho. exists (constructed p r0). split; [by apply construction_run|].
  assert (forall lvl msg,
            file_logger_log lvl msg (constructed p r0) =
            (Done tt, set_received (received (constructed p r0) ++ routed p lvl msg)
                        (constructed p r0))) as Hlog.
  { intros lvl msg. by apply log_routed. }
  split; [|split; [|split]].
  - intros lvl msg. rewrite Hlog. unfold routed. by destruct lvl.
  - intros m Hfalse. unfold log_data, log_structured_data. by rewrite Hfalse.
  - intros text Hd. unfold log_data, log_structured_data, try_except.
    rewrite run_bind. unfold ret at 1. cbv beta iota. rewrite run_bind.
    unfold dumps at 1. rewrite Hd. cbv beta iota. by rewrite Hlog.
  - intros e He. unfold log_data, log_structured_data, try_except. rewrite run_bind.
    destruct He as [Hmeta|[Hd Hmeta]].
    + destruct metadata as [m|]; [|done]. destruct Hmeta as [Ht He]. rewrite Ht.
      rewrite run_bind. unfold dumps at 1. rewrite He. cbv beta iota.
      rewrite run_bind, Hlog. done.
    + assert (forall (s : string) (r : runtime),
                (text ← dumps json_dumps data;
                 file_logger_log DEBUG (s +:+ "Data:" +:+ newline +:+ text +:+ newline
                                        +:+ times "=" 80 +:+ newline)) r
                = (Raised e, r)) as Hdata.
      { intros s r. rewrite run_bind. unfold dumps. by rewrite Hd. }
      destruct metadata as [m|].
      * destruct Hmeta as [Hf|[text Ht]].
        -- rewrite Hf. unfold ret at 1. cbv beta iota. rewrite Hdata, run_bind, Hlog. done.
        -- destruct (bool_of m).
           ++ rewrite run_bind. unfold dumps at 1. rewrite Ht. cbv beta iota.
              unfold ret at 1. cbv beta iota. rewrite Hdata, run_bind, Hlog. done.
           ++ unfold ret at 1. cbv beta iota. rewrite Hdata, run_bind, Hlog. done.
      * unfold ret at 1. cbv beta iota. rewrite Hdata, run_bind, Hlog. done.
Qed.

End Structured.

Lemma structured_data_logged_witness :
  exists r,
    GeneralLogger willing fresh = (Done tt, r) /\
    (log_data truth render PyCycle "DATA" None r).1 = Raised ValueError /\
    (log_data truth render (PyStr "x") "DATA" (Some (PyStr "")) r).1 = Done tt.
Proof.
  destruct (structured_data_logged truth render willing fresh "DATA" PyCycle None)
    as (r & E & _ & _ & Hok & Hfail); [reflexivity..|].
  exists r. split; [exact E|]. split.
  - rewrite (Hfail ValueError); [reflexivity|]. right. split; [reflexivity | exact I].
  - destruct (structured_data_logged truth render willing fresh "DATA" (PyStr "x") None)
      as (r' & E' & _ & Hsame & Hok' & _); [reflexivity..|].
    assert (r' = r) as -> by congruence.
    rewrite (Hsame (PyStr "")); [|reflexivity].
    by rewrite (Hok' (double_quote +:+ "x" +:+ double_quote)).
Defined.

End LoggerExtras.
